(** * A coalesced-hashing map with a cellar: model of [hash_map.h]

    The class [HashMap<Key, T, Hash>] keeps its entries in a doubly linked
    list ([values_]) and addresses them through a slot table ([data_]) that
    is split into a primary region and a cellar.  This file embeds the class
    member by member and studies its observable behaviour. *)

From Stdlib Require Import ZArith Lia.
From Stdlib Require Import Floats.SpecFloat.
From stdpp Require Import base tactics option list numbers.

Local Open Scope Z_scope.

(** ** Results of running a member function

    A call either returns, throws a C++ exception, runs into undefined
    behaviour (an access outside a vector, a dereference of an iterator that
    designates no node, a remainder by zero), or is still running when the
    fuel of the model is used up. *)

Inductive exception : Type :=
  | out_of_range.

Inductive outcome (A : Type) : Type :=
  | Ret (a : A)
  | Throw (e : exception)
  | Undefined
  | OutOfFuel.

Arguments Ret {A} a.
Arguments Throw {A} e.
Arguments Undefined {A}.
Arguments OutOfFuel {A}.

#[global] Instance outcome_ret : MRet outcome := @Ret.
#[global] Instance outcome_bind : MBind outcome := λ A B f m,
  match m with
  | Ret a => f a
  | Throw e => Throw e
  | Undefined => Undefined
  | OutOfFuel => OutOfFuel
  end.

(** ** [SizeType]: 64-bit unsigned arithmetic *)

Definition wrap (x : Z) : Z := x mod 2 ^ 64.

Definition shl (x k : Z) : Z := wrap (Z.shiftl x k).

(** [static constexpr SizeType NONE = -1] *)
Definition NONE : Z := Eval cbv in wrap (-1).

(** ** Vectors ([std::vector]) indexed by [SizeType] *)

Definition in_range {A} (v : list A) (i : Z) : bool :=
  (0 <=? i) && (i <? Z.of_nat (length v)).

Definition vec_get {A} (v : list A) (i : Z) : outcome A :=
  if in_range v i then from_option Ret Undefined (v !! Z.to_nat i) else Undefined.

Definition vec_set {A} (v : list A) (i : Z) (x : A) : outcome (list A) :=
  if in_range v i then Ret (<[Z.to_nat i := x]> v) else Undefined.

Definition vec_back {A} (v : list A) : outcome A :=
  from_option Ret Undefined (list.last v).

Definition vec_size {A} (v : list A) : Z := wrap (Z.of_nat (length v)).

(** ** The list of entries ([std::list<ValueType>]) and its iterators

    A node of the list is identified by a handle; an iterator designates a
    node, is the past-the-end iterator, or is value-initialised and
    designates nothing. *)

Inductive iterator : Type :=
  | node (h : nat)
  | list_end
  | singular.

#[global] Instance iterator_eq_dec : EqDecision iterator.
Proof. solve_decision. Defined.

(** ** Static tables *)

(** [PRIMES]: prime numbers for the growth policy. *)
Definition PRIMES : list Z := [
    2; 3; 5; 7;
    11; 13; 17; 23;
    29; 37; 47; 59;
    73; 97; 127; 151;
    197; 251; 313; 397;
    499; 631; 797; 1009;
    1259; 1597; 2011; 2539;
    3203; 4027; 5087; 6421;
    8089; 10193; 12853; 16193;
    20399; 25717; 32401; 40823;
    51437; 64811; 81649; 102877;
    129607; 163307; 205759; 259229;
    326617; 411527; 518509; 653267;
    823117; 1037059; 1306601; 1646237;
    2074129; 2613229; 3292489; 4148279;
    5226491; 6584983; 8296553; 10453007;
    13169977; 16593127; 20906033; 26339969;
    33186281; 41812097; 52679969; 66372617;
    83624237; 105359939; 132745199; 167248483;
    210719881; 265490441; 334496971; 421439783;
    530980861; 668993977; 842879579; 1061961721;
    1337987929; 1685759167; 2123923447; 2675975881;
    3371518343; 4247846927; 5351951779; 6743036717;
    8495693897; 10703903591; 13486073473; 16991387857;
    21407807219; 26972146961; 33982775741; 42815614441;
    53944293929; 67965551447; 85631228929; 107888587883;
    135931102921; 171262457903; 215777175787; 271862205833;
    342524915839; 431554351609; 543724411781; 685049831731;
    863108703229; 1087448823553; 1370099663459; 1726217406467;
    2174897647073; 2740199326961; 3452434812973; 4349795294267;
    5480398654009; 6904869625999; 8699590588571; 10960797308051;
    13809739252051; 17399181177241; 21921594616111; 27619478504183;
    34798362354533; 43843189232363; 55238957008387; 69596724709081;
    87686378464759; 110477914016779; 139193449418173; 175372756929481;
    220955828033581; 278386898836457; 350745513859007; 441911656067171;
    556773797672909; 701491027718027; 883823312134381; 1113547595345903;
    1402982055436147; 1767646624268779; 2227095190691797; 2805964110872297;
    3535293248537579; 4454190381383713; 5611928221744609; 7070586497075177;
    8908380762767489; 11223856443489329; 14141172994150357; 17816761525534927;
    22447712886978529; 28282345988300791; 35633523051069991; 44895425773957261;
    56564691976601587; 71267046102139967; 89790851547914507; 113129383953203213;
    142534092204280003; 179581703095829107; 226258767906406483; 285068184408560057;
    359163406191658253; 452517535812813007; 570136368817120201; 718326812383316683;
    905035071625626043; 1140272737634240411; 1436653624766633509; 1810070143251252131;
    2280545475268481167; 2873307249533267101; 3620140286502504283; 4561090950536962147;
    5746614499066534157; 7240280573005008577; 9122181901073924329; 11493228998133068689;
    14480561146010017169; 18446744073709551557
  ].

(** The [switch] of [GetMaxLookups], one pair per [case]. *)
Definition MAX_LOOKUPS : list (Z * Z) := [
    (17, 5); (23, 5); (29, 5);
    (37, 6); (47, 6); (59, 6);
    (73, 7); (97, 7); (127, 7);
    (151, 8); (197, 8); (251, 8);
    (313, 9); (397, 9); (499, 9);
    (631, 10); (797, 10); (1009, 10);
    (1259, 11); (1597, 11); (2011, 11);
    (2539, 12); (3203, 12); (4027, 12);
    (5087, 13); (6421, 13); (8089, 13);
    (10193, 14); (12853, 14); (16193, 14);
    (20399, 15); (25717, 15); (32401, 15);
    (40823, 16); (51437, 16); (64811, 16);
    (81649, 17); (102877, 17); (129607, 17);
    (163307, 18); (205759, 18); (259229, 18);
    (326617, 19); (411527, 19); (518509, 19);
    (653267, 20); (823117, 20); (1037059, 20);
    (1306601, 21); (1646237, 21); (2074129, 21);
    (2613229, 22); (3292489, 22); (4148279, 22);
    (5226491, 23); (6584983, 23); (8296553, 23);
    (10453007, 24); (13169977, 24); (16593127, 24);
    (20906033, 25); (26339969, 25); (33186281, 25);
    (41812097, 26); (52679969, 26); (66372617, 26);
    (83624237, 27); (105359939, 27); (132745199, 27);
    (167248483, 28); (210719881, 28); (265490441, 28);
    (334496971, 29); (421439783, 29); (530980861, 29);
    (668993977, 30); (842879579, 30); (1061961721, 30);
    (1337987929, 31); (1685759167, 31); (2123923447, 31);
    (2675975881, 32); (3371518343, 32); (4247846927, 32);
    (5351951779, 33); (6743036717, 33); (8495693897, 33);
    (10703903591, 34); (13486073473, 34); (16991387857, 34);
    (21407807219, 35); (26972146961, 35); (33982775741, 35);
    (42815614441, 36); (53944293929, 36); (67965551447, 36);
    (85631228929, 37); (107888587883, 37); (135931102921, 37);
    (171262457903, 38); (215777175787, 38); (271862205833, 38);
    (342524915839, 39); (431554351609, 39); (543724411781, 39);
    (685049831731, 40); (863108703229, 40); (1087448823553, 40);
    (1370099663459, 41); (1726217406467, 41); (2174897647073, 41);
    (2740199326961, 42); (3452434812973, 42); (4349795294267, 42);
    (5480398654009, 43); (6904869625999, 43); (8699590588571, 43);
    (10960797308051, 44); (13809739252051, 44); (17399181177241, 44);
    (21921594616111, 45); (27619478504183, 45); (34798362354533, 45);
    (43843189232363, 46); (55238957008387, 46); (69596724709081, 46);
    (87686378464759, 47); (110477914016779, 47); (139193449418173, 47);
    (175372756929481, 48); (220955828033581, 48); (278386898836457, 48);
    (350745513859007, 49); (441911656067171, 49); (556773797672909, 49);
    (701491027718027, 50); (883823312134381, 50); (1113547595345903, 50);
    (1402982055436147, 51); (1767646624268779, 51); (2227095190691797, 51);
    (2805964110872297, 52); (3535293248537579, 52); (4454190381383713, 52);
    (5611928221744609, 53); (7070586497075177, 53); (8908380762767489, 53);
    (11223856443489329, 54); (14141172994150357, 54); (17816761525534927, 54);
    (22447712886978529, 55); (28282345988300791, 55); (35633523051069991, 55);
    (44895425773957261, 56); (56564691976601587, 56); (71267046102139967, 56);
    (89790851547914507, 57); (113129383953203213, 57); (142534092204280003, 57);
    (179581703095829107, 58); (226258767906406483, 58); (285068184408560057, 58);
    (359163406191658253, 59); (452517535812813007, 59); (570136368817120201, 59);
    (718326812383316683, 60); (905035071625626043, 60); (1140272737634240411, 60);
    (1436653624766633509, 61); (1810070143251252131, 61); (2280545475268481167, 61);
    (2873307249533267101, 62); (3620140286502504283, 62); (4561090950536962147, 62);
    (5746614499066534157, 63); (7240280573005008577, 63); (9122181901073924329, 63);
    (11493228998133068689, 64); (14480561146010017169, 64); (18446744073709551557, 64)
  ].

Fixpoint switch_on (cases : list (Z * Z)) (dflt x : Z) : Z :=
  match cases with
  | [] => dflt
  | (c, r) :: cases' => if x =? c then r else switch_on cases' dflt x
  end.

(** [GetMaxLookups]: about log2 of [primary_size], [default: return 4]. *)
Definition GetMaxLookups (primary_size : Z) : Z :=
  switch_on MAX_LOOKUPS 4 primary_size.

(** [NextPrime]: [*std::lower_bound(begin(PRIMES) + 1, end(PRIMES) - 1, value)].
    The searched range leaves out the first and the last prime; when no
    element of the range is at least [value] the returned iterator is
    [end(PRIMES) - 1], which designates the last prime. *)
Definition NextPrime (value : Z) : Z :=
  match List.find (λ p, value <=? p) (removelast (tail PRIMES)) with
  | Some p => p
  | None => List.last PRIMES 0
  end.

(** ** Single precision *)

(** [B] is a [float] and the cellar size is computed with it.  The numbers
    of IEEE 754 are those of [SpecFloat], binary64 with precision 53 and
    binary32 with precision 24, every operation rounding to nearest, ties to
    even.  Each operation of the source is one operation here and rounds on
    its own, as the compilers do where [float] expressions are evaluated in
    [float] and a product is not fused with the sum that follows it.
    [double_of_int] and [float_of_SizeType] are the conversions of an
    integer to [double] and to [float], [float_of_double] is the narrowing of
    a constant, and [SizeType_of_float] is the conversion back, which drops
    the fractional part.  That conversion is defined by the language only
    for values that fit into [SizeType]; the product of a [SizeType] with
    [B], plus one, stays below 2^62. *)
Definition double_of_int (n : Z) : spec_float :=
  binary_normalize 53 1024 n 0 false.

Definition float_of_SizeType (n : Z) : spec_float :=
  binary_normalize 24 128 n 0 false.

Definition float_of_double (x : spec_float) : spec_float :=
  match x with
  | S754_finite s m e => binary_normalize 24 128 (cond_Zopp s (Zpos m)) e s
  | _ => x
  end.

Definition SizeType_of_float (x : spec_float) : Z :=
  match x with
  | S754_finite s m e =>
      cond_Zopp s (if 0 <=? e then Zpos m * 2 ^ e else Zpos m / 2 ^ (- e))
  | _ => 0
  end.

(** [static constexpr float B = 7 / 43.]: the quotient is taken in [double]
    and narrowed. *)
Definition B : spec_float :=
  float_of_double (SFdiv 53 1024 (double_of_int 7) (double_of_int 43)).

(** [cellar_size_ = primary_size_ * B + 1]: [primary_size_] and [1] are
    converted to [float], product and sum are single precision operations,
    and the assignment converts the sum to [SizeType]. *)
Definition cellar_of (primary_size : Z) : Z :=
  SizeType_of_float
    (SFadd 24 128 (SFmul 24 128 (float_of_SizeType primary_size) B)
       (float_of_SizeType 1)).

(** ** Slots *)

(** [struct Data]; [Data()] sets [used], [deleted] and [next] and leaves
    [rev_pos] indeterminate (it is never read before [Insert] writes it). *)
Record Data : Type := mkData {
  value : iterator;
  used : bool;
  deleted : bool;
  rev_pos : Z;
  next : Z
}.

Definition Data_new : Data := mkData singular false false 0 NONE.

Definition set_next (s : Data) (n : Z) : Data :=
  mkData (value s) (used s) (deleted s) (rev_pos s) n.

Definition set_rev_pos (s : Data) (r : Z) : Data :=
  mkData (value s) (used s) (deleted s) r (next s).

#[global] Instance Data_eq_dec : EqDecision Data.
Proof. solve_decision. Defined.

(** ** The class *)

Section HashMap.

Context {Key T : Type} `{EqDecision Key} `{EqDecision T}.

(** [MappedType()], the value-initialised mapped value of [operator[]]. *)
Variable T_new : T.

Definition ValueType : Type := Key * T.

(** The private fields.  [values_] pairs every entry with the handle of its
    list node; [hasher_] returns a [size_t], a number from 0 to 2^64 - 1. *)
Record HashMap : Type := mkHashMap {
  values_ : list (nat * ValueType);
  positions_ : list Z;
  data_ : list Data;
  element_count_ : Z;
  primary_size_ : Z;
  cellar_size_ : Z;
  start_pos_ : Z;
  hasher_ : Key → Z
}.

(** *** [std::list] operations on [values_] *)

Fixpoint node_at (vs : list (nat * ValueType)) (h : nat) : option ValueType :=
  match vs with
  | [] => None
  | (h', x) :: vs' => if decide (h' = h) then Some x else node_at vs' h
  end.

(** [*it] *)
Definition deref (vs : list (nat * ValueType)) (it : iterator) : outcome ValueType :=
  match it with
  | node h => from_option Ret Undefined (node_at vs h)
  | _ => Undefined
  end.

(** The handle of the node that [push_back] allocates. *)
Definition new_node (vs : list (nat * ValueType)) : nat := S (max_list vs.*1).

(** [values_.push_back(x)]; the second component is [--values_.end()]. *)
Definition push_back (vs : list (nat * ValueType)) (x : ValueType)
    : list (nat * ValueType) * iterator :=
  (vs ++ [(new_node vs, x)], node (new_node vs)).

(** [values_.erase(it)] *)
Definition list_erase (vs : list (nat * ValueType)) (it : iterator)
    : outcome (list (nat * ValueType)) :=
  match it with
  | node h =>
      match node_at vs h with
      | Some _ => Ret (filter (λ e, e.1 ≠ h) vs)
      | None => Undefined
      end
  | _ => Undefined
  end.

(** What a traversal from [begin()] to [end()] visits. *)
Definition elements (st : HashMap) : list ValueType := (values_ st).*2.

(** *** Field updates *)

Definition with_data (st : HashMap) (d : list Data) : HashMap :=
  mkHashMap (values_ st) (positions_ st) d (element_count_ st)
            (primary_size_ st) (cellar_size_ st) (start_pos_ st) (hasher_ st).

Definition with_start_pos (st : HashMap) (p : Z) : HashMap :=
  mkHashMap (values_ st) (positions_ st) (data_ st) (element_count_ st)
            (primary_size_ st) (cellar_size_ st) p (hasher_ st).

(** [hasher_(key) % primary_size_] *)
Definition bucket (st : HashMap) (key : Key) : outcome Z :=
  if primary_size_ st =? 0 then Undefined
  else Ret (hasher_ st key mod primary_size_ st).

(** *** [Find] *)

Fixpoint Find (fuel : nat) (st : HashMap) (key : Key) (pos : Z) : outcome Z :=
  match fuel with
  | O => OutOfFuel
  | S fuel' =>
      if pos =? NONE then Ret NONE
      else
        s ← vec_get (data_ st) pos;
        if used s then
          x ← deref (values_ st) (value s);
          if decide (x.1 = key) then Ret pos
          else Find fuel' st key (next s)
        else if negb (deleted s) then Ret NONE
        else Find fuel' st key (next s)
  end.

(** *** [Insert] *)

(** The first loop of [Insert]: follow the links up to the end of the chain
    or up to a deleted slot. *)
Fixpoint chain_walk (fuel : nat) (d : list Data) (pos distance : Z) : outcome (Z * Z) :=
  match fuel with
  | O => OutOfFuel
  | S fuel' =>
      s ← vec_get d pos;
      if negb (next s =? NONE) && negb (deleted s)
      then chain_walk fuel' d (next s) (wrap (distance + 1))
      else Ret (pos, distance)
  end.

(** The second loop of [Insert]: walk down from [next_free] over the slots in
    use.  [Some p] is the slot at which the loop condition fails; [None]
    stands for the [if] inside the loop being taken. *)
Fixpoint free_scan (fuel : nat) (st : HashMap) (next_free distance : Z)
    : outcome (option Z) :=
  match fuel with
  | O => OutOfFuel
  | S fuel' =>
      s ← vec_get (data_ st) next_free;
      if used s then
        let next_free' :=
          if next_free =? 0
          then wrap (primary_size_ st + cellar_size_ st - 1)
          else next_free - 1 in
        let distance' := wrap (distance + 1) in
        if (primary_size_ st <? shl (element_count_ st) 2)
           && (GetMaxLookups (primary_size_ st) <? distance')
        then Ret None
        else free_scan fuel' st next_free' distance'
      else Ret (Some next_free)
  end.

(** The last seven statements of [Insert]. *)
Definition store (st : HashMap) (x : ValueType) (pos : Z) : outcome (HashMap * Z) :=
  let '(vs, it) := push_back (values_ st) x in
  s ← vec_get (data_ st) pos;
  d ← vec_set (data_ st) pos
        (mkData it true false (vec_size (positions_ st)) (next s));
  Ret (mkHashMap vs (positions_ st ++ [pos]) d
         (wrap (element_count_ st + 1))
         (primary_size_ st) (cellar_size_ st) (start_pos_ st) (hasher_ st),
       pos).

(** [for (const auto &x : values) Insert(x, hasher_(x.first) % primary_size_)] *)
Fixpoint insert_all (ins : HashMap → ValueType → Z → outcome (HashMap * Z))
    (xs : list ValueType) (st : HashMap) : outcome HashMap :=
  match xs with
  | [] => Ret st
  | x :: xs' =>
      pos ← bucket st x.1;
      r ← ins st x pos;
      insert_all ins xs' r.1
  end.

(** [Rehash], with the [Insert] it calls as a parameter. *)
Definition Rehash_with (ins : HashMap → ValueType → Z → outcome (HashMap * Z))
    (st : HashMap) (n : Z) : outcome HashMap :=
  let primary_size := NextPrime n in
  let cellar_size := cellar_of primary_size in
  let start_pos := wrap (primary_size + cellar_size - 1) in
  let d := replicate (Z.to_nat (wrap (primary_size + cellar_size))) Data_new in
  match values_ st with
  | [] =>
      Ret (mkHashMap [] (positions_ st) d 0 primary_size cellar_size
             start_pos (hasher_ st))
  | _ :: _ =>
      insert_all ins (values_ st).*2
        (mkHashMap [] [] d 0 primary_size cellar_size start_pos (hasher_ st))
  end.

(** The first statement of [Insert]: when the load factor is more than 0.5,
    rehash and compute the position again. *)
Definition rehash_if_loaded (ins : HashMap → ValueType → Z → outcome (HashMap * Z))
    (st : HashMap) (x : ValueType) (pos : Z) : outcome (HashMap * Z) :=
  if primary_size_ st <? shl (element_count_ st) 1 then
    st' ← Rehash_with ins st (shl (primary_size_ st) 1);
    pos' ← bucket st' x.1;
    Ret (st', pos')
  else Ret (st, pos).

Fixpoint Insert (fuel : nat) (st : HashMap) (x : ValueType) (pos : Z)
    : outcome (HashMap * Z) :=
  match fuel with
  | O => OutOfFuel
  | S fuel' =>
      r ← rehash_if_loaded (Insert fuel') st x pos;
      let '(st, pos) := r in
      head ← vec_get (data_ st) pos;
      if used head then
        w ← chain_walk fuel' (data_ st) pos 0;
        let '(pos, distance) := w in
        last_slot ← vec_get (data_ st) pos;
        if used last_slot then
          f ← free_scan fuel' st (start_pos_ st) distance;
          match f with
          | None =>
              st' ← Rehash_with (Insert fuel') st (shl (primary_size_ st) 1);
              pos' ← bucket st' x.1;
              Insert fuel' st' x pos'
          | Some next_free =>
              d ← vec_set (data_ st) pos (set_next last_slot next_free);
              store (with_data (with_start_pos st next_free) d) x next_free
          end
        else store st x pos
      else store st x pos
  end.

Definition Rehash (fuel : nat) : HashMap → Z → outcome HashMap :=
  Rehash_with (Insert fuel).

(** *** Constructors and assignment *)

(** The object when the body of a constructor starts: the containers are
    empty and the scalar fields are indeterminate. *)
Definition raw (hf : Key → Z) : HashMap := mkHashMap [] [] [] 0 0 0 0 hf.

(** [explicit HashMap(const Hasher &hf = Hasher())] *)
Definition HashMap_new (fuel : nat) (hf : Key → Z) : outcome HashMap :=
  Rehash fuel (raw hf) 0.

Definition with_values (st : HashMap) (vs : list (nat * ValueType)) : HashMap :=
  mkHashMap vs (positions_ st) (data_ st) (element_count_ st)
            (primary_size_ st) (cellar_size_ st) (start_pos_ st) (hasher_ st).

Definition push_back_all (vs : list (nat * ValueType)) (xs : list ValueType)
    : list (nat * ValueType) :=
  foldl (λ vs x, (push_back vs x).1) vs xs.

(** [HashMap(InputIterator first, InputIterator last, const Hasher &hf)] *)
Definition HashMap_range (fuel : nat) (xs : list ValueType) (hf : Key → Z)
    : outcome HashMap :=
  st ← HashMap_new fuel hf;
  let vs := push_back_all (values_ st) xs in
  Rehash fuel (with_values st vs) (shl (vec_size vs) 1).

(** [HashMap(std::initializer_list<...> list, const Hasher &hf)] *)
Definition HashMap_init_list (fuel : nat) (xs : list ValueType) (hf : Key → Z)
    : outcome HashMap :=
  st ← HashMap_new fuel hf;
  let vs := push_back_all (values_ st) xs in
  Rehash fuel (with_values st vs) (shl (vec_size vs) 1).

(** The statements shared by the copy constructor and the body of the [if]
    in the copy assignment operator. *)
Definition rebuild_from (fuel : nat) (other : HashMap) : outcome HashMap :=
  let primary_size := primary_size_ other in
  let cellar_size := cellar_size_ other in
  insert_all (Insert fuel) (values_ other).*2
    (mkHashMap [] []
       (replicate (Z.to_nat (wrap (primary_size + cellar_size))) Data_new)
       0 primary_size cellar_size
       (wrap (primary_size + cellar_size - 1)) (hasher_ other)).

(** [HashMap(const HashMap &other)] *)
Definition HashMap_copy (fuel : nat) (other : HashMap) : outcome HashMap :=
  rebuild_from fuel other.

(** [HashMap &operator=(const HashMap &other)] *)
Definition assign (fuel : nat) (this other : HashMap) : outcome HashMap :=
  if decide (elements this ≠ elements other)
  then rebuild_from fuel other
  else Ret this.

(** *** Capacity *)

Definition size (st : HashMap) : Z := element_count_ st.

Definition empty (st : HashMap) : bool := size st =? 0.

Fixpoint reset_slots (ps : list Z) (d : list Data) : outcome (list Data) :=
  match ps with
  | [] => Ret d
  | pos :: ps' => d' ← vec_set d pos Data_new; reset_slots ps' d'
  end.

Definition clear (st : HashMap) : outcome HashMap :=
  d ← reset_slots (positions_ st) (data_ st);
  Ret (mkHashMap [] [] d 0 (primary_size_ st) (cellar_size_ st)
         (wrap (primary_size_ st + cellar_size_ st - 1)) (hasher_ st)).

(** *** Modifiers and lookup *)

Definition insert (fuel : nat) (st : HashMap) (x : ValueType) : outcome HashMap :=
  h ← bucket st x.1;
  pos ← Find fuel st x.1 h;
  if pos =? NONE then r ← Insert fuel st x h; Ret r.1
  else Ret st.

(** The body of the [if] in [erase]: [pos] is the position that [Find]
    returned. *)
Definition erase_at (st : HashMap) (pos : Z) : outcome HashMap :=
  back ← vec_back (positions_ st);
  s ← vec_get (data_ st) pos;
  b ← vec_get (data_ st) back;
  d1 ← vec_set (data_ st) back (set_rev_pos b (rev_pos s));
  s ← vec_get d1 pos;
  p ← vec_get (positions_ st) (rev_pos s);
  ps ← vec_set (positions_ st) (rev_pos s) back;
  ps ← vec_set ps (Z.of_nat (length ps) - 1) p;
  vs ← list_erase (values_ st) (value s);
  d2 ← vec_set d1 pos (mkData singular false true (rev_pos s) (next s));
  Ret (mkHashMap vs (removelast ps) d2 (wrap (element_count_ st - 1))
         (primary_size_ st) (cellar_size_ st) (start_pos_ st) (hasher_ st)).

Definition erase (fuel : nat) (st : HashMap) (key : Key) : outcome HashMap :=
  h ← bucket st key;
  pos ← Find fuel st key h;
  if negb (pos =? NONE) then erase_at st pos else Ret st.

Definition find (fuel : nat) (st : HashMap) (key : Key) : outcome iterator :=
  h ← bucket st key;
  pos ← Find fuel st key h;
  if pos =? NONE then Ret list_end
  else s ← vec_get (data_ st) pos; Ret (value s).

(** [at]: the only [throw] of the class. *)
Definition at_ (fuel : nat) (st : HashMap) (key : Key) : outcome T :=
  it ← find fuel st key;
  if decide (it = list_end) then Throw out_of_range
  else x ← deref (values_ st) it; Ret x.2.

(** [operator[]]: the map after the call, the node whose mapped value the
    returned reference designates, and that value. *)
Definition subscript (fuel : nat) (st : HashMap) (key : Key)
    : outcome (HashMap * iterator * T) :=
  h ← bucket st key;
  pos ← Find fuel st key h;
  if negb (pos =? NONE) then
    s ← vec_get (data_ st) pos;
    x ← deref (values_ st) (value s);
    Ret (st, value s, x.2)
  else
    r ← Insert fuel st (key, T_new) h;
    s ← vec_get (data_ r.1) r.2;
    x ← deref (values_ r.1) (value s);
    Ret (r.1, value s, x.2).

(** *** Iteration *)

Definition begin (st : HashMap) : iterator :=
  match values_ st with
  | [] => list_end
  | (h, _) :: _ => node h
  end.

Definition end_ (st : HashMap) : iterator := list_end.

Definition hash_function (st : HashMap) : Key → Z := hasher_ st.

End HashMap.

Arguments HashMap : clear implicits.

(** ** Iteration, operation sequences and the reference map *)

Section Specification.

Context {Key T : Type} `{EqDecision Key} `{EqDecision T}.

Variable T_new : T.

Local Abbreviation ValueType := (@ValueType Key T).
Local Abbreviation HashMap := (HashMap Key T).

(** [++it] *)
Fixpoint successor (vs : list (nat * ValueType)) (it : iterator) : outcome iterator :=
  match vs with
  | [] => Undefined
  | (h, _) :: vs' =>
      if decide (it = node h)
      then Ret (match vs' with [] => list_end | (h', _) :: _ => node h' end)
      else successor vs' it
  end.

(** [for (it = begin(); it != end(); ++it)] collecting [*it]. *)
Fixpoint traverse (fuel : nat) (st : HashMap) (it : iterator) : outcome (list ValueType) :=
  match fuel with
  | O => OutOfFuel
  | S fuel' =>
      if decide (it = end_ st) then Ret []
      else
        x ← deref (values_ st) it;
        it' ← successor (values_ st) it;
        xs ← traverse fuel' st it';
        Ret (x :: xs)
  end.

(** Calls of the public member functions on one object. *)
Inductive op : Type :=
  | op_insert (x : ValueType)
  | op_erase (key : Key)
  | op_find (key : Key)
  | op_subscript (key : Key)
  | op_clear.

Definition step (fuel : nat) (st : HashMap) (o : op) : outcome HashMap :=
  match o with
  | op_insert x => insert fuel st x
  | op_erase key => erase fuel st key
  | op_find key => _ ← find fuel st key; Ret st
  | op_subscript key => r ← subscript T_new fuel st key; Ret r.1.1
  | op_clear => clear st
  end.

Fixpoint run (fuel : nat) (ops : list op) (st : HashMap) : outcome HashMap :=
  match ops with
  | [] => Ret st
  | o :: ops' => st' ← step fuel st o; run fuel ops' st'
  end.

Definition is_erase (o : op) : bool :=
  match o with
  | op_erase _ => true
  | _ => false
  end.

(** The reference: an association list in insertion order with unique keys. *)
Definition ref_insert (m : list ValueType) (x : ValueType) : list ValueType :=
  if decide (x.1 ∈ m.*1) then m else m ++ [x].

Definition ref_erase (m : list ValueType) (key : Key) : list ValueType :=
  filter (λ y, y.1 ≠ key) m.

Fixpoint ref_find (m : list ValueType) (key : Key) : option T :=
  match m with
  | [] => None
  | y :: m' => if decide (y.1 = key) then Some y.2 else ref_find m' key
  end.

Definition ref_step (m : list ValueType) (o : op) : list ValueType :=
  match o with
  | op_insert x => ref_insert m x
  | op_erase key => ref_erase m key
  | op_find _ => m
  | op_subscript key => ref_insert m (key, T_new)
  | op_clear => []
  end.

Definition ref_run (ops : list op) : list ValueType := foldl ref_step [] ops.

(** The objects that the public interface can produce. *)
Inductive reachable : HashMap → Prop :=
  | reachable_new fuel hf st :
      HashMap_new fuel hf = Ret st → reachable st
  | reachable_range fuel xs hf st :
      HashMap_range fuel xs hf = Ret st → reachable st
  | reachable_init_list fuel xs hf st :
      HashMap_init_list fuel xs hf = Ret st → reachable st
  | reachable_copy fuel other st :
      reachable other → HashMap_copy fuel other = Ret st → reachable st
  | reachable_assign fuel this other st :
      reachable this → reachable other → assign fuel this other = Ret st →
      reachable st
  | reachable_clear st st' :
      reachable st → clear st = Ret st' → reachable st'
  | reachable_insert fuel st x st' :
      reachable st → insert fuel st x = Ret st' → reachable st'
  | reachable_erase fuel st key st' :
      reachable st → erase fuel st key = Ret st' → reachable st'
  | reachable_subscript fuel st key st' it v :
      reachable st → subscript T_new fuel st key = Ret (st', it, v) →
      reachable st'.

(** ** Structure of the slot table *)

(** [chain d i j]: slot [j] is met when the links are followed from slot [i]
    through slots that are in use or deleted. *)
Inductive chain (d : list Data) : Z → Z → Prop :=
  | chain_refl i : chain d i i
  | chain_next i j s :
      vec_get d i = Ret s →
      used s || deleted s = true →
      next s ≠ NONE →
      chain d (next s) j →
      chain d i j.

(** The bucket of a key, [hasher_(key) % primary_size_]. *)
Definition home (st : HashMap) (key : Key) : Z :=
  hasher_ st key `mod` primary_size_ st.

Record wf (st : HashMap) : Prop := mk_wf {
  wf_length : Z.of_nat (length (data_ st)) < 2 ^ 64;
  wf_excl : ∀ i s, vec_get (data_ st) i = Ret s → used s = true → deleted s = false;
  wf_empty : ∀ i s, vec_get (data_ st) i = Ret s →
    used s = false → deleted s = false → next s = NONE;
  wf_nodes : NoDup (values_ st).*1;
  wf_home : ∀ h x, (h, x) ∈ values_ st →
    ∃ i s, chain (data_ st) (home st x.1) i ∧
           vec_get (data_ st) i = Ret s ∧ used s = true ∧ value s = node h;
  wf_used : ∀ i s, vec_get (data_ st) i = Ret s → used s = true →
    ∃ h, value s = node h ∧ h ∈ (values_ st).*1 ∧
         vec_get (positions_ st) (rev_pos s) = Ret i;
  wf_positions : ∀ k i, positions_ st !! k = Some i →
    ∃ s, vec_get (data_ st) i = Ret s ∧ used s = true ∧ rev_pos s = Z.of_nat k;
  wf_value : ∀ i j s s', vec_get (data_ st) i = Ret s → vec_get (data_ st) j = Ret s' →
    used s = true → used s' = true → value s = value s' → i = j
}.

(** "A slot's chain is reachable only from its primary bucket head": an
    entry is met only on the walk that starts at the bucket of its key. *)
Definition own_head_only (st : HashMap) : Prop :=
  ∀ b i s x, 0 ≤ b < primary_size_ st →
    chain (data_ st) b i →
    vec_get (data_ st) i = Ret s → used s = true →
    deref (values_ st) (value s) = Ret x →
    home st x.1 = b.

(** "Traversal via next never revisits a slot": a slot met on the walk from
    a bucket is not met again on the walk that leaves it. *)
Definition never_revisits (st : HashMap) : Prop :=
  ∀ b i s, 0 ≤ b < primary_size_ st →
    chain (data_ st) b i →
    vec_get (data_ st) i = Ret s →
    used s || deleted s = true → next s ≠ NONE →
    ¬ chain (data_ st) (next s) i.

(** A table without deleted slots in which every link leads to a slot that
    was filled later than the slot it leaves. *)
Record pristine (st : HashMap) : Prop := mk_pristine {
  pristine_wf : wf st;
  pristine_deleted : ∀ i s, vec_get (data_ st) i = Ret s → deleted s = false;
  pristine_next : ∀ i s, vec_get (data_ st) i = Ret s → next s ≠ NONE →
    ∃ s', vec_get (data_ st) (next s) = Ret s' ∧
          (used s' = true → rev_pos s < rev_pos s')
}.

(** The objects that the public interface produces without a call of
    [erase] since their table was last built. *)
Inductive erase_free : HashMap → Prop :=
  | erase_free_new fuel hf st :
      HashMap_new fuel hf = Ret st → erase_free st
  | erase_free_range fuel xs hf st :
      HashMap_range fuel xs hf = Ret st → erase_free st
  | erase_free_init_list fuel xs hf st :
      HashMap_init_list fuel xs hf = Ret st → erase_free st
  | erase_free_copy fuel other st :
      HashMap_copy fuel other = Ret st → erase_free st
  | erase_free_assign fuel this other st :
      erase_free this → assign fuel this other = Ret st → erase_free st
  | erase_free_clear st st' :
      erase_free st → clear st = Ret st' → erase_free st'
  | erase_free_insert fuel st x st' :
      erase_free st → insert fuel st x = Ret st' → erase_free st'
  | erase_free_subscript fuel st key st' it v :
      erase_free st → subscript T_new fuel st key = Ret (st', it, v) →
      erase_free st'.

(** One step of the downward scan of [Insert]. *)
Definition step_down (st : HashMap) (next_free : Z) : Z :=
  if next_free =? 0 then wrap (primary_size_ st + cellar_size_ st - 1)
  else next_free - 1.

Definition is_empty_slot (s : Data) : bool := negb (used s) && negb (deleted s).

Definition is_tombstone (s : Data) : bool := negb (used s) && deleted s.

End Specification.

(** ** Auxiliary notions used in the proofs *)

(** A call that does not throw. *)
Definition no_throw {A} (m : outcome A) : Prop := ∀ e, m ≠ Throw e.


Create HintDb no_throw discriminated.

(** A primary size taken from [PRIMES]. *)
Definition tabulated (p : Z) : Prop := p ∈ PRIMES ∧ 2 ≤ p.

Definition tabulatedb (p : Z) : bool :=
  existsb (Z.eqb p) PRIMES && (3 <=? p).

Section Auxiliary.

Context {Key T : Type} `{EqDecision Key} `{EqDecision T}.

Local Abbreviation ValueType := (@ValueType Key T).
Local Abbreviation HashMap := (HashMap Key T).

Implicit Types (st : HashMap) (x : ValueType) (pos : Z).
Implicit Types (ins : HashMap → ValueType → Z → outcome (HashMap * Z)).

(** The table that [Rehash] and the copy operations start from. *)
Definition fresh_table (ps : list Z) (primary_size cellar_size : Z)
    (hf : Key → Z) : HashMap :=
  mkHashMap [] ps
    (replicate (Z.to_nat (wrap (primary_size + cellar_size))) Data_new)
    0 primary_size cellar_size
    (wrap (primary_size + cellar_size - 1)) hf.

(** The ways in which a call of [Insert] returns. *)
Inductive placement (fuel : nat) (st : HashMap) (x : ValueType) (pos : Z)
    (st' : HashMap) (pos' : Z) : Prop :=
  | placed_at_head head :
      vec_get (data_ st) pos = Ret head →
      used head = false →
      store st x pos = Ret (st', pos') →
      placement fuel st x pos st' pos'
  | placed_in_chain head last distance last_slot :
      vec_get (data_ st) pos = Ret head →
      used head = true →
      chain_walk fuel (data_ st) pos 0 = Ret (last, distance) →
      vec_get (data_ st) last = Ret last_slot →
      used last_slot = false →
      store st x last = Ret (st', pos') →
      placement fuel st x pos st' pos'
  | placed_at_tail head last distance last_slot next_free d :
      vec_get (data_ st) pos = Ret head →
      used head = true →
      chain_walk fuel (data_ st) pos 0 = Ret (last, distance) →
      vec_get (data_ st) last = Ret last_slot →
      used last_slot = true →
      free_scan fuel st (start_pos_ st) distance = Ret (Some next_free) →
      vec_set (data_ st) last (set_next last_slot next_free) = Ret d →
      store (with_data (with_start_pos st next_free) d) x next_free = Ret (st', pos') →
      placement fuel st x pos st' pos'
  | placed_after_rehash head last distance last_slot st2 pos2 :
      vec_get (data_ st) pos = Ret head →
      used head = true →
      chain_walk fuel (data_ st) pos 0 = Ret (last, distance) →
      vec_get (data_ st) last = Ret last_slot →
      used last_slot = true →
      free_scan fuel st (start_pos_ st) distance = Ret None →
      Rehash_with (Insert fuel) st (shl (primary_size_ st) 1) = Ret st2 →
      bucket st2 x.1 = Ret pos2 →
      Insert fuel st2 x pos2 = Ret (st', pos') →
      placement fuel st x pos st' pos'.

(** What [Insert] promises about the entry that it adds. *)
Definition stored_at (st' : HashMap) (x : ValueType) (pos' : Z) : Prop :=
  ∃ vs h s, values_ st' = vs ++ [(h, x)] ∧
            vec_get (data_ st') pos' = Ret s ∧ used s = true ∧ value s = node h.

Definition first_node (vs : list (nat * ValueType)) : iterator :=
  match vs with
  | [] => list_end
  | (h, _) :: _ => node h
  end.


(** Properties of the [Insert] that [Rehash_with] and [insert_all] call. *)
Definition appends ins : Prop :=
  ∀ st x pos st' pos', ins st x pos = Ret (st', pos') →
    elements st' = elements st ++ [x] ∧ hasher_ st' = hasher_ st.

Definition inserts_pristine ins : Prop :=
  ∀ st x pos st' pos', pristine st → bucket st x.1 = Ret pos →
    ins st x pos = Ret (st', pos') → pristine st'.

(** No link leads to a slot that is not in use. *)
Definition links_to_used st : Prop :=
  ∀ i s, vec_get (data_ st) i = Ret s → next s ≠ NONE →
    ∃ s', vec_get (data_ st) (next s) = Ret s' ∧ used s' = true.

Definition inserts_linked ins : Prop :=
  ∀ st x pos st' pos', pristine st → links_to_used st →
    bucket st x.1 = Ret pos →
    ins st x pos = Ret (st', pos') → links_to_used st'.

Definition inserts_ok ins : Prop :=
  ∀ st x pos st' pos', wf st → bucket st x.1 = Ret pos →
    ins st x pos = Ret (st', pos') → wf st' ∧ stored_at st' x pos'.

Definition keeps_tabulated ins : Prop :=
  ∀ st x pos st' pos', ins st x pos = Ret (st', pos') →
    tabulated (primary_size_ st) → tabulated (primary_size_ st').

Definition never_throws ins : Prop := ∀ st x pos, no_throw (ins st x pos).


End Auxiliary.

(** ** Notions used for the tables and the bookkeeping of the class *)

(** A list of numbers in strictly increasing order. *)
Fixpoint increasing (l : list Z) : bool :=
  match l with
  | a :: (b :: _) as l' => (a <? b) && increasing l'
  | _ => true
  end.

(** What is checked of the single precision computation of the cellar size
    at a primary size: the sum that is converted to [SizeType] is a positive
    number, its integral part is at least 1 and fits, and the number of
    slots fits into [SizeType] unless the primary size is the last entry of
    [PRIMES]. *)
Definition cellar_checked (p : Z) : bool :=
  match SFadd 24 128 (SFmul 24 128 (float_of_SizeType p) B)
          (float_of_SizeType 1) with
  | S754_finite false _ _ => true
  | _ => false
  end
  && (1 <=? cellar_of p) && (cellar_of p <? 2 ^ 62)
  && (if p <? 18446744073709551557 then p + cellar_of p <? 2 ^ 64
      else (p =? 18446744073709551557) && (2 ^ 64 <=? p + cellar_of p)).

Section Bookkeeping.

Context {Key T : Type} `{EqDecision Key} `{EqDecision T}.

Local Abbreviation ValueType := (@ValueType Key T).
Local Abbreviation HashMap := (HashMap Key T).

(** What the scalar fields and the links say about the containers:
    [element_count_] and [positions_] count the entries, [data_] has
    [primary_size_ + cellar_size_] slots, the cellar has the size that
    [Rehash] computes from the primary size, and the links and [start_pos_]
    index [data_]. *)
Record shaped (st : HashMap) : Prop := mk_shaped {
  shaped_count : element_count_ st = Z.of_nat (length (values_ st));
  shaped_positions : length (positions_ st) = length (values_ st);
  shaped_length :
    Z.of_nat (length (data_ st)) = wrap (primary_size_ st + cellar_size_ st);
  shaped_cellar : cellar_size_ st = cellar_of (primary_size_ st);
  shaped_links : ∀ i s, vec_get (data_ st) i = Ret s → next s ≠ NONE →
    0 ≤ next s < Z.of_nat (length (data_ st));
  shaped_start :
    start_pos_ st = wrap (primary_size_ st + cellar_size_ st - 1) ∨
    0 ≤ start_pos_ st < Z.of_nat (length (data_ st))
}.

Implicit Types (ins : HashMap → ValueType → Z → outcome (HashMap * Z)).

(** A table with a cellar whose number of slots fits into [SizeType]. *)
Definition roomy (st : HashMap) : Prop :=
  2 ≤ primary_size_ st ∧ 1 ≤ cellar_size_ st ∧
  primary_size_ st + cellar_size_ st < 2 ^ 64.

Definition inserts_shaped ins : Prop :=
  ∀ st x pos st' pos', wf st → shaped st → bucket st x.1 = Ret pos →
    ins st x pos = Ret (st', pos') → shaped st'.

(** The load factor that [Insert] keeps: twice the number of the entries
    but one does not exceed the primary size. *)
Definition light (st : HashMap) : Prop :=
  2 * Z.of_nat (length (values_ st)) ≤ primary_size_ st + 2.

Definition inserts_light ins : Prop :=
  ∀ st x pos st' pos', wf st → shaped st → roomy st → light st →
    Z.of_nat (length (values_ st)) < 2 ^ 60 →
    bucket st x.1 = Ret pos →
    ins st x pos = Ret (st', pos') →
    light st' ∧ primary_size_ st ≤ primary_size_ st'.

Definition inserts_defined ins : Prop :=
  ∀ st x pos, wf st → shaped st → roomy st →
    Z.of_nat (length (values_ st)) < 2 ^ 60 →
    bucket st x.1 = Ret pos →
    ins st x pos ≠ Undefined ∧
    ∀ st' pos', ins st x pos = Ret (st', pos') → roomy st'.

(** [Insert] returns on every table without deleted slots that has fewer
    than [bound] entries and at least [4 * bound - m] primary slots. *)
Definition returns_from (bound : Z) (m : nat) : Prop :=
  ∀ st x, pristine st → shaped st → roomy st → light st →
    Z.of_nat (length (values_ st)) < bound →
    4 * bound ≤ primary_size_ st + Z.of_nat m →
    ∃ fuel r, Insert fuel st x (home st x.1) = Ret r.

(** What is known of a map that at most [n] calls have built since it was
    constructed. *)
Record sound (st : HashMap) (n : Z) : Prop := mk_sound {
  sound_wf : wf st;
  sound_shaped : shaped st;
  sound_roomy : roomy st;
  sound_light : light st;
  sound_length : Z.of_nat (length (values_ st)) ≤ n
}.

(** [ins'] returns whatever [ins] returns. *)
Definition extends ins ins' : Prop :=
  ∀ st x pos r, ins st x pos = Ret r → ins' st x pos = Ret r.

End Bookkeeping.

(** ** Concrete maps

    Maps from integers to integers under the identity hash, and the call
    sequences that build them. *)

Definition id_hash : Z → Z := λ k, k.

(** The calls in [ops] on a default-constructed map. *)
Definition run_new (ops : list (@op Z Z)) : outcome (HashMap Z Z) :=
  st ← HashMap_new 64 id_hash;
  run 0 64 ops st.

Definition returned {A} (dflt : A) (m : outcome A) : A :=
  match m with
  | Ret a => a
  | _ => dflt
  end.

(** Three keys of bucket 0 fill the cellar of the seven-slot table; erasing
    and inserting around slots 5 and 6 then links the two slots to each
    other. *)
Definition cyclic_ops : list (@op Z Z) :=
  [op_insert (0, 0); op_insert (7, 70); op_insert (14, 140);
   op_erase 0; op_erase 7;
   op_insert (5, 50); op_insert (12, 120);
   op_erase 5;
   op_insert (6, 60)].

Definition cyclic_map : HashMap Z Z :=
  Eval vm_compute in returned (raw id_hash) (run_new cyclic_ops).

(** The state of [cyclic_ops] before its last call. *)
Definition before_cycle_map : HashMap Z Z :=
  Eval vm_compute in
    returned (raw id_hash) (run_new (take 8 cyclic_ops)).

(** An initializer list with a repeated key. *)
Definition duplicate_list : list (Z * Z) := [(1, 10); (1, 20)].

(** Two colliding keys, the first erased, then [clear]. *)
Definition cleared_ops : list (@op Z Z) :=
  [op_insert (0, 0); op_insert (3, 30); op_erase 0; op_clear].

(** A map that grew to seven primary slots and was emptied again. *)
Definition emptied_ops : list (@op Z Z) :=
  [op_insert (1, 1); op_insert (2, 2); op_insert (3, 3);
   op_erase 1; op_erase 2; op_erase 3].

(** Seven keys of bucket 0 in a table of 17 primary slots, kept in one chain
    by re-using deleted slots. *)
Definition crowded_ops : list (@op Z Z) :=
  [op_insert (1, 1); op_insert (2, 2); op_insert (3, 3); op_insert (4, 4);
   op_insert (5, 5);
   op_erase 1; op_erase 2; op_erase 3; op_erase 4; op_erase 5;
   op_insert (0, 0); op_insert (17, 0); op_insert (34, 0); op_insert (51, 0);
   op_insert (68, 0); op_insert (16, 0); op_insert (33, 0);
   op_erase 16; op_erase 33;
   op_insert (85, 0); op_insert (102, 0)].

Definition crowded_map : HashMap Z Z :=
  Eval vm_compute in returned (raw id_hash) (run_new crowded_ops).

(** Insertions only: the chain of bucket 0 runs into the primary region. *)
Definition coalesced_ops : list (@op Z Z) :=
  [op_insert (0, 0); op_insert (17, 0); op_insert (34, 0); op_insert (51, 0);
   op_insert (68, 0); op_insert (16, 0)].

Definition coalesced_map : HashMap Z Z :=
  Eval vm_compute in returned (raw id_hash) (run_new coalesced_ops).

(** Three keys of bucket 0 in the table of seven primary slots. *)
Definition full_cellar_ops : list (@op Z Z) :=
  [op_insert (0, 0); op_insert (7, 0); op_insert (14, 0)].

Definition full_cellar_map : HashMap Z Z :=
  Eval vm_compute in returned (raw id_hash) (run_new full_cellar_ops).

(** Insertions, an erasure and growth of the table. *)
Definition mixed_ops : list (@op Z Z) :=
  [op_insert (3, 30); op_insert (1, 10); op_insert (7, 70); op_erase 1;
   op_subscript 9; op_insert (3, 31); op_insert (2, 20); op_insert (1, 11);
   op_find 7].

Definition mixed_map : HashMap Z Z :=
  Eval vm_compute in returned (raw id_hash) (run_new mixed_ops).

Definition new_map : HashMap Z Z :=
  Eval vm_compute in returned (raw id_hash) (run_new []).

Definition emptied_map : HashMap Z Z :=
  Eval vm_compute in returned (raw id_hash) (run_new emptied_ops).

(** The result of assigning [mixed_map] to a default-constructed map. *)
Definition assigned_map : HashMap Z Z :=
  Eval vm_compute in returned (raw id_hash) (assign 64 new_map mixed_map).

(** The results of single calls on [mixed_map], whose keys 3 and 20 share a
    bucket. *)
Definition mixed_inserted : HashMap Z Z :=
  Eval vm_compute in
    (returned (raw id_hash, 0)
       (Insert 64 mixed_map (20, 200) (home mixed_map 20))).1.

Definition mixed_erased : HashMap Z Z :=
  Eval vm_compute in returned (raw id_hash) (erase 64 mixed_map 7).

Definition mixed_subscripted : HashMap Z Z :=
  Eval vm_compute in
    (returned (raw id_hash, singular, 0) (subscript 0 64 mixed_map 20)).1.1.

Definition mixed_rehashed : HashMap Z Z :=
  Eval vm_compute in returned (raw id_hash) (Rehash 64 mixed_map 40).

(** The copy of [crowded_map]. *)
Definition crowded_copy : HashMap Z Z :=
  Eval vm_compute in returned (raw id_hash) (HashMap_copy 64 crowded_map).

(** A range of three elements, two of them in one bucket of the table of
    seven primary slots. *)
Definition short_range : list (Z * Z) := [(1, 10); (8, 80); (3, 30)].

Definition short_range_map : HashMap Z Z :=
  Eval vm_compute in
    returned (raw id_hash) (HashMap_range 64 short_range id_hash).

(** A map that grew to seven primary slots and kept one of its three
    entries, and the insertion of a key of the same bucket, at a load factor
    below one quarter. *)
Definition sparse_ops : list (@op Z Z) :=
  [op_insert (1, 10); op_insert (2, 20); op_insert (3, 30);
   op_erase 2; op_erase 3].

Definition sparse_map : HashMap Z Z :=
  Eval vm_compute in returned (raw id_hash) (run_new sparse_ops).

Definition sparse_inserted : HashMap Z Z :=
  Eval vm_compute in returned (raw id_hash) (insert 64 sparse_map (8, 80)).
(** * Properties *)

(** ** The [outcome] monad *)

Lemma bind_Ret {A B} (m : outcome A) (f : A → outcome B) b :
  m ≫= f = Ret b → ∃ a, m = Ret a ∧ f a = Ret b.
Proof. destruct m; simpl; intros; try discriminate; eauto. Qed.

Lemma Ret_bind {A B} (a : A) (f : A → outcome B) : Ret a ≫= f = f a.
Proof. reflexivity. Qed.

Lemma bind_Throw {A B} (m : outcome A) (f : A → outcome B) e :
  m ≫= f = Throw e → m = Throw e ∨ ∃ a, m = Ret a ∧ f a = Throw e.
Proof. destruct m; simpl; intros ?; simplify_eq; eauto. Qed.

(** Split a hypothesis [x ← m; k = Ret b] into its two runs. *)
Tactic Notation "bind_inv" hyp(H) :=
  let a := fresh "r" in
  let Ha := fresh "H" a in
  apply bind_Ret in H as (a & Ha & H).

Tactic Notation "bind_inv" hyp(H) "as" ident(a) ident(Ha) :=
  apply bind_Ret in H as (a & Ha & H).

Ltac ret_inv H := injection H as; subst.

(** ** Vectors *)

Section Vectors.

Context {A : Type}.
Implicit Types (v : list A) (i j : Z) (x y : A).

Lemma in_range_spec v i : in_range v i = true ↔ 0 ≤ i < Z.of_nat (length v).
Proof. unfold in_range. rewrite andb_true_iff, Z.leb_le, Z.ltb_lt. done. Qed.

Lemma vec_get_Ret v i x :
  vec_get v i = Ret x ↔ 0 ≤ i < Z.of_nat (length v) ∧ v !! Z.to_nat i = Some x.
Proof.
  unfold vec_get. destruct (in_range v i) eqn:E.
  - apply in_range_spec in E. destruct (v !! Z.to_nat i) eqn:L; simpl.
    + split; [intros [= ->]; done|]. intros [_ [= ->]]. done.
    + split; [done|]. intros [_ ?]. done.
  - split; [done|]. intros [Hi _]. apply in_range_spec in Hi. congruence.
Qed.

Lemma vec_get_range v i x : vec_get v i = Ret x → 0 ≤ i < Z.of_nat (length v).
Proof. rewrite vec_get_Ret. tauto. Qed.

Lemma vec_get_total v i :
  0 ≤ i < Z.of_nat (length v) → ∃ x, vec_get v i = Ret x.
Proof.
  intros Hi. destruct (lookup_lt_is_Some_2 v (Z.to_nat i)) as [x Hx]; [lia|].
  exists x. apply vec_get_Ret. done.
Qed.

Lemma vec_get_not_Throw v i e : vec_get v i ≠ Throw e.
Proof.
  unfold vec_get. destruct (in_range v i); [|done].
  destruct (v !! Z.to_nat i); done.
Qed.

Lemma vec_set_Ret v i x v' :
  vec_set v i x = Ret v' ↔
  0 ≤ i < Z.of_nat (length v) ∧ v' = <[Z.to_nat i := x]> v.
Proof.
  unfold vec_set. destruct (in_range v i) eqn:E.
  - apply in_range_spec in E. split; [intros [= <-]; done|].
    intros [_ ->]. done.
  - split; [done|]. intros [Hi _]. apply in_range_spec in Hi. congruence.
Qed.

Lemma vec_set_not_Throw v i x e : vec_set v i x ≠ Throw e.
Proof. unfold vec_set. destruct (in_range v i); done. Qed.

Lemma vec_set_length v i x v' :
  vec_set v i x = Ret v' → length v' = length v.
Proof. rewrite vec_set_Ret. intros [_ ->]. apply length_insert. Qed.

Lemma vec_get_set_eq v i x v' :
  vec_set v i x = Ret v' → vec_get v' i = Ret x.
Proof.
  rewrite vec_set_Ret. intros [Hi ->]. apply vec_get_Ret.
  rewrite length_insert. split; [done|].
  apply list_lookup_insert_eq. lia.
Qed.

Lemma vec_get_set_ne v i j x v' :
  vec_set v i x = Ret v' → i ≠ j → vec_get v' j = vec_get v j.
Proof.
  rewrite vec_set_Ret. intros [Hi ->] Hne. unfold vec_get, in_range.
  rewrite length_insert.
  destruct ((0 <=? j) && (j <? Z.of_nat (length v))) eqn:E; [|done].
  apply andb_true_iff in E as [?%Z.leb_le ?%Z.ltb_lt].
  rewrite list_lookup_insert_ne; [done|lia].
Qed.

Lemma vec_get_set v i j x v' y :
  vec_set v i x = Ret v' → vec_get v' j = Ret y →
  (j = i ∧ y = x) ∨ (j ≠ i ∧ vec_get v j = Ret y).
Proof.
  intros Hs Hg. destruct (decide (i = j)) as [->|Hne].
  - rewrite (vec_get_set_eq _ _ _ _ Hs) in Hg. left. split; congruence.
  - rewrite (vec_get_set_ne _ _ _ _ _ Hs Hne) in Hg. right. split; congruence.
Qed.

Lemma vec_back_not_Throw v e : vec_back v ≠ Throw e.
Proof. unfold vec_back. destruct (list.last v); done. Qed.

End Vectors.

(** ** Unfolding [Insert] and [Rehash] *)

Section Unfolding.

Context {Key T : Type} `{EqDecision Key} `{EqDecision T}.

Local Abbreviation ValueType := (@ValueType Key T).
Local Abbreviation HashMap := (HashMap Key T).

Implicit Types (st : HashMap) (x : ValueType) (pos : Z).
Implicit Types (ins : HashMap → ValueType → Z → outcome (HashMap * Z)).

Lemma Rehash_with_unfold ins st n :
  Rehash_with ins st n =
  match values_ st with
  | [] => Ret (fresh_table (positions_ st) (NextPrime n) (cellar_of (NextPrime n))
                 (hasher_ st))
  | _ :: _ =>
      insert_all ins (elements st)
        (fresh_table [] (NextPrime n) (cellar_of (NextPrime n)) (hasher_ st))
  end.
Proof. reflexivity. Qed.

Lemma rebuild_from_unfold fuel (other : HashMap) :
  rebuild_from fuel other =
  insert_all (Insert fuel) (elements other)
    (fresh_table [] (primary_size_ other) (cellar_size_ other) (hasher_ other)).
Proof. reflexivity. Qed.

Lemma Insert_S fuel st x pos :
  Insert (S fuel) st x pos =
  (r ← rehash_if_loaded (Insert fuel) st x pos;
   let '(st, pos) := r in
   head ← vec_get (data_ st) pos;
   if used head then
     w ← chain_walk fuel (data_ st) pos 0;
     let '(pos, distance) := w in
     last_slot ← vec_get (data_ st) pos;
     if used last_slot then
       f ← free_scan fuel st (start_pos_ st) distance;
       match f with
       | None =>
           st' ← Rehash_with (Insert fuel) st (shl (primary_size_ st) 1);
           pos' ← bucket st' x.1;
           Insert fuel st' x pos'
       | Some next_free =>
           d ← vec_set (data_ st) pos (set_next last_slot next_free);
           store (with_data (with_start_pos st next_free) d) x next_free
       end
     else store st x pos
   else store st x pos).
Proof. reflexivity. Qed.

Lemma Insert_placement fuel st x pos st' pos' :
  Insert (S fuel) st x pos = Ret (st', pos') →
  ∃ st1 pos1,
    rehash_if_loaded (Insert fuel) st x pos = Ret (st1, pos1) ∧
    placement fuel st1 x pos1 st' pos'.
Proof.
  rewrite Insert_S. intros H0. bind_inv H0 as r Hr. destruct r as [st1 pos1].
  exists st1, pos1. split; [done|].
  bind_inv H0 as head Hh. destruct (used head) eqn:Hu; [|by eapply placed_at_head].
  bind_inv H0 as w Hw. destruct w as [last distance].
  bind_inv H0 as last_slot Hl.
  destruct (used last_slot) eqn:Hu'; [|by eapply placed_in_chain].
  bind_inv H0 as f Hf. destruct f as [next_free|].
  - bind_inv H0 as d Hd. by eapply placed_at_tail.
  - bind_inv H0 as st2 Hre. bind_inv H0 as pos2 Hb. by eapply placed_after_rehash.
Qed.

Lemma rehash_if_loaded_inv ins st x pos st1 pos1 :
  rehash_if_loaded ins st x pos = Ret (st1, pos1) →
  (st1 = st ∧ pos1 = pos) ∨
  (Rehash_with ins st (shl (primary_size_ st) 1) = Ret st1 ∧
   bucket st1 x.1 = Ret pos1).
Proof.
  unfold rehash_if_loaded.
  destruct (primary_size_ st <? shl (element_count_ st) 1); intros Hr.
  - right. bind_inv Hr as st' Hre. bind_inv Hr as pos' Hb. by ret_inv Hr.
  - left. by ret_inv Hr.
Qed.

Lemma Insert_inv fuel st x pos st' pos' :
  Insert (S fuel) st x pos = Ret (st', pos') →
  placement fuel st x pos st' pos' ∨
  ∃ st1 pos1,
    Rehash_with (Insert fuel) st (shl (primary_size_ st) 1) = Ret st1 ∧
    bucket st1 x.1 = Ret pos1 ∧
    placement fuel st1 x pos1 st' pos'.
Proof.
  intros (st1 & pos1 & Hr & Hpl)%Insert_placement.
  apply rehash_if_loaded_inv in Hr as [[-> ->]|[Hre Hb]]; eauto 10.
Qed.

Lemma store_inv st x pos st' pos' :
  store st x pos = Ret (st', pos') →
  ∃ s d,
    vec_get (data_ st) pos = Ret s ∧
    vec_set (data_ st) pos
      (mkData (node (new_node (values_ st))) true false (vec_size (positions_ st)) (next s))
      = Ret d ∧
    pos' = pos ∧
    st' = mkHashMap (values_ st ++ [(new_node (values_ st), x)])
            (positions_ st ++ [pos]) d (wrap (element_count_ st + 1))
            (primary_size_ st) (cellar_size_ st) (start_pos_ st) (hasher_ st).
Proof.
  unfold store, push_back. intros H0. bind_inv H0. bind_inv H0. ret_inv H0.
  eauto 10.
Qed.

Lemma insert_all_nil ins st : insert_all ins [] st = Ret st.
Proof. done. Qed.

Lemma insert_all_cons ins x xs st st' :
  insert_all ins (x :: xs) st = Ret st' →
  ∃ pos st1 pos1,
    bucket st x.1 = Ret pos ∧ ins st x pos = Ret (st1, pos1) ∧
    insert_all ins xs st1 = Ret st'.
Proof.
  simpl. intros H0. bind_inv H0. bind_inv H0. destruct r0 as [st1 pos1].
  simpl in H0. eauto 10.
Qed.

Lemma bucket_Ret st key pos :
  bucket st key = Ret pos ↔ primary_size_ st ≠ 0 ∧ pos = home st key.
Proof.
  unfold bucket, home. destruct (Z.eqb_spec (primary_size_ st) 0).
  - split; [done|]. intros [? _]. done.
  - split; [intros [= <-]; done|]. intros [_ ->]. done.
Qed.

(** ** Entries are appended in order *)

Lemma store_elements st x pos st' pos' :
  store st x pos = Ret (st', pos') →
  elements st' = elements st ++ [x] ∧ hasher_ st' = hasher_ st.
Proof.
  intros (s & d & _ & _ & _ & ->)%store_inv. unfold elements. simpl.
  by rewrite fmap_app.
Qed.

Lemma insert_all_elements ins xs st st' :
  appends ins → insert_all ins xs st = Ret st' →
  elements st' = elements st ++ xs ∧ hasher_ st' = hasher_ st.
Proof.
  intros Hins. revert st. induction xs as [|x xs IH]; intros st Hrun.
  - ret_inv Hrun. by rewrite app_nil_r.
  - apply insert_all_cons in Hrun as (pos & st1 & pos1 & _ & H1 & Hrun).
    apply Hins in H1 as [E1 E2]. apply IH in Hrun as [-> ->].
    rewrite E1, E2, <- app_assoc. done.
Qed.

Lemma Rehash_with_elements ins st n st' :
  appends ins → Rehash_with ins st n = Ret st' →
  elements st' = elements st ∧ hasher_ st' = hasher_ st.
Proof.
  intros Hins. rewrite Rehash_with_unfold.
  destruct (values_ st) eqn:E.
  - intros H0. ret_inv H0. unfold elements. by rewrite E.
  - intros H0. apply insert_all_elements in H0 as [-> ->]; done.
Qed.

Lemma placement_elements fuel st x pos st' pos' :
  appends (Insert (Key:=Key) (T:=T) fuel) → placement fuel st x pos st' pos' →
  elements st' = elements st ++ [x] ∧ hasher_ st' = hasher_ st.
Proof.
  intros IH [].
  - by eapply store_elements.
  - by eapply store_elements.
  - match goal with H0 : store _ _ _ = _ |- _ => apply store_elements in H0 as [-> ->] end.
    done.
  - match goal with H0 : Rehash_with _ _ _ = _ |- _ =>
      apply Rehash_with_elements in H0 as [<- <-]; [|done] end.
    by eapply IH.
Qed.

Lemma Insert_appends fuel : appends (Insert (Key:=Key) (T:=T) fuel).
Proof.
  induction fuel as [|fuel IH]; intros st x pos st' pos' H0; [done|].
  apply Insert_inv in H0 as [Hpl|(st1 & pos1 & Hre & _ & Hpl)].
  - by eapply placement_elements.
  - apply Rehash_with_elements in Hre as [<- <-]; [|done].
    by eapply placement_elements.
Qed.

End Unfolding.

(** ** The structural invariant *)

Section Invariant.

Context {Key T : Type} `{EqDecision Key} `{EqDecision T}.

Local Abbreviation ValueType := (@ValueType Key T).
Local Abbreviation HashMap := (HashMap Key T).

Implicit Types (st : HashMap) (x : ValueType) (pos : Z) (d : list Data).
Implicit Types (vs : list (nat * ValueType)).
Implicit Types (ins : HashMap → ValueType → Z → outcome (HashMap * Z)).

(** *** List nodes *)

Lemma node_at_Some vs h x : node_at vs h = Some x → (h, x) ∈ vs.
Proof.
  induction vs as [|[h' y] vs IH]; simpl; [done|].
  destruct (decide (h' = h)) as [->|]; intros Hn.
  - simplify_eq. left.
  - right. auto.
Qed.

Lemma node_at_elem vs h x : NoDup vs.*1 → (h, x) ∈ vs → node_at vs h = Some x.
Proof.
  induction vs as [|[h' y] vs IH]; simpl; intros Hnd Hin.
  - by apply elem_of_nil in Hin.
  - apply list.NoDup_cons in Hnd as [Hh' Hnd].
    destruct (decide (h' = h)) as [->|Hne].
    + apply elem_of_cons in Hin as [?|Hin]; [by simplify_eq|].
      destruct Hh'. apply list_elem_of_fmap. by exists (h, x).
    + apply elem_of_cons in Hin as [?|Hin]; [by simplify_eq|]. auto.
Qed.

Lemma node_at_is_Some vs h : h ∈ vs.*1 → is_Some (node_at vs h).
Proof.
  induction vs as [|[h' y] vs IH]; simpl; intros Hin.
  - by apply elem_of_nil in Hin.
  - destruct (decide (h' = h)); [by eexists|].
    apply elem_of_cons in Hin as [?|?]; [done|auto].
Qed.

Lemma new_node_fresh vs : new_node vs ∉ vs.*1.
Proof. apply max_list_not_elem_of_gt. unfold new_node. lia. Qed.

(** *** Chains *)

Lemma chain_trans d i j k : chain d i j → chain d j k → chain d i k.
Proof. induction 1; [done|]. intros. eapply chain_next; eauto. Qed.

Lemma chain_preserved d d' i j :
  (∀ k s, vec_get d k = Ret s → used s || deleted s = true → next s ≠ NONE →
     ∃ s', vec_get d' k = Ret s' ∧ used s' || deleted s' = true ∧ next s' = next s) →
  chain d i j → chain d' i j.
Proof.
  intros Hd. induction 1 as [|i j s Hs Hlive Hnext _ IH]; [constructor|].
  destruct (Hd _ _ Hs Hlive Hnext) as (s' & Hs' & Hlive' & Hnext').
  eapply chain_next; [done..| |]; rewrite Hnext'; done.
Qed.

Lemma NONE_not_index d i s :
  Z.of_nat (length d) < 2 ^ 64 → vec_get d i = Ret s → i ≠ NONE.
Proof. intros Hlen [Hi _]%vec_get_Ret. unfold NONE. lia. Qed.

Lemma chain_walk_spec fuel d pos distance last distance' :
  (∀ i s, vec_get d i = Ret s → used s = false → deleted s = false → next s = NONE) →
  chain_walk fuel d pos distance = Ret (last, distance') →
  chain d pos last ∧
  ∃ s, vec_get d last = Ret s ∧ (next s = NONE ∨ deleted s = true).
Proof.
  intros Hempty. revert pos distance.
  induction fuel as [|fuel IH]; intros pos distance Hw; [done|].
  simpl in Hw. bind_inv Hw.
  destruct (Z.eqb_spec (next r) NONE) as [Hn|Hn]; simpl in Hw.
  { ret_inv Hw. split; [constructor|eauto]. }
  destruct (deleted r) eqn:Hdel; simpl in Hw.
  { ret_inv Hw. split; [constructor|eauto]. }
  apply IH in Hw as [Hch Hlast]. split; [|done].
  eapply chain_next; [done| |done..].
  destruct (used r) eqn:Hu; [done|]. destruct Hn. eauto.
Qed.

Lemma free_scan_unused fuel st next_free distance p :
  free_scan fuel st next_free distance = Ret (Some p) →
  ∃ s, vec_get (data_ st) p = Ret s ∧ used s = false.
Proof.
  revert next_free distance.
  induction fuel as [|fuel IH]; intros next_free distance Hs; [done|].
  simpl in Hs. bind_inv Hs. destruct (used r) eqn:Hu.
  - destruct (_ && _); [done|]. eauto.
  - ret_inv Hs. eauto.
Qed.

(** *** Consequences of the invariant *)

Lemma wf_positions_NoDup st : wf st → NoDup (positions_ st).
Proof.
  intros Hwf. apply NoDup_alt. intros k k' i Hk Hk'.
  destruct (wf_positions _ Hwf _ _ Hk) as (s & Hs & _ & Hr).
  destruct (wf_positions _ Hwf _ _ Hk') as (s' & Hs' & _ & Hr').
  rewrite Hs in Hs'. simplify_eq. lia.
Qed.

Lemma wf_positions_length st :
  wf st → (length (positions_ st) ≤ length (data_ st))%nat.
Proof.
  intros Hwf.
  rewrite <- (Nat2Z.id (length (data_ st))), <- (length_seqZ 0).
  apply submseteq_length, NoDup_submseteq; [by apply wf_positions_NoDup|].
  intros i [k Hk]%list_elem_of_lookup.
  destruct (wf_positions _ Hwf _ _ Hk) as (s & Hs%vec_get_range & _).
  apply elem_of_seqZ. lia.
Qed.

Lemma wf_vec_size st : wf st → vec_size (positions_ st) = Z.of_nat (length (positions_ st)).
Proof.
  intros Hwf. unfold vec_size, wrap. apply Z.mod_small.
  pose proof (wf_positions_length _ Hwf). pose proof (wf_length _ Hwf). lia.
Qed.

Lemma wf_positions_nil st : wf st → values_ st = [] → positions_ st = [].
Proof.
  intros Hwf Hv. destruct (positions_ st) as [|i ps] eqn:E; [done|].
  destruct (wf_positions _ Hwf 0%nat i) as (s & Hs & Hu & _); [by rewrite E|].
  destruct (wf_used _ Hwf _ _ Hs Hu) as (h & _ & Hh & _).
  rewrite Hv in Hh. by apply elem_of_nil in Hh.
Qed.

Lemma wf_deref st i s :
  wf st → vec_get (data_ st) i = Ret s → used s = true →
  ∃ h x, value s = node h ∧ (h, x) ∈ values_ st ∧
         deref (values_ st) (value s) = Ret x.
Proof.
  intros Hwf Hs Hu. destruct (wf_used _ Hwf _ _ Hs Hu) as (h & Hv & Hh & _).
  destruct (node_at_is_Some _ _ Hh) as [x Hx].
  exists h, x. split; [done|]. split; [by apply node_at_Some|].
  rewrite Hv. simpl. by rewrite Hx.
Qed.

(** *** The empty table *)

Lemma vec_get_replicate {A} n (a b : A) i :
  vec_get (replicate n a) i = Ret b → b = a.
Proof. intros [_ Hl]%vec_get_Ret. by apply lookup_replicate in Hl as [-> _]. Qed.

Lemma fresh_table_wf primary_size cellar_size (hf : Key → Z) :
  wf (fresh_table (T:=T) [] primary_size cellar_size hf).
Proof.
  split; simpl.
  - rewrite length_replicate. unfold wrap.
    pose proof (Z.mod_pos_bound (primary_size + cellar_size) (2 ^ 64)). lia.
  - by intros i s ->%vec_get_replicate.
  - by intros i s ->%vec_get_replicate.
  - constructor.
  - intros h x Hin. by apply elem_of_nil in Hin.
  - by intros i s ->%vec_get_replicate.
  - intros k i Hk. by rewrite lookup_nil in Hk.
  - by intros i j s s' ->%vec_get_replicate.
Qed.

(** *** [store] keeps the invariant *)

Lemma vec_get_app_l {A} (v w : list A) i a :
  vec_get v i = Ret a → vec_get (v ++ w) i = Ret a.
Proof.
  rewrite !vec_get_Ret, length_app. intros [Hi Hl]. split; [lia|].
  by apply lookup_app_l_Some.
Qed.

Lemma vec_get_snoc {A} (v : list A) a :
  vec_get (v ++ [a]) (Z.of_nat (length v)) = Ret a.
Proof.
  apply vec_get_Ret. rewrite length_app, Nat2Z.id. simpl. split; [lia|].
  by apply list_lookup_middle.
Qed.

Lemma store_wf st x pos st' pos' s0 :
  wf st →
  vec_get (data_ st) pos = Ret s0 → used s0 = false →
  chain (data_ st) (home st x.1) pos →
  store st x pos = Ret (st', pos') →
  wf st' ∧ stored_at st' x pos'.
Proof.
  intros Hwf Hs0 Hu0 Hch (s & d & Hs & Hd & -> & ->)%store_inv.
  rewrite Hs0 in Hs. simplify_eq.
  set (hn := new_node (values_ st)) in *.
  set (new := mkData (node hn) true false (vec_size (positions_ st)) (next s)) in *.
  assert (Hnew : vec_get d pos = Ret new) by by eapply vec_get_set_eq.
  assert (Hold : ∀ i s', vec_get d i = Ret s' →
                 (i = pos ∧ s' = new) ∨ (i ≠ pos ∧ vec_get (data_ st) i = Ret s')).
  { intros i s' Hi. eapply vec_get_set in Hi; [|done]. done. }
  assert (Hkeep : ∀ i s', vec_get (data_ st) i = Ret s' → used s' = true →
                  vec_get d i = Ret s').
  { intros i s' Hi Hu. erewrite vec_get_set_ne; [done..|].
    intros <-. rewrite Hs0 in Hi. simplify_eq. congruence. }
  assert (Hchain : ∀ i j, chain (data_ st) i j → chain d i j).
  { intros i j. apply chain_preserved. intros k sk Hk Hlive Hnext.
    destruct (decide (k = pos)) as [->|Hne].
    - rewrite Hs0 in Hk. simplify_eq. by exists new.
    - exists sk. by erewrite vec_get_set_ne. }
  split; [split; simpl|].
  - erewrite vec_set_length; [|done]. by apply wf_length.
  - intros i s' [[-> ->]|[_ Hi]]%Hold Hu; [done|]. by eapply wf_excl.
  - intros i s' [[-> ->]|[_ Hi]]%Hold Hu Hdel; [done|]. by eapply wf_empty.
  - rewrite fmap_app. apply list.NoDup_app. split; [by apply wf_nodes|].
    split; [|apply NoDup_singleton]. simpl.
    intros h Hh ->%list_elem_of_singleton. by apply new_node_fresh in Hh.
  - intros h y [Hin|Hin%list_elem_of_singleton]%elem_of_app.
    + destruct (wf_home _ Hwf _ _ Hin) as (i & s' & Hc & Hi & Hu & Hv).
      exists i, s'. split; [by apply Hchain|]. split; [by apply Hkeep|done].
    + simplify_eq. exists pos, new. split; [by apply Hchain|done].
  - intros i s' [[-> ->]|[_ Hi]]%Hold Hu.
    + exists hn. split; [done|]. split.
      * rewrite fmap_app. apply elem_of_app. right. simpl. left.
      * simpl. rewrite (wf_vec_size _ Hwf). apply vec_get_snoc.
    + destruct (wf_used _ Hwf _ _ Hi Hu) as (h & Hv & Hh & Hp).
      exists h. split; [done|]. split.
      * rewrite fmap_app. apply elem_of_app. by left.
      * by apply vec_get_app_l.
  - intros k i [Hk|[Hlen Hk]]%lookup_app_Some.
    + destruct (wf_positions _ Hwf _ _ Hk) as (s' & Hi & Hu & Hr).
      exists s'. split; [by apply Hkeep|done].
    + apply list_lookup_singleton_Some in Hk as [Hk ->].
      exists new. split; [done|]. split; [done|]. simpl.
      rewrite (wf_vec_size _ Hwf). lia.
  - assert (Hfresh : ∀ i s', vec_get (data_ st) i = Ret s' → used s' = true →
                     value s' ≠ node hn).
    { intros i s' Hi Hu Hv.
      destruct (wf_used _ Hwf _ _ Hi Hu) as (h & Hv' & Hh & _).
      rewrite Hv in Hv'. simplify_eq. by apply new_node_fresh in Hh. }
    intros i j s1 s2 [[-> ->]|[_ Hi]]%Hold [[-> ->]|[_ Hj]]%Hold Hu1 Hu2 Hv;
      [done| | |by eapply (wf_value _ Hwf)].
    + by destruct (Hfresh _ _ Hj Hu2).
    + by destruct (Hfresh _ _ Hi Hu1).
  - exists (values_ st), hn, new. done.
Qed.

(** *** Linking a slot to the end of a chain keeps the invariant *)

Lemma link_wf st last last_slot next_free d :
  wf st →
  vec_get (data_ st) last = Ret last_slot →
  used last_slot = true → next last_slot = NONE →
  vec_set (data_ st) last (set_next last_slot next_free) = Ret d →
  wf (with_data (with_start_pos st next_free) d) ∧
  (∀ i j, chain (data_ st) i j → chain d i j) ∧
  (∀ i s, i ≠ last → vec_get (data_ st) i = Ret s → vec_get d i = Ret s).
Proof.
  intros Hwf Hl Hu Hn Hd.
  set (new := set_next last_slot next_free) in *.
  assert (Hold : ∀ i s', vec_get d i = Ret s' →
            ∃ s, vec_get (data_ st) i = Ret s ∧ used s' = used s ∧
                 deleted s' = deleted s ∧ value s' = value s ∧
                 rev_pos s' = rev_pos s ∧ (used s' = false → next s' = next s)).
  { intros i s' Hi. eapply vec_get_set in Hi as [[-> ->]|[_ Hi]]; [|eauto 10|done].
    exists last_slot. split; [done|]. simpl. rewrite Hu. done. }
  assert (Hnew : ∀ i s, vec_get (data_ st) i = Ret s →
            ∃ s', vec_get d i = Ret s' ∧ used s' = used s ∧
                  deleted s' = deleted s ∧ value s' = value s ∧
                  rev_pos s' = rev_pos s ∧ (next s ≠ NONE → next s' = next s)).
  { intros i s Hi. destruct (decide (i = last)) as [->|Hne].
    - rewrite Hl in Hi. simplify_eq. exists new.
      split; [by eapply vec_get_set_eq|done].
    - exists s. split; [|done]. by erewrite vec_get_set_ne. }
  assert (Hchain : ∀ i j, chain (data_ st) i j → chain d i j).
  { intros i j. apply chain_preserved. intros k sk Hk Hlive Hnext.
    destruct (Hnew _ _ Hk) as (s' & Hk' & E1 & E2 & _ & _ & E3).
    exists s'. rewrite E1, E2. auto. }
  split; [split; simpl|split; [done|]].
  - erewrite vec_set_length; [|done]. by apply wf_length.
  - intros i s' (s & Hi & E1 & E2 & _)%Hold. rewrite E1, E2. by eapply wf_excl.
  - intros i s' (s & Hi & E1 & E2 & _ & _ & E3)%Hold Hu' Hdel'.
    rewrite E3 by done. rewrite E1 in Hu'. rewrite E2 in Hdel'. by eapply wf_empty.
  - by apply wf_nodes.
  - intros h y Hin.
    destruct (wf_home _ Hwf _ _ Hin) as (i & s & Hc & Hi & Hus & Hv).
    destruct (Hnew _ _ Hi) as (s' & Hi' & E1 & _ & E2 & _).
    exists i, s'. rewrite E1, E2. split; [by apply Hchain|done].
  - intros i s' (s & Hi & E1 & _ & E2 & E3 & _)%Hold Hu'.
    rewrite E2, E3. rewrite E1 in Hu'. by eapply wf_used.
  - intros k i Hk. destruct (wf_positions _ Hwf _ _ Hk) as (s & Hi & Hus & Hr).
    destruct (Hnew _ _ Hi) as (s' & Hi' & E1 & _ & _ & E2 & _).
    exists s'. rewrite E1, E2. done.
  - intros i j s1 s2 (t1 & Hi & E1 & _ & F1 & _)%Hold
      (t2 & Hj & E2 & _ & F2 & _)%Hold.
    rewrite E1, E2, F1, F2. by eapply (wf_value _ Hwf).
  - intros i s Hne Hi. by erewrite vec_get_set_ne.
Qed.

(** *** [Insert] and [Rehash] keep the invariant *)

Lemma insert_all_wf ins xs st st' :
  inserts_ok ins → wf st → insert_all ins xs st = Ret st' → wf st'.
Proof.
  intros Hins. revert st. induction xs as [|x xs IH]; intros st Hwf Hrun.
  - by ret_inv Hrun.
  - apply insert_all_cons in Hrun as (pos & st1 & pos1 & Hb & H1 & Hrun).
    eapply IH; [|done]. by eapply Hins.
Qed.

Lemma Rehash_with_wf ins st n st' :
  inserts_ok ins → (values_ st = [] → positions_ st = []) →
  Rehash_with ins st n = Ret st' → wf st'.
Proof.
  intros Hins Hps. rewrite Rehash_with_unfold. destruct (values_ st).
  - rewrite Hps by done. intros Hr. ret_inv Hr. apply fresh_table_wf.
  - apply insert_all_wf; [done|]. apply fresh_table_wf.
Qed.

Lemma placement_wf fuel st x pos st' pos' :
  inserts_ok (Insert (Key:=Key) (T:=T) fuel) → wf st → pos = home st x.1 →
  placement fuel st x pos st' pos' → wf st' ∧ stored_at st' x pos'.
Proof.
  intros IH Hwf -> [head Hh Hu Hst|head last distance last_slot Hh Hu Hw Hl Hul Hst
    |head last distance last_slot next_free d Hh Hu Hw Hl Hul Hf Hd Hst
    |head last distance last_slot st2 pos2 Hh Hu Hw Hl Hul Hf Hre Hb Hin].
  - eapply store_wf; [done..|constructor|done].
  - apply chain_walk_spec in Hw as [Hch _]; [|by apply wf_empty].
    by eapply store_wf.
  - apply chain_walk_spec in Hw as (Hch & s & Hs & Hend); [|by apply wf_empty].
    rewrite Hl in Hs. simplify_eq.
    assert (next s = NONE) as Hnone.
    { destruct Hend as [|Hdel]; [done|].
      rewrite (wf_excl _ Hwf _ _ Hl Hul) in Hdel. done. }
    apply free_scan_unused in Hf as (sf & Hsf & Huf).
    destruct (link_wf _ _ _ _ _ Hwf Hl Hul Hnone Hd) as (Hwf2 & Hchain & Hsame).
    assert (next_free ≠ last) as Hne by (intros ->; congruence).
    eapply store_wf; [done| |done| |done]; simpl.
    + by apply Hsame.
    + eapply chain_trans; [by apply Hchain|].
      change (home (with_data (with_start_pos st next_free) d) x.1)
        with (home st x.1).
      eapply chain_next; [by eapply vec_get_set_eq|by simpl; rewrite Hul| |].
      * simpl. eapply NONE_not_index; [exact (wf_length _ Hwf)|done].
      * simpl. constructor.
  - apply Rehash_with_wf in Hre; [|done|by apply wf_positions_nil].
    by eapply IH.
Qed.

Lemma Insert_ok fuel : inserts_ok (Insert (Key:=Key) (T:=T) fuel).
Proof.
  induction fuel as [|fuel IH]; intros st x pos st' pos' Hwf Hb H0; [done|].
  apply Insert_inv in H0 as [Hpl|(st1 & pos1 & Hre & Hb1 & Hpl)].
  - apply bucket_Ret in Hb as [_ ->]. by eapply placement_wf.
  - apply Rehash_with_wf in Hre; [|done|by apply wf_positions_nil].
    apply bucket_Ret in Hb1 as [_ ->]. by eapply placement_wf.
Qed.

Lemma Rehash_wf fuel st n st' :
  (values_ st = [] → positions_ st = []) → Rehash fuel st n = Ret st' → wf st'.
Proof. apply Rehash_with_wf, Insert_ok. Qed.

Lemma rebuild_from_wf fuel (other st' : HashMap) :
  rebuild_from fuel other = Ret st' → wf st'.
Proof.
  rewrite rebuild_from_unfold. apply insert_all_wf; [apply Insert_ok|].
  apply fresh_table_wf.
Qed.

End Invariant.

(** ** Lookup *)

Section Lookup.

Context {Key T : Type} `{EqDecision Key} `{EqDecision T}.

Local Abbreviation ValueType := (@ValueType Key T).
Local Abbreviation HashMap := (HashMap Key T).

Implicit Types (st : HashMap) (x : ValueType) (pos : Z) (key : Key).

Lemma Find_S fuel st key pos :
  Find (S fuel) st key pos =
  if pos =? NONE then Ret NONE
  else
    s ← vec_get (data_ st) pos;
    if used s then
      x ← deref (values_ st) (value s);
      if decide (x.1 = key) then Ret pos else Find fuel st key (next s)
    else if negb (deleted s) then Ret NONE
    else Find fuel st key (next s).
Proof. reflexivity. Qed.

Lemma deref_Ret (vs : list (nat * ValueType)) it x :
  deref vs it = Ret x ↔ ∃ h, it = node h ∧ node_at vs h = Some x.
Proof.
  destruct it as [h| |]; simpl.
  - destruct (node_at vs h) eqn:E; simpl.
    + split; [intros ?; simplify_eq; eauto|]. intros (h' & ? & ?). congruence.
    + split; [done|]. intros (h' & ? & ?). congruence.
  - split; [done|]. by intros (h' & ? & ?).
  - split; [done|]. by intros (h' & ? & ?).
Qed.

Lemma deref_elem (vs : list (nat * ValueType)) it x :
  deref vs it = Ret x → ∃ h, it = node h ∧ (h, x) ∈ vs.
Proof. intros (h & -> & Hn%node_at_Some)%deref_Ret. eauto. Qed.

(** A position returned by [Find] holds the key. *)
Lemma Find_found fuel st key pos p :
  Find fuel st key pos = Ret p → p ≠ NONE →
  ∃ s x, vec_get (data_ st) p = Ret s ∧ used s = true ∧
         deref (values_ st) (value s) = Ret x ∧ x.1 = key.
Proof.
  revert pos. induction fuel as [|fuel IH]; intros pos Hf Hp; [done|].
  rewrite Find_S in Hf. destruct (Z.eqb_spec pos NONE) as [Heq|Hne].
  { by ret_inv Hf. }
  bind_inv Hf. destruct (used r) eqn:Hu.
  - bind_inv Hf. destruct (decide (r0.1 = key)).
    + ret_inv Hf. eauto 10.
    + eauto.
  - destruct (deleted r); simpl in Hf; [eauto|]. by ret_inv Hf.
Qed.

(** When [Find] returns [NONE], no slot on the walk holds the key. *)
Lemma Find_not_found fuel st key pos i s x :
  Z.of_nat (length (data_ st)) < 2 ^ 64 →
  Find fuel st key pos = Ret NONE →
  chain (data_ st) pos i →
  vec_get (data_ st) i = Ret s → used s = true →
  deref (values_ st) (value s) = Ret x →
  x.1 ≠ key.
Proof.
  intros Hlen. revert pos.
  induction fuel as [|fuel IH]; intros pos Hf Hch Hs Hu Hx; [done|].
  rewrite Find_S in Hf. destruct (Z.eqb_spec pos NONE) as [Heq|Hne].
  { subst pos. exfalso.
    inversion Hch; subst; eapply (NONE_not_index (data_ st) NONE); eauto. }
  bind_inv Hf. destruct (used r) eqn:Hur.
  - bind_inv Hf. destruct (decide (r0.1 = key)) as [Hk|Hk].
    { ret_inv Hf. done. }
    inversion Hch; simplify_eq; [congruence|]. eapply IH; eauto. congruence.
  - destruct (deleted r) eqn:Hdr; simpl in Hf.
    + inversion Hch; simplify_eq; [congruence|]. eapply IH; eauto. congruence.
    + inversion Hch; simplify_eq; [congruence|].
      assert (s0 = r) as -> by congruence. rewrite Hur, Hdr in *. done.
Qed.

Lemma Find_None_absent fuel st key :
  wf st → Find fuel st key (home st key) = Ret NONE →
  key ∉ (elements st).*1.
Proof.
  intros Hwf Hf [x [-> Hx]]%list_elem_of_fmap.
  apply list_elem_of_fmap in Hx as [[h x'] [-> Hin]]. simpl in *.
  destruct (wf_home _ Hwf _ _ Hin) as (i & s & Hch & Hs & Hu & Hv).
  eapply (Find_not_found _ _ _ _ _ _ x'); [by apply wf_length|done..| |done].
  rewrite Hv. simpl. erewrite node_at_elem; [done|by apply wf_nodes|done].
Qed.

Lemma Find_Some_present fuel st key pos p :
  Find fuel st key pos = Ret p → p ≠ NONE → key ∈ (elements st).*1.
Proof.
  intros Hf Hp. destruct (Find_found _ _ _ _ _ Hf Hp) as (s & x & _ & _ & Hx & <-).
  apply deref_elem in Hx as (h & _ & Hin).
  apply list_elem_of_fmap. exists x. split; [done|].
  apply list_elem_of_fmap. by exists (h, x).
Qed.

(** [Find] reaches every slot of a chain unless it meets the key before. *)
Lemma Find_along_chain st key pos i s x :
  wf st →
  chain (data_ st) pos i →
  vec_get (data_ st) i = Ret s → used s = true →
  deref (values_ st) (value s) = Ret x → x.1 = key →
  ∃ fuel p, Find fuel st key pos = Ret p ∧ p ≠ NONE.
Proof.
  intros Hwf Hch Hs Hu Hx Hk.
  induction Hch as [i|i j si Hsi Hlive Hnext _ IH].
  - exists 1%nat, i. rewrite Find_S.
    pose proof (NONE_not_index _ _ _ (wf_length _ Hwf) Hs) as Hi.
    destruct (Z.eqb_spec i NONE); [done|]. rewrite Hs. simpl. rewrite Hu, Hx. simpl.
    by rewrite decide_True.
  - pose proof (NONE_not_index _ _ _ (wf_length _ Hwf) Hsi) as Hi.
    destruct (IH Hs) as (fuel & p & Hf & Hp).
    destruct (used si) eqn:Husi.
    + destruct (wf_deref _ _ _ Hwf Hsi Husi) as (h & y & _ & _ & Hy).
      destruct (decide (y.1 = key)) as [Hyk|Hyk].
      * exists 1%nat, i. rewrite Find_S. destruct (Z.eqb_spec i NONE); [done|].
        rewrite Hsi. simpl. rewrite Husi, Hy. simpl. by rewrite decide_True.
      * exists (S fuel), p. rewrite Find_S. destruct (Z.eqb_spec i NONE); [done|].
        rewrite Hsi. simpl. rewrite Husi, Hy. simpl. by rewrite decide_False.
    + exists (S fuel), p. rewrite Find_S. destruct (Z.eqb_spec i NONE); [done|].
      rewrite Hsi. simpl. rewrite Husi. simpl in Hlive. rewrite Hlive. done.
Qed.

Lemma Find_present_returns st h x :
  wf st → (h, x) ∈ values_ st →
  ∃ fuel p, Find fuel st x.1 (home st x.1) = Ret p ∧ p ≠ NONE.
Proof.
  intros Hwf Hin.
  destruct (wf_home _ Hwf _ _ Hin) as (i & s & Hch & Hs & Hu & Hv).
  eapply Find_along_chain; [done..| |done].
  rewrite Hv. simpl. erewrite node_at_elem; [done|by apply wf_nodes|done].
Qed.

(** More fuel does not change a result. *)
Lemma Find_fuel_mono fuel fuel' st key pos p :
  (fuel ≤ fuel')%nat → Find fuel st key pos = Ret p → Find fuel' st key pos = Ret p.
Proof.
  revert fuel' pos. induction fuel as [|fuel IH]; intros fuel' pos Hle Hf; [done|].
  destruct fuel' as [|fuel']; [lia|]. rewrite Find_S in *.
  destruct (pos =? NONE); [done|].
  destruct (vec_get (data_ st) pos) as [s| | |]; simpl in *; try done.
  destruct (used s).
  - destruct (deref (values_ st) (value s)) as [y| | |]; simpl in *; try done.
    destruct (decide (y.1 = key)); [done|]. apply IH; [lia|done].
  - destruct (deleted s); simpl in *; [|done]. apply IH; [lia|done].
Qed.

End Lookup.

(** ** [clear] and [erase] *)

Section Removal.

Context {Key T : Type} `{EqDecision Key} `{EqDecision T}.

Local Abbreviation ValueType := (@ValueType Key T).
Local Abbreviation HashMap := (HashMap Key T).

Implicit Types (st : HashMap) (x : ValueType) (pos : Z) (key : Key).

Lemma reset_slots_spec ps d d' :
  reset_slots ps d = Ret d' →
  length d' = length d ∧
  ∀ i s', vec_get d' i = Ret s' →
    s' = Data_new ∨ ((i ∉ ps) ∧ vec_get d i = Ret s').
Proof.
  revert d. induction ps as [|p ps IH]; intros d Hr.
  - ret_inv Hr. split; [done|]. intros i s' Hi. right. split; [|done].
    apply not_elem_of_nil.
  - simpl in Hr. bind_inv Hr. apply IH in Hr as [Hlen Hd'].
    split; [by erewrite Hlen, vec_set_length|].
    intros i s' [->|[Hi Hs']]%Hd'; [by left|].
    eapply vec_get_set in Hs' as [[-> ->]|[Hne Hs']]; [by left| |done].
    right. split; [|done]. by apply not_elem_of_cons.
Qed.

Lemma clear_inv st st' :
  clear st = Ret st' →
  ∃ d, reset_slots (positions_ st) (data_ st) = Ret d ∧
       st' = mkHashMap [] [] d 0 (primary_size_ st) (cellar_size_ st)
               (wrap (primary_size_ st + cellar_size_ st - 1)) (hasher_ st).
Proof. unfold clear. intros Hc. bind_inv Hc. ret_inv Hc. eauto. Qed.

Lemma clear_wf st st' : wf st → clear st = Ret st' → wf st'.
Proof.
  intros Hwf (d & [Hlen Hd]%reset_slots_spec & ->)%clear_inv.
  assert (Hunused : ∀ i s, vec_get d i = Ret s → used s = false).
  { intros i s [->|[Hi Hs]]%Hd; [done|].
    destruct (used s) eqn:Hu; [|done]. destruct Hi.
    destruct (wf_used _ Hwf _ _ Hs Hu) as (_ & _ & _ & [_ Hp]%vec_get_Ret).
    apply list_elem_of_lookup. eauto. }
  split; simpl.
  - rewrite Hlen. by apply wf_length.
  - intros i s Hi Hu. apply Hunused in Hi. congruence.
  - intros i s [->|[_ Hs]]%Hd; [done|]. by eapply wf_empty.
  - constructor.
  - intros h x Hin. by apply elem_of_nil in Hin.
  - intros i s Hi Hu. apply Hunused in Hi. congruence.
  - intros k i Hk. by rewrite lookup_nil in Hk.
  - intros i j s s' Hi _ Hu. apply Hunused in Hi. congruence.
Qed.

Lemma clear_elements st st' : clear st = Ret st' → elements st' = [].
Proof. by intros (d & _ & ->)%clear_inv. Qed.

Lemma erase_unfold fuel st key :
  erase fuel st key =
  (h ← bucket st key;
   pos ← Find fuel st key h;
   if negb (pos =? NONE) then erase_at st pos else Ret st).
Proof. reflexivity. Qed.

Lemma set_rev_pos_same s : set_rev_pos s (rev_pos s) = s.
Proof. by destruct s. Qed.

(** What [erase_at] does to a well-formed table. *)
Lemma erase_at_inv st pos s st' :
  wf st → vec_get (data_ st) pos = Ret s → used s = true →
  erase_at st pos = Ret st' →
  ∃ h back b d1 d2,
    value s = node h ∧
    list.last (positions_ st) = Some back ∧
    vec_get (data_ st) back = Ret b ∧
    vec_set (data_ st) back (set_rev_pos b (rev_pos s)) = Ret d1 ∧
    vec_set d1 pos (mkData singular false true (rev_pos s) (next s)) = Ret d2 ∧
    st' = mkHashMap (filter (λ e, e.1 ≠ h) (values_ st))
            (take (pred (length (positions_ st)))
               (<[Z.to_nat (rev_pos s) := back]> (positions_ st)))
            d2 (wrap (element_count_ st - 1))
            (primary_size_ st) (cellar_size_ st) (start_pos_ st) (hasher_ st).
Proof.
  intros Hwf Hs Hu He. unfold erase_at in He.
  bind_inv He as back Hback. bind_inv He as s0 Hs0.
  rewrite Hs in Hs0. simplify_eq.
  bind_inv He as b Hb. bind_inv He as d1 Hd1. bind_inv He as s1 Hs1.
  assert (s1 = s0) as ->.
  { destruct (decide (back = pos)) as [->|Hne].
    - rewrite Hs in Hb. simplify_eq.
      rewrite set_rev_pos_same in Hd1.
      erewrite vec_get_set_eq in Hs1 by done. by simplify_eq.
    - erewrite vec_get_set_ne in Hs1 by done. congruence. }
  bind_inv He as p Hp. bind_inv He as ps1 Hps1. bind_inv He as ps2 Hps2.
  bind_inv He as vs Hvs. bind_inv He as d2 Hd2. ret_inv He.
  destruct (wf_used _ Hwf _ _ Hs Hu) as (h & Hv & Hh & _).
  exists h, back, b, d1, d2.
  unfold vec_back in Hback. destruct (list.last (positions_ st)) eqn:Hlast; [|done].
  simpl in Hback. simplify_eq.
  do 5 (split; [done|]). f_equal.
  - rewrite Hv in Hvs. simpl in Hvs.
    destruct (node_at (values_ st) h); by simplify_eq.
  - apply vec_set_Ret in Hps1 as [_ ->]. apply vec_set_Ret in Hps2 as [_ ->].
    rewrite removelast_firstn_len, !length_insert.
    replace (Z.to_nat (Z.of_nat (length (positions_ st)) - 1))
      with (pred (length (positions_ st))) by lia.
    rewrite take_insert_ge by lia. done.
Qed.

Lemma erase_at_wf st pos s st' :
  wf st → vec_get (data_ st) pos = Ret s → used s = true →
  erase_at st pos = Ret st' →
  wf st' ∧
  ∃ h, value s = node h ∧ values_ st' = filter (λ e, e.1 ≠ h) (values_ st).
Proof.
  intros Hwf Hs Hu He.
  destruct (erase_at_inv _ _ _ _ Hwf Hs Hu He)
    as (h & back & b & d1 & d2 & Hv & Hlast & Hb & Hd1 & Hd2 & ->).
  split; [|by exists h].
  set (n := length (positions_ st)) in *.
  destruct (wf_used _ Hwf _ _ Hs Hu) as (h' & Hv' & Hh & [Hr Hp]%vec_get_Ret).
  rewrite Hv in Hv'. injection Hv' as <-.
  set (r := Z.to_nat (rev_pos s)) in *.
  assert (rev_pos s = Z.of_nat r) as Hrs by lia.
  assert (r < n)%nat as Hrn by lia.
  rewrite last_lookup in Hlast. fold n in Hlast.
  destruct (wf_positions _ Hwf _ _ Hlast) as (b' & Hb' & Hub & Hrb).
  rewrite Hb in Hb'. simplify_eq.
  assert (back = pos ↔ r = pred n) as Hsame.
  { split.
    - intros ->. rewrite Hs in Hb. simplify_eq. lia.
    - intros Hrn'. rewrite Hrn' in Hp. congruence. }
  set (tomb := mkData singular false true (rev_pos s) (next s)) in *.
  assert (Hlen : length d2 = length (data_ st)).
  { by erewrite (vec_set_length d1), vec_set_length. }
  assert (HA : ∀ i s', vec_get d2 i = Ret s' →
            (i = pos ∧ s' = tomb) ∨
            (i ≠ pos ∧ ∃ s0, vec_get (data_ st) i = Ret s0 ∧
               used s' = used s0 ∧ deleted s' = deleted s0 ∧
               value s' = value s0 ∧ next s' = next s0 ∧
               rev_pos s' = if decide (i = back) then rev_pos s else rev_pos s0)).
  { intros i s' Hi. eapply vec_get_set in Hi as [[-> ->]|[Hne Hi]]; [by left| |done].
    right. split; [done|].
    eapply vec_get_set in Hi as [[-> ->]|[Hne' Hi]]; [| |done].
    - exists b'. rewrite decide_True by done. done.
    - exists s'. rewrite decide_False by done. done. }
  assert (HB : ∀ i s0, vec_get (data_ st) i = Ret s0 → i ≠ pos →
            ∃ s', vec_get d2 i = Ret s' ∧
               used s' = used s0 ∧ deleted s' = deleted s0 ∧
               value s' = value s0 ∧ next s' = next s0 ∧
               rev_pos s' = if decide (i = back) then rev_pos s else rev_pos s0).
  { intros i s0 Hi Hne. destruct (decide (i = back)) as [->|Hne'].
    - rewrite Hb in Hi. simplify_eq. exists (set_rev_pos s0 (rev_pos s)).
      split; [|done]. erewrite vec_get_set_ne; [|done..].
      by eapply vec_get_set_eq.
    - exists s0. split; [|done].
      rewrite (vec_get_set_ne _ _ _ _ _ Hd2), (vec_get_set_ne _ _ _ _ _ Hd1);
        done. }
  assert (Hchain : ∀ i j, chain (data_ st) i j → chain d2 i j).
  { intros i j. apply chain_preserved. intros k sk Hk Hlive Hnext.
    destruct (decide (k = pos)) as [->|Hne].
    - rewrite Hs in Hk. simplify_eq. exists tomb.
      split; [by eapply vec_get_set_eq|done].
    - destruct (HB _ _ Hk Hne) as (s' & Hk' & E1 & E2 & _ & E3 & _).
      exists s'. rewrite E1, E2, E3. done. }
  assert (HP : ∀ k i,
            take (pred n) (<[r := back]> (positions_ st)) !! k = Some i ↔
            (k < pred n)%nat ∧
            ((k = r ∧ i = back) ∨ (k ≠ r ∧ positions_ st !! k = Some i))).
  { intros k i. rewrite lookup_take_Some, list_lookup_insert. fold n.
    destruct (decide (r = k ∧ (r < n)%nat)) as [[<- _]|Hne].
    - split.
      + intros [[= <-] ?]. split; [done|]. by left.
      + intros [? [[_ ->]|[? _]]]; done.
    - split.
      + intros [? ?]. split; [done|]. right. split; [|done].
        intros ->. apply Hne. done.
      + intros [? [[-> _]|[_ ?]]]; [|done]. destruct Hne. done. }
  split; simpl.
  - rewrite Hlen. by apply wf_length.
  - intros i s' [[-> ->]|(_ & s0 & Hi & E1 & E2 & _)]%HA Hu'; [done|].
    rewrite E2. rewrite E1 in Hu'. by eapply wf_excl.
  - intros i s' [[-> ->]|(_ & s0 & Hi & E1 & E2 & _ & E3 & _)]%HA Hu' Hdel'; [done|].
    rewrite E3. rewrite E1 in Hu'. rewrite E2 in Hdel'. by eapply wf_empty.
  - eapply sublist_NoDup; [exact (wf_nodes _ Hwf)|].
    apply fmap_sublist, sublist_filter.
  - intros h' y [Hne Hin]%list_elem_of_filter. simpl in Hne.
    destruct (wf_home _ Hwf _ _ Hin) as (i & si & Hc & Hi & Hui & Hvi).
    assert (i ≠ pos) as Hip.
    { intros ->. rewrite Hs in Hi. simplify_eq. congruence. }
    destruct (HB _ _ Hi Hip) as (s' & Hi' & E1 & _ & E2 & _).
    exists i, s'. rewrite E1, E2. split; [by apply Hchain|done].
  - intros i s' [[-> ->]|(Hip & s0 & Hi & E1 & _ & E2 & _ & E3)]%HA Hu'; [done|].
    rewrite E1 in Hu'.
    destruct (wf_used _ Hwf _ _ Hi Hu') as (h0 & Hv0 & Hh0 & [Hr0 Hp0]%vec_get_Ret).
    assert (h0 ≠ h) as Hh0h.
    { intros ->. destruct Hip. eapply (wf_value _ Hwf); [done..|congruence]. }
    exists h0. split; [congruence|]. split.
    { apply list_elem_of_fmap in Hh0 as [[h1 y] [-> Hin]]. simpl in *.
      apply list_elem_of_fmap. exists (h1, y). split; [done|].
      by apply list_elem_of_filter. }
    rewrite E3. apply vec_get_Ret. rewrite length_take, length_insert. fold n.
    destruct (decide (i = back)) as [->|Hib].
    + assert (r ≠ pred n) by (intros ?; apply Hip, Hsame; done).
      split; [lia|]. apply HP. split; [lia|]. by left.
    + assert (Z.to_nat (rev_pos s0) ≠ r) by (intros E; rewrite E in Hp0; congruence).
      assert (Z.to_nat (rev_pos s0) ≠ pred n)
        by (intros E; rewrite E in Hp0; congruence).
      split; [lia|]. apply HP. split; [lia|]. by right.
  - intros k i [Hk [[-> ->]|[Hkr Hki]]]%HP.
    + assert (back ≠ pos) as Hbp by (intros ?%Hsame; lia).
      destruct (HB _ _ Hb Hbp) as (s' & Hi' & E1 & _ & _ & _ & E3).
      exists s'. rewrite decide_True in E3 by done.
      rewrite E1, E3. split; [done|]. split; [done|lia].
    + destruct (wf_positions _ Hwf _ _ Hki) as (s0 & Hi & Hu0 & Hr0).
      assert (i ≠ pos) as Hip.
      { intros ->. rewrite Hs in Hi. simplify_eq. lia. }
      assert (i ≠ back) as Hib.
      { intros ->. rewrite Hb in Hi. simplify_eq. lia. }
      destruct (HB _ _ Hi Hip) as (s' & Hi' & E1 & _ & _ & _ & E3).
      rewrite decide_False in E3 by done.
      exists s'. rewrite E1, E3. done.
  - intros i j s1 s2 [[-> ->]|(_ & t1 & Hi & E1 & _ & F1 & _)]%HA
      [[-> ->]|(_ & t2 & Hj & E2 & _ & F2 & _)]%HA; try done.
    rewrite E1, E2, F1, F2. by eapply (wf_value _ Hwf).
Qed.

End Removal.

(** ** The public member functions *)

Section Members.

Context {Key T : Type} `{EqDecision Key} `{EqDecision T}.

Variable T_new : T.

Local Abbreviation ValueType := (@ValueType Key T).
Local Abbreviation HashMap := (HashMap Key T).

Implicit Types (st : HashMap) (x : ValueType) (pos : Z) (key : Key).
Implicit Types (m : list ValueType).

(** *** The reference map *)

Lemma filter_all {A} (P : A → Prop) `{∀ a, Decision (P a)} (l : list A) :
  (∀ a, a ∈ l → P a) → filter P l = l.
Proof.
  induction l as [|a l IH]; intros Hall; [done|].
  rewrite filter_cons_True by (apply Hall; left).
  f_equal. apply IH. intros b Hb. apply Hall. by right.
Qed.

Lemma ref_erase_absent m key : key ∉ m.*1 → ref_erase m key = m.
Proof.
  intros Hk. apply filter_all. intros y Hy E. apply Hk.
  apply list_elem_of_fmap. by exists y.
Qed.

Lemma ref_insert_NoDup m x : NoDup m.*1 → NoDup (ref_insert m x).*1.
Proof.
  intros Hnd. unfold ref_insert. destruct (decide (x.1 ∈ m.*1)); [done|].
  rewrite fmap_app. apply list.NoDup_app. split; [done|].
  split; [|apply NoDup_singleton].
  intros k Hk ->%list_elem_of_singleton. done.
Qed.

Lemma ref_erase_NoDup m key : NoDup m.*1 → NoDup (ref_erase m key).*1.
Proof.
  intros Hnd. eapply sublist_NoDup; [done|]. apply fmap_sublist, sublist_filter.
Qed.

Lemma filter_node_key (vs : list (nat * ValueType)) h x :
  NoDup vs.*1 → NoDup vs.*2.*1 → (h, x) ∈ vs →
  (filter (λ e, e.1 ≠ h) vs).*2 = ref_erase vs.*2 x.1.
Proof.
  unfold ref_erase.
  induction vs as [|[h' y] vs IH]; intros Hh Hk Hin; [by apply elem_of_nil in Hin|].
  csimpl in Hh. csimpl in Hk.
  apply list.NoDup_cons in Hh as [Hh' Hh]. apply list.NoDup_cons in Hk as [Hy Hk].
  apply elem_of_cons in Hin as [[= <- <-]|Hin].
  - rewrite filter_cons_False by (simpl; intros Hne; by apply Hne).
    rewrite fmap_cons. simpl.
    rewrite filter_cons_False by (intros Hne; by apply Hne).
    rewrite !filter_all; [done| |].
    + intros z Hz E. apply Hy. apply list_elem_of_fmap. by exists z.
    + intros [h0 z] Hz. simpl. intros ->. apply Hh'.
      apply list_elem_of_fmap. by exists (h, z).
  - assert (h' ≠ h).
    { intros ->. apply Hh'. apply list_elem_of_fmap. by exists (h, x). }
    assert (y.1 ≠ x.1).
    { intros E. apply Hy. rewrite E. apply list_elem_of_fmap. exists x.
      split; [done|]. apply list_elem_of_fmap. by exists (h, x). }
    rewrite filter_cons_True by done. rewrite !fmap_cons. simpl.
    rewrite filter_cons_True by done. f_equal. by apply IH.
Qed.

(** *** [insert] *)

Lemma insert_inv fuel st x st' :
  insert fuel st x = Ret st' →
  primary_size_ st ≠ 0 ∧
  ∃ p, Find fuel st x.1 (home st x.1) = Ret p ∧
    ((p = NONE ∧ ∃ pos', Insert fuel st x (home st x.1) = Ret (st', pos')) ∨
     (p ≠ NONE ∧ st' = st)).
Proof.
  unfold insert. intros Hi. bind_inv Hi as b Hb. apply bucket_Ret in Hb as [HP ->].
  split; [done|]. bind_inv Hi as p Hp. exists p. split; [done|].
  destruct (Z.eqb_spec p NONE) as [Heq|Hne].
  - left. split; [done|]. bind_inv Hi as r Hr. ret_inv Hi. destruct r as [st' pos'].
    eauto.
  - right. by ret_inv Hi.
Qed.

Lemma insert_wf fuel st x st' : wf st → insert fuel st x = Ret st' → wf st'.
Proof.
  intros Hwf (HP & p & Hf & [(-> & pos' & Hi)|[_ ->]])%insert_inv; [|done].
  eapply Insert_ok in Hi as [? _]; [done..|]. by apply bucket_Ret.
Qed.

Lemma insert_elements fuel st x st' :
  wf st → insert fuel st x = Ret st' →
  elements st' = ref_insert (elements st) x.
Proof.
  intros Hwf (HP & p & Hf & [(-> & pos' & Hi)|[Hp ->]])%insert_inv.
  - apply Find_None_absent in Hf; [|done].
    apply Insert_appends in Hi as [-> _]. unfold ref_insert.
    by rewrite decide_False.
  - eapply Find_Some_present in Hf; [|done]. unfold ref_insert.
    by rewrite decide_True.
Qed.

(** *** [erase] *)

Lemma erase_inv fuel st key st' :
  erase fuel st key = Ret st' →
  primary_size_ st ≠ 0 ∧
  ∃ p, Find fuel st key (home st key) = Ret p ∧
    ((p = NONE ∧ st' = st) ∨ (p ≠ NONE ∧ erase_at st p = Ret st')).
Proof.
  rewrite erase_unfold. intros He. bind_inv He as b Hb.
  apply bucket_Ret in Hb as [HP ->]. split; [done|].
  bind_inv He as p Hp. exists p. split; [done|].
  destruct (Z.eqb_spec p NONE) as [Heq|Hne]; simpl in He.
  - left. by ret_inv He.
  - by right.
Qed.

Lemma erase_wf fuel st key st' : wf st → erase fuel st key = Ret st' → wf st'.
Proof.
  intros Hwf (HP & p & Hf & [[_ ->]|[Hp He]])%erase_inv; [done|].
  destruct (Find_found _ _ _ _ _ Hf Hp) as (s & x & Hs & Hu & _).
  by eapply erase_at_wf.
Qed.

Lemma erase_elements fuel st key st' :
  wf st → NoDup (elements st).*1 → erase fuel st key = Ret st' →
  elements st' = ref_erase (elements st) key.
Proof.
  intros Hwf Hnd (HP & p & Hf & [[-> ->]|[Hp He]])%erase_inv.
  - apply Find_None_absent in Hf; [|done]. by rewrite ref_erase_absent.
  - destruct (Find_found _ _ _ _ _ Hf Hp) as (s & x & Hs & Hu & Hx & <-).
    destruct (erase_at_wf _ _ _ _ Hwf Hs Hu He) as (_ & h & Hv & Hvs).
    unfold elements. rewrite Hvs. apply filter_node_key; [by apply wf_nodes|done|].
    apply deref_elem in Hx as (h' & Hv' & Hin). congruence.
Qed.

(** *** [find] and [at] *)

Lemma find_inv fuel st key it :
  find fuel st key = Ret it →
  primary_size_ st ≠ 0 ∧
  ∃ p, Find fuel st key (home st key) = Ret p ∧
    ((p = NONE ∧ it = list_end) ∨
     (p ≠ NONE ∧ ∃ s, vec_get (data_ st) p = Ret s ∧ it = value s)).
Proof.
  unfold find. intros Hf. bind_inv Hf as b Hb. apply bucket_Ret in Hb as [HP ->].
  split; [done|]. bind_inv Hf as p Hp. exists p. split; [done|].
  destruct (Z.eqb_spec p NONE) as [Heq|Hne].
  - left. by ret_inv Hf.
  - right. split; [done|]. bind_inv Hf as s Hs. ret_inv Hf. eauto.
Qed.

(** [find] agrees with the reference on every well-formed table. *)
Lemma find_correct fuel st key it :
  wf st → NoDup (elements st).*1 → find fuel st key = Ret it →
  match ref_find (elements st) key with
  | None => it = list_end
  | Some v => ∃ h, it = node h ∧ deref (values_ st) it = Ret (key, v)
  end.
Proof.
  intros Hwf Hnd (HP & p & Hf & [[-> ->]|(Hp & s & Hs & ->)])%find_inv.
  - apply Find_None_absent in Hf; [|done].
    assert (∀ m, key ∉ m.*1 → ref_find m key = None) as Hnone.
    { induction m as [|y m IH]; intros Hk; [done|]. simpl.
      rewrite fmap_cons in Hk. apply not_elem_of_cons in Hk as [? ?].
      rewrite decide_False by done. auto. }
    by rewrite Hnone.
  - destruct (Find_found _ _ _ _ _ Hf Hp) as (s' & x & Hs' & Hu & Hx & <-).
    rewrite Hs in Hs'. simplify_eq.
    destruct (deref_elem _ _ _ Hx) as (h & Hv & Hin).
    assert (∀ m, NoDup m.*1 → x ∈ m → ref_find m x.1 = Some x.2) as Hsome.
    { induction m as [|y m IH]; intros Hk Hm; [by apply elem_of_nil in Hm|].
      simpl. rewrite fmap_cons in Hk. apply list.NoDup_cons in Hk as [Hy Hk].
      apply elem_of_cons in Hm as [->|Hm]; [by rewrite decide_True|].
      rewrite decide_False; [auto|]. intros E. apply Hy. rewrite E.
      apply list_elem_of_fmap. by exists x. }
    rewrite Hsome; [|done|].
    + exists h. split; [done|]. by destruct x.
    + apply list_elem_of_fmap. by exists (h, x).
Qed.

(** *** [operator[]] *)

Lemma subscript_inv fuel st key st' it v :
  subscript T_new fuel st key = Ret (st', it, v) →
  primary_size_ st ≠ 0 ∧
  ∃ p, Find fuel st key (home st key) = Ret p ∧
    ((p ≠ NONE ∧ st' = st ∧
      ∃ s x, vec_get (data_ st) p = Ret s ∧ it = value s ∧
             deref (values_ st) it = Ret x ∧ v = x.2) ∨
     (p = NONE ∧
      ∃ pos' s x, Insert fuel st (key, T_new) (home st key) = Ret (st', pos') ∧
             vec_get (data_ st') pos' = Ret s ∧ it = value s ∧
             deref (values_ st') it = Ret x ∧ v = x.2)).
Proof.
  unfold subscript. intros Hi. bind_inv Hi as b Hb.
  apply bucket_Ret in Hb as [HP ->].
  split; [done|]. bind_inv Hi as p Hp. exists p. split; [done|].
  destruct (Z.eqb_spec p NONE) as [Heq|Hne]; simpl in Hi.
  - right. split; [done|]. bind_inv Hi as r Hr. destruct r as [st1 pos1].
    simpl in Hi. bind_inv Hi as s Hs. bind_inv Hi as y Hy. ret_inv Hi. eauto 10.
  - left. split; [done|]. bind_inv Hi as s Hs. bind_inv Hi as y Hy. ret_inv Hi.
    eauto 10.
Qed.

Lemma subscript_wf fuel st key st' it v :
  wf st → subscript T_new fuel st key = Ret (st', it, v) → wf st'.
Proof.
  intros Hwf (HP & p & Hf & [(_ & -> & _)|(-> & pos' & s & x & Hi & _)])%subscript_inv;
    [done|].
  eapply Insert_ok in Hi as [? _]; [done..|]. by apply bucket_Ret.
Qed.

Lemma subscript_elements fuel st key st' it v :
  wf st → subscript T_new fuel st key = Ret (st', it, v) →
  elements st' = ref_insert (elements st) (key, T_new).
Proof.
  intros Hwf (HP & p & Hf & [(Hp & -> & _)|(-> & pos' & s & x & Hi & _)])%subscript_inv.
  - eapply Find_Some_present in Hf; [|done]. unfold ref_insert.
    by rewrite decide_True.
  - apply Find_None_absent in Hf; [|done].
    apply Insert_appends in Hi as [-> _]. unfold ref_insert.
    by rewrite decide_False.
Qed.

End Members.

(** ** Reachable objects *)

Section Reachable.

Context {Key T : Type} `{EqDecision Key} `{EqDecision T}.

Variable T_new : T.

Local Abbreviation ValueType := (@ValueType Key T).
Local Abbreviation HashMap := (HashMap Key T).

Implicit Types (st : HashMap) (x : ValueType) (pos : Z) (key : Key).

Lemma HashMap_new_eq fuel (hf : Key → Z) :
  HashMap_new (T:=T) fuel hf = Ret (fresh_table [] 3 1 hf).
Proof. reflexivity. Qed.

Lemma HashMap_range_wf fuel xs (hf : Key → Z) st :
  HashMap_range fuel xs hf = Ret st → wf st.
Proof.
  unfold HashMap_range. rewrite HashMap_new_eq. simpl. by apply Rehash_wf.
Qed.

Lemma HashMap_init_list_wf fuel xs (hf : Key → Z) st :
  HashMap_init_list fuel xs hf = Ret st → wf st.
Proof.
  unfold HashMap_init_list. rewrite HashMap_new_eq. simpl. by apply Rehash_wf.
Qed.

Lemma reachable_wf st : reachable T_new st → wf st.
Proof.
  induction 1 as [fuel hf st Hn|fuel xs hf st Hn|fuel xs hf st Hn
    |fuel other st _ _ Hc|fuel this other st _ IH1 _ _ Ha
    |st st' _ IH Hc|fuel st x st' _ IH Hi|fuel st key st' _ IH He
    |fuel st key st' it v _ IH Hs].
  - rewrite HashMap_new_eq in Hn. ret_inv Hn. apply fresh_table_wf.
  - by eapply HashMap_range_wf.
  - by eapply HashMap_init_list_wf.
  - by eapply rebuild_from_wf.
  - unfold assign in Ha. destruct (decide _); [|by ret_inv Ha].
    by eapply rebuild_from_wf.
  - by eapply clear_wf.
  - by eapply insert_wf.
  - by eapply erase_wf.
  - by eapply subscript_wf.
Qed.

(** *** Sequences of calls against the reference *)

Lemma step_refines fuel st o st' :
  wf st → NoDup (elements st).*1 → step T_new fuel st o = Ret st' →
  wf st' ∧ elements st' = ref_step T_new (elements st) o.
Proof.
  intros Hwf Hnd Hs. destruct o as [x|key|key|key|]; simpl in *.
  - split; [by eapply insert_wf|by eapply insert_elements].
  - split; [by eapply erase_wf|by eapply erase_elements].
  - bind_inv Hs. by ret_inv Hs.
  - bind_inv Hs. ret_inv Hs. destruct r as [[st' it] v]. simpl.
    split; [by eapply subscript_wf|by eapply subscript_elements].
  - split; [by eapply clear_wf|by eapply clear_elements].
Qed.

Lemma ref_step_NoDup (m : list ValueType) o :
  NoDup m.*1 → NoDup (ref_step T_new m o).*1.
Proof.
  intros Hnd. destruct o; simpl;
    [by apply ref_insert_NoDup|by apply ref_erase_NoDup|done
    |by apply ref_insert_NoDup|constructor].
Qed.

Lemma run_refines fuel ops st st' :
  wf st → NoDup (elements st).*1 → run T_new fuel ops st = Ret st' →
  wf st' ∧ NoDup (elements st').*1 ∧
  elements st' = foldl (ref_step T_new) (elements st) ops.
Proof.
  revert st. induction ops as [|o ops IH]; intros st Hwf Hnd Hr; simpl in *.
  - by ret_inv Hr.
  - bind_inv Hr. destruct (step_refines _ _ _ _ Hwf Hnd Hr0) as [Hwf' E].
    apply IH in Hr; [|done|]; rewrite E in *; [done|].
    by apply ref_step_NoDup.
Qed.

Lemma run_from_new fuel (hf : Key → Z) ops st :
  (st0 ← HashMap_new fuel hf; run T_new fuel ops st0) = Ret st →
  wf st ∧ NoDup (elements st).*1 ∧ elements st = ref_run T_new ops.
Proof.
  rewrite HashMap_new_eq. simpl. intros Hr.
  apply run_refines in Hr; [done|apply fresh_table_wf|constructor].
Qed.

Lemma run_reachable fuel ops st st' :
  reachable T_new st → run T_new fuel ops st = Ret st' → reachable T_new st'.
Proof.
  intros Hre. revert st Hre. induction ops as [|o ops IH]; intros st Hre Hr; simpl in *.
  - by ret_inv Hr.
  - bind_inv Hr. eapply IH; [|done]. destruct o as [x|key|key|key|]; simpl in *.
    + by eapply reachable_insert.
    + by eapply reachable_erase.
    + bind_inv Hr0. by ret_inv Hr0.
    + bind_inv Hr0. ret_inv Hr0. destruct r0 as [[st1 it] v].
      by eapply reachable_subscript.
    + by eapply reachable_clear.
Qed.

(** *** Traversal *)

Lemma successor_middle (pre suf : list (nat * ValueType)) h x :
  NoDup (pre ++ (h, x) :: suf).*1 →
  successor (pre ++ (h, x) :: suf) (node h) = Ret (first_node suf).
Proof.
  induction pre as [|[h0 y] pre IH]; simpl; intros Hnd.
  - rewrite decide_True by done. by destruct suf as [|[??]?].
  - apply list.NoDup_cons in Hnd as [Hh0 Hnd].
    rewrite decide_False; [by apply IH|].
    intros [= ->]. apply Hh0. rewrite fmap_app, fmap_cons. simpl.
    apply elem_of_app. right. left.
Qed.

Lemma traverse_S fuel st it :
  traverse (S fuel) st it =
  if decide (it = end_ st) then Ret []
  else
    x ← deref (values_ st) it;
    it' ← successor (values_ st) it;
    xs ← traverse fuel st it';
    Ret (x :: xs).
Proof. reflexivity. Qed.

Lemma traverse_suffix st (pre suf : list (nat * ValueType)) :
  NoDup (values_ st).*1 → values_ st = pre ++ suf →
  traverse (S (length suf)) st (first_node suf) = Ret suf.*2.
Proof.
  intros Hnd. revert pre. induction suf as [|[h x] suf IH]; intros pre Hv.
  - done.
  - assert (deref (values_ st) (node h) = Ret x) as Hd.
    { simpl. erewrite node_at_elem; [done..|].
      rewrite Hv. apply elem_of_app. right. left. }
    assert (successor (values_ st) (node h) = Ret (first_node suf)) as Hs.
    { rewrite Hv. apply successor_middle. by rewrite <- Hv. }
    rewrite traverse_S. change (first_node ((h, x) :: suf)) with (node h).
    rewrite decide_False by done. rewrite Hd, Hs, !Ret_bind.
    change (length ((h, x) :: suf)) with (S (length suf)).
    rewrite (IH (pre ++ [(h, x)])); [done|].
    by rewrite <- app_assoc.
Qed.

Lemma traverse_elements st :
  wf st → traverse (S (length (values_ st))) st (begin st) = Ret (elements st).
Proof.
  intros Hwf. apply (traverse_suffix st []); [by apply wf_nodes|done].
Qed.

End Reachable.

(** ** Table sizes *)

Section Sizes.

Context {Key T : Type} `{EqDecision Key} `{EqDecision T}.

Variable T_new : T.

Local Abbreviation ValueType := (@ValueType Key T).
Local Abbreviation HashMap := (HashMap Key T).

Implicit Types (st : HashMap) (x : ValueType) (pos : Z) (key : Key).
Implicit Types (ins : HashMap → ValueType → Z → outcome (HashMap * Z)).

Lemma tabulatedb_spec p : tabulatedb p = true → tabulated p ∧ 3 ≤ p.
Proof.
  unfold tabulatedb, tabulated. rewrite andb_true_iff, Z.leb_le, existsb_exists.
  intros [(q & Hq & ->%Z.eqb_eq) Hp]. rewrite list_elem_of_In.
  split; [split|]; [done|lia..].
Qed.

Lemma NextPrime_tabulatedb n : tabulatedb (NextPrime n) = true.
Proof.
  unfold NextPrime.
  destruct (List.find _ _) as [p|] eqn:E.
  - apply List.find_some in E as [Hin _].
    assert (forallb tabulatedb (removelast (tail PRIMES)) = true) as Hall
      by (vm_compute; reflexivity).
    rewrite forallb_forall in Hall. by apply Hall.
  - vm_compute. reflexivity.
Qed.

Lemma NextPrime_tabulated n : tabulated (NextPrime n).
Proof. apply tabulatedb_spec, NextPrime_tabulatedb. Qed.

Lemma NextPrime_ge_3 n : 3 ≤ NextPrime n.
Proof. apply tabulatedb_spec, NextPrime_tabulatedb. Qed.

Lemma store_primary st x pos st' pos' :
  store st x pos = Ret (st', pos') → primary_size_ st' = primary_size_ st.
Proof. by intros (s & d & _ & _ & _ & ->)%store_inv. Qed.

Lemma insert_all_tabulated ins xs st st' :
  keeps_tabulated ins → insert_all ins xs st = Ret st' →
  tabulated (primary_size_ st) → tabulated (primary_size_ st').
Proof.
  intros Hins. revert st. induction xs as [|x xs IH]; intros st Hrun Ht.
  - by ret_inv Hrun.
  - apply insert_all_cons in Hrun as (pos & st1 & pos1 & _ & H1 & Hrun).
    eapply IH; [done|]. by eapply Hins.
Qed.

Lemma Rehash_with_tabulated ins st n st' :
  keeps_tabulated ins → Rehash_with ins st n = Ret st' →
  tabulated (primary_size_ st').
Proof.
  intros Hins. rewrite Rehash_with_unfold. destruct (values_ st).
  - intros Hr. ret_inv Hr. apply NextPrime_tabulated.
  - intros Hr. eapply insert_all_tabulated; [done..|]. apply NextPrime_tabulated.
Qed.

Lemma placement_tabulated fuel st x pos st' pos' :
  keeps_tabulated (Insert (Key:=Key) (T:=T) fuel) → placement fuel st x pos st' pos' →
  tabulated (primary_size_ st) → tabulated (primary_size_ st').
Proof.
  intros IH [head Hh Hu Hst|head last distance last_slot Hh Hu Hw Hl Hul Hst
    |head last distance last_slot next_free d Hh Hu Hw Hl Hul Hf Hd Hst
    |head last distance last_slot st2 pos2 Hh Hu Hw Hl Hul Hf Hre Hb Hin] Ht.
  - by rewrite (store_primary _ _ _ _ _ Hst).
  - by rewrite (store_primary _ _ _ _ _ Hst).
  - by rewrite (store_primary _ _ _ _ _ Hst).
  - eapply IH; [done|]. by eapply Rehash_with_tabulated.
Qed.

Lemma Insert_tabulated fuel : keeps_tabulated (Insert (Key:=Key) (T:=T) fuel).
Proof.
  induction fuel as [|fuel IH]; intros st x pos st' pos' H0 Ht; [done|].
  apply Insert_inv in H0 as [Hpl|(st1 & pos1 & Hre & _ & Hpl)].
  - by eapply placement_tabulated.
  - eapply placement_tabulated; [done..|]. by eapply Rehash_with_tabulated.
Qed.

Lemma rebuild_from_tabulated fuel (other st' : HashMap) :
  rebuild_from fuel other = Ret st' →
  tabulated (primary_size_ other) → tabulated (primary_size_ st').
Proof.
  rewrite rebuild_from_unfold. intros Hr Ht.
  eapply insert_all_tabulated; [apply Insert_tabulated|done..].
Qed.

Lemma reachable_tabulated st : reachable T_new st → tabulated (primary_size_ st).
Proof.
  induction 1 as [fuel hf st Hn|fuel xs hf st Hn|fuel xs hf st Hn
    |fuel other st _ IH Hc|fuel this other st _ IH1 _ IH2 Ha
    |st st' _ IH Hc|fuel st x st' _ IH Hi|fuel st key st' _ IH He
    |fuel st key st' it v _ IH Hs].
  - eapply Rehash_with_tabulated; [apply Insert_tabulated|done].
  - unfold HashMap_range in Hn. bind_inv Hn as st0 H0.
    eapply Rehash_with_tabulated; [apply Insert_tabulated|done].
  - unfold HashMap_init_list in Hn. bind_inv Hn as st0 H0.
    eapply Rehash_with_tabulated; [apply Insert_tabulated|done].
  - by eapply rebuild_from_tabulated.
  - unfold assign in Ha. destruct (decide _); [|by ret_inv Ha].
    by eapply rebuild_from_tabulated.
  - apply clear_inv in Hc as (d & _ & ->). done.
  - apply insert_inv in Hi as (_ & p & _ & [(_ & pos' & Hi)|[_ ->]]); [|done].
    by eapply Insert_tabulated.
  - apply erase_inv in He as (_ & p & Hf & [[_ ->]|[Hp He]]); [done|].
    unfold erase_at in He. repeat bind_inv He. by ret_inv He.
  - apply subscript_inv in Hs
      as (_ & p & _ & [(_ & -> & _)|(_ & pos' & s & y & Hi & _)]); [done|].
    by eapply Insert_tabulated.
Qed.

End Sizes.

(** ** Exceptions *)

Lemma no_throw_Ret {A} (a : A) : no_throw (Ret a).
Proof. done. Qed.

Lemma no_throw_Undefined {A} : no_throw (@Undefined A).
Proof. done. Qed.

Lemma no_throw_OutOfFuel {A} : no_throw (@OutOfFuel A).
Proof. done. Qed.

Lemma no_throw_bind {A B} (m : outcome A) (f : A → outcome B) :
  no_throw m → (∀ a, no_throw (f a)) → no_throw (m ≫= f).
Proof.
  intros Hm Hf e [He|(a & _ & He)]%bind_Throw; [by apply Hm in He|].
  by apply Hf in He.
Qed.

Lemma no_throw_vec_get {A} (v : list A) i : no_throw (vec_get v i).
Proof. intros e. apply vec_get_not_Throw. Qed.

Lemma no_throw_vec_set {A} (v : list A) i a : no_throw (vec_set v i a).
Proof. intros e. apply vec_set_not_Throw. Qed.

Lemma no_throw_vec_back {A} (v : list A) : no_throw (vec_back v).
Proof. intros e. apply vec_back_not_Throw. Qed.

#[export] Hint Resolve no_throw_Ret no_throw_Undefined no_throw_OutOfFuel
  no_throw_vec_get no_throw_vec_set no_throw_vec_back : no_throw.

(** Decompose a goal [no_throw m] along the structure of [m]. *)
Ltac no_throw_step :=
  match goal with
  | |- no_throw (_ ≫= _) => apply no_throw_bind; [|intros ?]
  | |- no_throw (if ?b then _ else _) => destruct b
  | |- no_throw (match ?a with _ => _ end) => destruct a
  | |- no_throw _ => solve [auto with no_throw]
  end.

Ltac no_throw := repeat no_throw_step.

Section NoThrow.

Context {Key T : Type} `{EqDecision Key} `{EqDecision T}.

Variable T_new : T.

Local Abbreviation ValueType := (@ValueType Key T).
Local Abbreviation HashMap := (HashMap Key T).

Implicit Types (st : HashMap) (x : ValueType) (pos : Z) (key : Key).
Implicit Types (ins : HashMap → ValueType → Z → outcome (HashMap * Z)).

Lemma no_throw_deref (vs : list (nat * ValueType)) it : no_throw (deref vs it).
Proof. unfold deref. destruct it; [|done..]. by destruct (node_at vs h). Qed.

Lemma no_throw_list_erase (vs : list (nat * ValueType)) it :
  no_throw (list_erase vs it).
Proof. unfold list_erase. destruct it; [|done..]. by destruct (node_at vs h). Qed.

Lemma no_throw_bucket st key : no_throw (bucket st key).
Proof. unfold bucket. no_throw. Qed.

Hint Resolve no_throw_deref no_throw_list_erase no_throw_bucket : no_throw.

Lemma no_throw_Find fuel st key pos : no_throw (Find fuel st key pos).
Proof.
  revert pos. induction fuel as [|fuel IH]; intros pos; [done|].
  rewrite Find_S. no_throw.
Qed.

Lemma no_throw_chain_walk fuel d pos distance :
  no_throw (chain_walk fuel d pos distance).
Proof.
  revert pos distance. induction fuel as [|fuel IH]; intros pos distance; [done|].
  simpl. no_throw.
Qed.

Lemma no_throw_free_scan fuel st next_free distance :
  no_throw (free_scan fuel st next_free distance).
Proof.
  revert next_free distance.
  induction fuel as [|fuel IH]; intros next_free distance; [done|].
  simpl. no_throw.
Qed.

Lemma no_throw_store st x pos : no_throw (store st x pos).
Proof. unfold store, push_back. no_throw. Qed.

Hint Resolve no_throw_Find no_throw_chain_walk no_throw_free_scan
  no_throw_store : no_throw.

Lemma no_throw_insert_all ins xs st :
  never_throws ins → no_throw (insert_all ins xs st).
Proof.
  intros Hins. revert st. induction xs as [|x xs IH]; intros st; [done|].
  simpl. no_throw.
Qed.

Lemma no_throw_Rehash_with ins st n :
  never_throws ins → no_throw (Rehash_with ins st n).
Proof.
  intros Hins. rewrite Rehash_with_unfold. destruct (values_ st); [done|].
  by apply no_throw_insert_all.
Qed.

Lemma no_throw_rehash_if_loaded ins st x pos :
  never_throws ins → no_throw (rehash_if_loaded ins st x pos).
Proof.
  intros Hins. unfold rehash_if_loaded. no_throw. by apply no_throw_Rehash_with.
Qed.

Lemma no_throw_Insert fuel : never_throws (Insert (Key:=Key) (T:=T) fuel).
Proof.
  induction fuel as [|fuel IH]; intros st x pos; [done|].
  rewrite Insert_S. no_throw; try apply IH;
    try (by apply no_throw_Rehash_with); by apply no_throw_rehash_if_loaded.
Qed.

Hint Resolve no_throw_Insert : no_throw.

Lemma no_throw_Rehash fuel st n : no_throw (Rehash fuel st n).
Proof. apply no_throw_Rehash_with, no_throw_Insert. Qed.

Lemma no_throw_rebuild_from fuel (other : HashMap) :
  no_throw (rebuild_from fuel other).
Proof. apply no_throw_insert_all, no_throw_Insert. Qed.

Lemma no_throw_reset_slots ps d : no_throw (reset_slots ps d).
Proof.
  revert d. induction ps as [|p ps IH]; intros d; [done|].
  simpl. no_throw.
Qed.

Hint Resolve no_throw_Rehash no_throw_rebuild_from no_throw_reset_slots : no_throw.

Lemma no_throw_HashMap_new fuel (hf : Key → Z) : no_throw (HashMap_new (T:=T) fuel hf).
Proof. apply no_throw_Rehash. Qed.

Lemma no_throw_HashMap_range fuel (xs : list ValueType) (hf : Key → Z) :
  no_throw (HashMap_range fuel xs hf).
Proof. unfold HashMap_range. no_throw; try apply no_throw_HashMap_new. Qed.

Lemma no_throw_HashMap_init_list fuel (xs : list ValueType) (hf : Key → Z) :
  no_throw (HashMap_init_list fuel xs hf).
Proof. unfold HashMap_init_list. no_throw; try apply no_throw_HashMap_new. Qed.

Lemma no_throw_HashMap_copy fuel (other : HashMap) :
  no_throw (HashMap_copy fuel other).
Proof. apply no_throw_rebuild_from. Qed.

Lemma no_throw_assign fuel (this other : HashMap) :
  no_throw (assign fuel this other).
Proof. unfold assign. no_throw. Qed.

Lemma no_throw_clear st : no_throw (clear st).
Proof. unfold clear. no_throw. Qed.

Lemma no_throw_insert fuel st x : no_throw (insert fuel st x).
Proof. unfold insert. no_throw; try apply no_throw_Insert. Qed.

Lemma no_throw_erase fuel st key : no_throw (erase fuel st key).
Proof. unfold erase, erase_at. no_throw. Qed.

Lemma no_throw_find fuel st key : no_throw (find fuel st key).
Proof. unfold find. no_throw. Qed.

Lemma no_throw_subscript fuel st key : no_throw (subscript T_new fuel st key).
Proof. unfold subscript. no_throw; try apply no_throw_Insert. Qed.

End NoThrow.

(** ** Tables without deleted slots *)

Section Pristine.

Context {Key T : Type} `{EqDecision Key} `{EqDecision T}.

Variable T_new : T.

Local Abbreviation ValueType := (@ValueType Key T).
Local Abbreviation HashMap := (HashMap Key T).

Implicit Types (st : HashMap) (x : ValueType) (pos : Z) (key : Key).
Implicit Types (ins : HashMap → ValueType → Z → outcome (HashMap * Z)).

Lemma pristine_linked_used st i s :
  pristine st → vec_get (data_ st) i = Ret s → next s ≠ NONE → used s = true.
Proof.
  intros Hpr Hs Hn. destruct (used s) eqn:Hu; [done|]. destruct Hn.
  eapply wf_empty; [by apply pristine_wf|done..|]. by eapply pristine_deleted.
Qed.

Lemma pristine_unused_end st i s :
  pristine st → vec_get (data_ st) i = Ret s → used s = false → next s = NONE.
Proof.
  intros Hpr Hs Hu. eapply wf_empty; [by apply pristine_wf|done..|].
  by eapply pristine_deleted.
Qed.

Lemma wf_rev_pos_lt st i s :
  wf st → vec_get (data_ st) i = Ret s → used s = true →
  0 ≤ rev_pos s < Z.of_nat (length (positions_ st)).
Proof.
  intros Hwf Hs Hu. destruct (wf_used _ Hwf _ _ Hs Hu) as (_ & _ & _ & Hp).
  by apply vec_get_range in Hp.
Qed.

Lemma fresh_table_pristine primary_size cellar_size (hf : Key → Z) :
  pristine (fresh_table (T:=T) [] primary_size cellar_size hf).
Proof.
  split; [apply fresh_table_wf|..]; simpl.
  - by intros i s ->%vec_get_replicate.
  - by intros i s ->%vec_get_replicate.
Qed.

Lemma store_pristine st x pos st' pos' s0 :
  pristine st →
  vec_get (data_ st) pos = Ret s0 → used s0 = false →
  chain (data_ st) (home st x.1) pos →
  store st x pos = Ret (st', pos') →
  pristine st'.
Proof.
  intros Hpr Hs0 Hu0 Hch Hst. pose proof (pristine_wf _ Hpr) as Hwf.
  destruct (store_wf _ _ _ _ _ _ Hwf Hs0 Hu0 Hch Hst) as [Hwf' _].
  apply store_inv in Hst as (s & d & Hs & Hd & -> & ->).
  rewrite Hs0 in Hs. simplify_eq.
  split; [done|..]; simpl.
  - intros i s' Hi.
    destruct (vec_get_set _ _ _ _ _ _ Hd Hi) as [[-> ->]|[_ Hi']]; [done|].
    by eapply pristine_deleted.
  - intros i s' Hi Hn.
    destruct (vec_get_set _ _ _ _ _ _ Hd Hi) as [[-> ->]|[Hne Hi']];
      clear Hi; [|rename Hi' into Hi].
    + simpl in Hn. destruct Hn. by eapply pristine_unused_end.
    + destruct (pristine_next _ Hpr _ _ Hi Hn) as (t & Ht & Hrank).
      destruct (decide (next s' = pos)) as [Heq|Hne'].
      * rewrite Heq. eexists. split; [by eapply vec_get_set_eq|]. simpl.
        intros _. rewrite (wf_vec_size _ Hwf).
        eapply wf_rev_pos_lt; [done..|]. by eapply pristine_linked_used.
      * exists t. split; [|done]. by erewrite vec_get_set_ne.
Qed.

Lemma link_pristine st last last_slot next_free sf d :
  pristine st →
  vec_get (data_ st) last = Ret last_slot →
  used last_slot = true → next last_slot = NONE →
  vec_get (data_ st) next_free = Ret sf → used sf = false →
  vec_set (data_ st) last (set_next last_slot next_free) = Ret d →
  pristine (with_data (with_start_pos st next_free) d).
Proof.
  intros Hpr Hl Hu Hn Hf Huf Hd. pose proof (pristine_wf _ Hpr) as Hwf.
  destruct (link_wf _ _ _ _ _ Hwf Hl Hu Hn Hd) as (Hwf' & _ & Hsame).
  assert (next_free ≠ last) as Hne by (intros ->; congruence).
  split; [done|..]; simpl.
  - intros i s' Hi.
    destruct (vec_get_set _ _ _ _ _ _ Hd Hi) as [[-> ->]|[_ Hi']].
    + simpl. by eapply pristine_deleted.
    + by eapply pristine_deleted.
  - intros i s' Hi Hn'.
    destruct (vec_get_set _ _ _ _ _ _ Hd Hi) as [[-> ->]|[Hne' Hi']];
      clear Hi; [|rename Hi' into Hi].
    + simpl. exists sf. split; [by apply Hsame|]. congruence.
    + destruct (pristine_next _ Hpr _ _ Hi Hn') as (t & Ht & Hrank).
      destruct (decide (next s' = last)) as [Heq|Hne''].
      * rewrite Heq in *. rewrite Hl in Ht. simplify_eq.
        eexists. split; [by eapply vec_get_set_eq|]. simpl. auto.
      * exists t. split; [|done]. by apply Hsame.
Qed.

Lemma insert_all_pristine ins xs st st' :
  inserts_pristine ins → pristine st → insert_all ins xs st = Ret st' →
  pristine st'.
Proof.
  intros Hins. revert st. induction xs as [|x xs IH]; intros st Hpr Hrun.
  - by ret_inv Hrun.
  - apply insert_all_cons in Hrun as (pos & st1 & pos1 & Hb & H1 & Hrun).
    eapply IH; [|done]. by eapply Hins.
Qed.

Lemma Rehash_with_pristine ins st n st' :
  inserts_pristine ins → (values_ st = [] → positions_ st = []) →
  Rehash_with ins st n = Ret st' → pristine st'.
Proof.
  intros Hins Hps. rewrite Rehash_with_unfold. destruct (values_ st).
  - rewrite Hps by done. intros Hr. ret_inv Hr. apply fresh_table_pristine.
  - apply insert_all_pristine; [done|]. apply fresh_table_pristine.
Qed.

Lemma placement_pristine fuel st x pos st' pos' :
  inserts_pristine (Insert (Key:=Key) (T:=T) fuel) → pristine st →
  pos = home st x.1 →
  placement fuel st x pos st' pos' → pristine st'.
Proof.
  intros IH Hpr -> [head Hh Hu Hst|head last distance last_slot Hh Hu Hw Hl Hul Hst
    |head last distance last_slot next_free d Hh Hu Hw Hl Hul Hf Hd Hst
    |head last distance last_slot st2 pos2 Hh Hu Hw Hl Hul Hf Hre Hb Hin];
    pose proof (pristine_wf _ Hpr) as Hwf.
  - eapply store_pristine; [done..|constructor|done].
  - apply chain_walk_spec in Hw as [Hch _]; [|by apply wf_empty].
    by eapply store_pristine.
  - apply chain_walk_spec in Hw as (Hch & s & Hs & Hend); [|by apply wf_empty].
    rewrite Hl in Hs. simplify_eq.
    assert (next s = NONE) as Hnone.
    { destruct Hend as [|Hdel]; [done|].
      rewrite (wf_excl _ Hwf _ _ Hl Hul) in Hdel. done. }
    apply free_scan_unused in Hf as (sf & Hsf & Huf).
    destruct (link_wf _ _ _ _ _ Hwf Hl Hul Hnone Hd) as (Hwf2 & Hchain & Hsame).
    assert (next_free ≠ last) as Hne by (intros ->; congruence).
    assert (pristine (with_data (with_start_pos st next_free) d)) as Hpr2.
    { eapply link_pristine;
        [exact Hpr|exact Hl|exact Hul|exact Hnone|exact Hsf|exact Huf|exact Hd]. }
    eapply store_pristine; [exact Hpr2| |exact Huf| |exact Hst]; simpl.
    + by apply Hsame.
    + eapply chain_trans; [by apply Hchain|].
      change (home (with_data (with_start_pos st next_free) d) x.1)
        with (home st x.1).
      eapply chain_next; [by eapply vec_get_set_eq|by simpl; rewrite Hul| |].
      * simpl. eapply NONE_not_index; [exact (wf_length _ Hwf)|done].
      * simpl. constructor.
  - apply Rehash_with_pristine in Hre; [|done|by apply wf_positions_nil].
    by eapply IH.
Qed.

Lemma Insert_pristine fuel : inserts_pristine (Insert (Key:=Key) (T:=T) fuel).
Proof.
  induction fuel as [|fuel IH]; intros st x pos st' pos' Hpr Hb H0; [done|].
  pose proof (pristine_wf _ Hpr) as Hwf.
  apply Insert_inv in H0 as [Hpl|(st1 & pos1 & Hre & Hb1 & Hpl)].
  - apply bucket_Ret in Hb as [_ ->]. by eapply placement_pristine.
  - apply Rehash_with_pristine in Hre; [|done|by apply wf_positions_nil].
    apply bucket_Ret in Hb1 as [_ ->]. by eapply placement_pristine.
Qed.

Lemma clear_pristine st st' : pristine st → clear st = Ret st' → pristine st'.
Proof.
  intros Hpr Hc. pose proof (pristine_wf _ Hpr) as Hwf.
  pose proof (clear_wf _ _ Hwf Hc) as Hwf'.
  apply clear_inv in Hc as (d & [Hlen Hd]%reset_slots_spec & ->).
  split; [done|..]; simpl.
  - intros i s [->|[_ Hs]]%Hd; [done|]. by eapply pristine_deleted.
  - intros i s [->|[Hi Hs]]%Hd Hn; [done|]. destruct Hi.
    pose proof (pristine_linked_used _ _ _ Hpr Hs Hn) as Hu.
    destruct (wf_used _ Hwf _ _ Hs Hu) as (_ & _ & _ & [_ Hp]%vec_get_Ret).
    apply list_elem_of_lookup. eauto.
Qed.

Lemma erase_free_pristine st : erase_free T_new st → pristine st.
Proof.
  induction 1 as [fuel hf st Hn|fuel xs hf st Hn|fuel xs hf st Hn
    |fuel other st Hc|fuel this other st _ IH Ha
    |st st' _ IH Hc|fuel st x st' _ IH Hi
    |fuel st key st' it v _ IH Hs].
  - rewrite HashMap_new_eq in Hn. ret_inv Hn. apply fresh_table_pristine.
  - unfold HashMap_range in Hn. rewrite HashMap_new_eq in Hn. simpl in Hn.
    eapply Rehash_with_pristine; [apply Insert_pristine| |done]. done.
  - unfold HashMap_init_list in Hn. rewrite HashMap_new_eq in Hn. simpl in Hn.
    eapply Rehash_with_pristine; [apply Insert_pristine| |done]. done.
  - unfold HashMap_copy in Hc. rewrite rebuild_from_unfold in Hc.
    eapply insert_all_pristine; [apply Insert_pristine| |done].
    apply fresh_table_pristine.
  - unfold assign in Ha. destruct (decide _); [|by ret_inv Ha].
    rewrite rebuild_from_unfold in Ha.
    eapply insert_all_pristine; [apply Insert_pristine| |done].
    apply fresh_table_pristine.
  - by eapply clear_pristine.
  - apply insert_inv in Hi as (HP & p & _ & [(_ & pos' & Hi)|[_ ->]]); [|done].
    eapply Insert_pristine; [done| |done]. by apply bucket_Ret.
  - apply subscript_inv in Hs
      as (HP & p & _ & [(_ & -> & _)|(_ & pos' & s & y & Hi & _)]); [done|].
    eapply Insert_pristine; [done| |done]. by apply bucket_Ret.
Qed.

(** *** Walks in such tables *)

Lemma chain_rank st a b sa sb :
  pristine st → chain (data_ st) a b →
  vec_get (data_ st) a = Ret sa → vec_get (data_ st) b = Ret sb →
  used sb = true →
  a = b ∨ (used sa = true ∧ rev_pos sa < rev_pos sb).
Proof.
  intros Hpr Hch. revert sa.
  induction Hch as [a|a b s Hs Hlive Hn Hch IH]; intros sa Ha Hb Hub; [by left|].
  rewrite Hs in Ha. simplify_eq. right.
  pose proof (pristine_linked_used _ _ _ Hpr Hs Hn) as Hu. split; [done|].
  destruct (pristine_next _ Hpr _ _ Hs Hn) as (t & Ht & Hrank).
  destruct (IH _ Ht Hb Hub) as [Heq|[Hut Hlt]].
  - rewrite Heq in Ht. rewrite Hb in Ht. simplify_eq. auto.
  - specialize (Hrank Hut). lia.
Qed.

Lemma pristine_never_revisits st : pristine st → never_revisits st.
Proof.
  intros Hpr b i s _ _ Hs Hlive Hn Hch.
  pose proof (pristine_linked_used _ _ _ Hpr Hs Hn) as Hu.
  destruct (pristine_next _ Hpr _ _ Hs Hn) as (t & Ht & Hrank).
  destruct (chain_rank _ _ _ _ _ Hpr Hch Ht Hs Hu) as [Heq|[Hut Hlt]].
  - rewrite Heq in Ht. rewrite Hs in Ht. simplify_eq.
    specialize (Hrank Hu). lia.
  - specialize (Hrank Hut). lia.
Qed.

Lemma Find_NONE fuel st key : Find (S fuel) st key NONE = Ret NONE.
Proof. reflexivity. Qed.

Lemma Find_pristine_used st key n pos s :
  pristine st → vec_get (data_ st) pos = Ret s → used s = true →
  Z.of_nat (length (positions_ st)) - rev_pos s ≤ Z.of_nat n →
  ∃ r, Find (S (S n)) st key pos = Ret r.
Proof.
  intros Hpr. pose proof (pristine_wf _ Hpr) as Hwf. revert pos s.
  induction n as [|n IH]; intros pos s Hs Hu Hm.
  { pose proof (wf_rev_pos_lt _ _ _ Hwf Hs Hu). lia. }
  pose proof (NONE_not_index _ _ _ (wf_length _ Hwf) Hs) as Hpos.
  rewrite Find_S. destruct (Z.eqb_spec pos NONE); [done|].
  rewrite Hs, Ret_bind, Hu.
  destruct (wf_deref _ _ _ Hwf Hs Hu) as (h & y & _ & _ & ->). rewrite Ret_bind.
  destruct (decide (y.1 = key)); [by eexists|].
  destruct (decide (next s = NONE)) as [->|Hn]; [by eexists|].
  destruct (pristine_next _ Hpr _ _ Hs Hn) as (t & Ht & Hrank).
  destruct (used t) eqn:Hut.
  - apply (IH _ _ Ht Hut). specialize (Hrank eq_refl). lia.
  - pose proof (NONE_not_index _ _ _ (wf_length _ Hwf) Ht) as Hnext.
    rewrite Find_S. destruct (Z.eqb_spec (next s) NONE); [done|].
    rewrite Ht, Ret_bind, Hut, (pristine_deleted _ Hpr _ _ Ht). by eexists.
Qed.

Lemma Find_not_OutOfFuel_mono fuel fuel' st key pos :
  (fuel ≤ fuel')%nat → Find fuel st key pos ≠ OutOfFuel →
  Find fuel' st key pos ≠ OutOfFuel.
Proof.
  revert fuel' pos. induction fuel as [|fuel IH]; intros fuel' pos Hle Hf; [done|].
  destruct fuel' as [|fuel']; [lia|]. rewrite Find_S in *.
  destruct (pos =? NONE); [done|].
  destruct (vec_get (data_ st) pos) as [s| | |]; simpl in *; try done.
  destruct (used s).
  - destruct (deref (values_ st) (value s)) as [y| | |]; simpl in *; try done.
    destruct (decide (y.1 = key)); [done|]. apply IH; [lia|done].
  - destruct (deleted s); simpl in *; [|done]. apply IH; [lia|done].
Qed.

(** In a pristine table the walk of [Find] ends, wherever it starts. *)
Lemma Find_pristine_terminates st key pos fuel :
  pristine st → (length (positions_ st) + 2 ≤ fuel)%nat →
  Find fuel st key pos ≠ OutOfFuel.
Proof.
  intros Hpr Hle. eapply Find_not_OutOfFuel_mono; [done|].
  replace (length (positions_ st) + 2)%nat with (S (S (length (positions_ st))))
    by lia.
  destruct (vec_get (data_ st) pos) as [s| | |] eqn:Hs.
  - destruct (used s) eqn:Hu.
    + destruct (Find_pristine_used st key (length (positions_ st)) pos s)
        as [r ->]; [done..| |done].
      pose proof (wf_rev_pos_lt _ _ _ (pristine_wf _ Hpr) Hs Hu). lia.
    + rewrite Find_S. destruct (pos =? NONE); [done|].
      rewrite Hs, Ret_bind, Hu, (pristine_deleted _ Hpr _ _ Hs). done.
  - by apply vec_get_not_Throw in Hs.
  - rewrite Find_S. destruct (pos =? NONE); [done|]. by rewrite Hs.
  - unfold vec_get in Hs. destruct (in_range _ _); [|done].
    by destruct (data_ st !! Z.to_nat pos).
Qed.

Lemma chain_walk_S fuel d pos distance :
  chain_walk (S fuel) d pos distance =
  (s ← vec_get d pos;
   if negb (next s =? NONE) && negb (deleted s)
   then chain_walk fuel d (next s) (wrap (distance + 1))
   else Ret (pos, distance)).
Proof. reflexivity. Qed.

Lemma chain_walk_pristine_used st n pos distance s :
  pristine st → vec_get (data_ st) pos = Ret s → used s = true →
  Z.of_nat (length (positions_ st)) - rev_pos s ≤ Z.of_nat n →
  ∃ r, chain_walk (S n) (data_ st) pos distance = Ret r.
Proof.
  intros Hpr. pose proof (pristine_wf _ Hpr) as Hwf. revert pos distance s.
  induction n as [|n IH]; intros pos distance s Hs Hu Hm.
  { pose proof (wf_rev_pos_lt _ _ _ Hwf Hs Hu). lia. }
  rewrite (chain_walk_S (S n)), Hs, Ret_bind.
  destruct (Z.eqb_spec (next s) NONE) as [Hn|Hn]; [by eexists|].
  rewrite (pristine_deleted _ Hpr _ _ Hs).
  change (negb false && negb false) with true. cbv iota.
  destruct (pristine_next _ Hpr _ _ Hs Hn) as (t & Ht & Hrank).
  destruct (used t) eqn:Hut.
  - apply (IH _ _ _ Ht Hut). specialize (Hrank eq_refl). lia.
  - rewrite chain_walk_S, Ht, Ret_bind.
    rewrite (pristine_unused_end _ _ _ Hpr Ht Hut). by eexists.
Qed.

Lemma chain_walk_not_OutOfFuel_mono fuel fuel' d pos distance :
  (fuel ≤ fuel')%nat → chain_walk fuel d pos distance ≠ OutOfFuel →
  chain_walk fuel' d pos distance ≠ OutOfFuel.
Proof.
  revert fuel' pos distance.
  induction fuel as [|fuel IH]; intros fuel' pos distance Hle Hw; [done|].
  destruct fuel' as [|fuel']; [lia|]. rewrite chain_walk_S in *.
  destruct (vec_get d pos) as [s| | |]; simpl in *; try done.
  destruct (negb (next s =? NONE) && negb (deleted s)); [|done].
  apply IH; [lia|done].
Qed.

(** In a pristine table the first loop of [Insert] ends, wherever it
    starts. *)
Lemma chain_walk_pristine_terminates st pos distance fuel :
  pristine st → (length (positions_ st) + 2 ≤ fuel)%nat →
  chain_walk fuel (data_ st) pos distance ≠ OutOfFuel.
Proof.
  intros Hpr Hle.
  apply (chain_walk_not_OutOfFuel_mono (S (length (positions_ st)))); [lia|].
  destruct (vec_get (data_ st) pos) as [s| | |] eqn:Hs.
  - destruct (used s) eqn:Hu.
    + destruct (chain_walk_pristine_used st (length (positions_ st)) pos distance s)
        as [r ->]; [done..| |done].
      pose proof (wf_rev_pos_lt _ _ _ (pristine_wf _ Hpr) Hs Hu). lia.
    + rewrite chain_walk_S, Hs, Ret_bind.
      by rewrite (pristine_unused_end _ _ _ Hpr Hs Hu).
  - by apply vec_get_not_Throw in Hs.
  - by rewrite chain_walk_S, Hs.
  - unfold vec_get in Hs. destruct (in_range _ _); [|done].
    by destruct (data_ st !! Z.to_nat pos).
Qed.

Lemma run_erase_free fuel ops st st' :
  forallb (λ o, negb (is_erase o)) ops = true →
  erase_free T_new st → run T_new fuel ops st = Ret st' → erase_free T_new st'.
Proof.
  revert st. induction ops as [|o ops IH]; intros st Hops Hef Hr; simpl in *.
  - by ret_inv Hr.
  - apply andb_true_iff in Hops as [Ho Hops]. bind_inv Hr as st1 Hs.
    eapply IH; [done| |done]. destruct o as [x|key|key|key|]; simpl in *.
    + by eapply erase_free_insert.
    + done.
    + bind_inv Hs as it Hf. by ret_inv Hs.
    + bind_inv Hs as r Hsub. ret_inv Hs. destruct r as [[st1 it] v].
      by eapply erase_free_subscript.
    + by eapply erase_free_clear.
Qed.

End Pristine.
(** ** Links in tables without deleted slots *)

Section Links.

Context {Key T : Type} `{EqDecision Key} `{EqDecision T}.

Variable T_new : T.

Local Abbreviation ValueType := (@ValueType Key T).
Local Abbreviation HashMap := (HashMap Key T).

Implicit Types (st : HashMap) (x : ValueType) (pos : Z) (key : Key).
Implicit Types (ins : HashMap → ValueType → Z → outcome (HashMap * Z)).

Lemma fresh_table_linked primary_size cellar_size (hf : Key → Z) :
  links_to_used (fresh_table (T:=T) [] primary_size cellar_size hf).
Proof. intros i s ->%vec_get_replicate Hn. done. Qed.

(** [store] fills a slot without a link of its own; the links that led to
    that slot now lead to a slot in use. *)
Lemma store_linked st x pos st' pos' s0 :
  vec_get (data_ st) pos = Ret s0 → next s0 = NONE →
  (∀ i s, vec_get (data_ st) i = Ret s → next s ≠ NONE →
     next s = pos ∨
     ∃ s', vec_get (data_ st) (next s) = Ret s' ∧ used s' = true) →
  store st x pos = Ret (st', pos') →
  links_to_used st'.
Proof.
  intros Hs0 Hn0 Hlinks Hst.
  apply store_inv in Hst as (s & d & Hs & Hd & -> & ->).
  rewrite Hs0 in Hs. simplify_eq. intros i s' Hi Hn. simpl in *.
  destruct (vec_get_set _ _ _ _ _ _ Hd Hi) as [[-> ->]|[Hne Hi']]; [done|].
  destruct (decide (next s' = pos)) as [->|Hne'].
  - eexists. split; [by eapply vec_get_set_eq|done].
  - destruct (Hlinks _ _ Hi' Hn) as [?|(t & Ht & Hu)]; [done|].
    exists t. split; [|done]. by erewrite vec_get_set_ne.
Qed.

Lemma insert_all_linked ins xs st st' :
  inserts_pristine ins → inserts_linked ins →
  pristine st → links_to_used st →
  insert_all ins xs st = Ret st' → links_to_used st'.
Proof.
  intros Hpr Hins. revert st. induction xs as [|x xs IH]; intros st Hp Hl Hrun.
  - by ret_inv Hrun.
  - apply insert_all_cons in Hrun as (pos & st1 & pos1 & Hb & H1 & Hrun).
    eapply (IH st1); [by eapply Hpr|by eapply Hins|done].
Qed.

Lemma Rehash_with_linked ins st n st' :
  inserts_pristine ins → inserts_linked ins →
  Rehash_with ins st n = Ret st' → links_to_used st'.
Proof.
  intros Hpr Hins. rewrite Rehash_with_unfold. destruct (values_ st).
  - intros Hr. ret_inv Hr. intros i s ->%vec_get_replicate Hn. done.
  - apply insert_all_linked; [done|done|apply fresh_table_pristine|].
    apply fresh_table_linked.
Qed.

Lemma placement_linked fuel st x pos st' pos' :
  inserts_linked (Insert (Key:=Key) (T:=T) fuel) →
  pristine st → links_to_used st →
  placement fuel st x pos st' pos' → links_to_used st'.
Proof.
  intros IH Hpr Hlk [head Hh Hu Hst|head last distance last_slot Hh Hu Hw Hl Hul Hst
    |head last distance last_slot next_free d Hh Hu Hw Hl Hul Hf Hd Hst
    |head last distance last_slot st2 pos2 Hh Hu Hw Hl Hul Hf Hre Hb Hin];
    pose proof (pristine_wf _ Hpr) as Hwf.
  - eapply store_linked; [done|by eapply pristine_unused_end| |done].
    intros i s Hi Hn. right. by apply (Hlk i).
  - eapply store_linked; [done|by eapply pristine_unused_end| |done].
    intros i s Hi Hn. right. by apply (Hlk i).
  - apply free_scan_unused in Hf as (sf & Hsf & Huf).
    assert (next_free ≠ last) as Hne by (intros ->; congruence).
    eapply store_linked; [..|exact Hst]; simpl.
    + by erewrite vec_get_set_ne.
    + by eapply pristine_unused_end.
    + intros i s Hi Hn.
      destruct (vec_get_set _ _ _ _ _ _ Hd Hi) as [[-> ->]|[Hne' Hi']];
        [by left|right].
      destruct (Hlk _ _ Hi' Hn) as (t & Ht & Hut).
      destruct (decide (next s = last)) as [->|Hne''].
      * eexists. split; [by eapply vec_get_set_eq|]. done.
      * exists t. split; [|done]. by erewrite vec_get_set_ne.
  - eapply IH; [| |done|done].
    + eapply Rehash_with_pristine;
        [apply Insert_pristine|by apply wf_positions_nil|done].
    + eapply Rehash_with_linked; [apply Insert_pristine|done|done].
Qed.

Lemma Insert_linked fuel : inserts_linked (Insert (Key:=Key) (T:=T) fuel).
Proof.
  induction fuel as [|fuel IH]; intros st x pos st' pos' Hpr Hlk Hb H0; [done|].
  pose proof (pristine_wf _ Hpr) as Hwf.
  apply Insert_inv in H0 as [Hpl|(st1 & pos1 & Hre & Hb1 & Hpl)].
  - by eapply placement_linked.
  - eapply placement_linked; [done| | |done].
    + eapply Rehash_with_pristine;
        [apply Insert_pristine|by apply wf_positions_nil|done].
    + eapply Rehash_with_linked; [apply Insert_pristine|done|done].
Qed.

Lemma clear_linked st st' :
  pristine st → clear st = Ret st' → links_to_used st'.
Proof.
  intros Hpr Hc. pose proof (pristine_wf _ Hpr) as Hwf.
  apply clear_inv in Hc as (d & [Hlen Hd]%reset_slots_spec & ->).
  intros i s [->|[Hi Hs]]%Hd Hn; [done|]. destruct Hi.
  pose proof (pristine_linked_used _ _ _ Hpr Hs Hn) as Hu.
  destruct (wf_used _ Hwf _ _ Hs Hu) as (_ & _ & _ & [_ Hp]%vec_get_Ret).
  apply list_elem_of_lookup. eauto.
Qed.

(** As long as [erase] has not been called since the table was built, a
    slot that is not in use is on no chain. *)
Lemma erase_free_linked st : erase_free T_new st → links_to_used st.
Proof.
  induction 1 as [fuel hf st Hn|fuel xs hf st Hn|fuel xs hf st Hn
    |fuel other st Hc|fuel this other st Hthis IH Ha
    |st st' Hst IH Hc|fuel st x st' Hst IH Hi
    |fuel st key st' it v Hst IH Hs].
  - rewrite HashMap_new_eq in Hn. ret_inv Hn. apply fresh_table_linked.
  - unfold HashMap_range in Hn. rewrite HashMap_new_eq in Hn. simpl in Hn.
    eapply Rehash_with_linked; [apply Insert_pristine|apply Insert_linked|done].
  - unfold HashMap_init_list in Hn. rewrite HashMap_new_eq in Hn. simpl in Hn.
    eapply Rehash_with_linked; [apply Insert_pristine|apply Insert_linked|done].
  - unfold HashMap_copy in Hc. rewrite rebuild_from_unfold in Hc.
    eapply insert_all_linked;
      [apply Insert_pristine|apply Insert_linked|apply fresh_table_pristine
      |apply fresh_table_linked|done].
  - unfold assign in Ha. destruct (decide _); [|by ret_inv Ha].
    rewrite rebuild_from_unfold in Ha.
    eapply insert_all_linked;
      [apply Insert_pristine|apply Insert_linked|apply fresh_table_pristine
      |apply fresh_table_linked|done].
  - eapply clear_linked; [|done]. by eapply erase_free_pristine.
  - apply insert_inv in Hi as (HP & p & _ & [(_ & pos' & Hi)|[_ ->]]);
      [|done].
    eapply Insert_linked; [by eapply erase_free_pristine|done| |done].
    by apply bucket_Ret.
  - apply subscript_inv in Hs
      as (HP & p & _ & [(_ & -> & _)|(_ & pos' & s & y & Hi & _)]);
      [done|].
    eapply Insert_linked; [by eapply erase_free_pristine|done| |done].
    by apply bucket_Ret.
Qed.

End Links.

(** ** [at] and the absence of other exceptions *)

Section At.

Context {Key T : Type} `{EqDecision Key} `{EqDecision T}.

Variable T_new : T.

Local Abbreviation ValueType := (@ValueType Key T).
Local Abbreviation HashMap := (HashMap Key T).

Implicit Types (st : HashMap) (x : ValueType) (pos : Z) (key : Key).

Lemma at_unfold fuel st key :
  at_ fuel st key =
  (it ← find fuel st key;
   if decide (it = list_end) then Throw out_of_range
   else x ← deref (values_ st) it; Ret x.2).
Proof. reflexivity. Qed.

(** [at] throws exactly when [find] returns [end()], and returns the mapped
    value of the entry that [find] designates otherwise. *)
Lemma at_Throw_iff fuel st key :
  at_ fuel st key = Throw out_of_range ↔ find fuel st key = Ret list_end.
Proof.
  rewrite at_unfold. split.
  - intros [Hf|(it & Hf & Hthrow)]%bind_Throw; [by apply no_throw_find in Hf|].
    destruct (decide (it = list_end)) as [->|]; [done|].
    apply bind_Throw in Hthrow as [Hd|(x & _ & ?)]; [|done].
    by apply no_throw_deref in Hd.
  - intros ->. done.
Qed.

Lemma at_Ret_iff fuel st key v :
  at_ fuel st key = Ret v ↔
  ∃ it x, find fuel st key = Ret it ∧ it ≠ list_end ∧
          deref (values_ st) it = Ret x ∧ v = x.2.
Proof.
  rewrite at_unfold. split.
  - intros Ha. bind_inv Ha as it Hf.
    destruct (decide (it = list_end)); [done|].
    bind_inv Ha as x Hx. ret_inv Ha. eauto 10.
  - intros (it & x & -> & Hne & Hx & ->). simpl.
    rewrite decide_False by done. by rewrite Hx.
Qed.

(** The member functions other than [at] do not throw. *)
Lemma others_do_not_throw fuel st (hf : Key → Z) (xs : list ValueType)
    (other : HashMap) x key :
  no_throw (HashMap_new (T:=T) fuel hf) ∧
  no_throw (HashMap_range fuel xs hf) ∧
  no_throw (HashMap_init_list fuel xs hf) ∧
  no_throw (HashMap_copy fuel other) ∧
  no_throw (assign fuel st other) ∧
  no_throw (clear st) ∧
  no_throw (insert fuel st x) ∧
  no_throw (erase fuel st key) ∧
  no_throw (find fuel st key) ∧
  no_throw (subscript T_new fuel st key).
Proof.
  repeat split;
    auto using no_throw_HashMap_new, no_throw_HashMap_range,
      no_throw_HashMap_init_list, no_throw_HashMap_copy, no_throw_assign,
      no_throw_clear, no_throw_insert, no_throw_erase, no_throw_find,
      no_throw_subscript.
Qed.

End At.

(** ** Statements about every map *)

Section Statements.

Context {Key T : Type} `{EqDecision Key} `{EqDecision T}.

Variable T_new : T.

Local Abbreviation ValueType := (@ValueType Key T).
Local Abbreviation HashMap := (HashMap Key T).

Implicit Types (st : HashMap) (x : ValueType) (pos : Z) (key : Key).

(** *** Iteration order *)

(** C9: on a map built from the default constructor by any calls of
    [insert], [erase], [find], [operator[]] and [clear], the traversal from
    [begin()] to [end()] visits exactly the entries of the reference map in
    their insertion order; [Insert] appends its entry behind the others and
    [Rehash] leaves the order as it is, also when they rebuild the table. *)
Theorem iteration_in_insertion_order fuel (hf : Key → Z) ops st :
  (st0 ← HashMap_new fuel hf; run T_new fuel ops st0) = Ret st →
  traverse (S (length (values_ st))) st (begin st) = Ret (ref_run T_new ops) ∧
  (∀ fuel' x pos st' pos',
     Insert fuel' st x pos = Ret (st', pos') →
     elements st' = elements st ++ [x]) ∧
  (∀ fuel' n st', Rehash fuel' st n = Ret st' → elements st' = elements st).
Proof.
  intros Hr. apply run_from_new in Hr as (Hwf & _ & <-).
  split; [by apply traverse_elements|]. split.
  - intros fuel' x pos st' pos' Hi. by apply Insert_appends in Hi as [-> _].
  - intros fuel' n st' Hre.
    apply Rehash_with_elements in Hre as [-> _]; [done|apply Insert_appends].
Qed.

(** *** Primary sizes *)

(** C10: the default constructor yields primary size 3 and cellar size 1;
    every map that the public interface produces has a primary size taken
    from [PRIMES] and at least 2, so that [hasher_(key) % primary_size_] is
    defined for every key. *)
Theorem primary_size_tabulated st :
  reachable T_new st →
  primary_size_ st ∈ PRIMES ∧ 2 ≤ primary_size_ st ∧
  (∀ key, bucket st key = Ret (hasher_ st key `mod` primary_size_ st)) ∧
  (∀ fuel hf, ∃ st0 : HashMap,
     HashMap_new fuel hf = Ret st0 ∧
     primary_size_ st0 = 3 ∧ cellar_size_ st0 = 1).
Proof.
  intros [Hin Hge]%reachable_tabulated. split; [done|]. split; [done|]. split.
  - intros key. apply bucket_Ret. split; [lia|done].
  - intros fuel hf. rewrite HashMap_new_eq. eauto.
Qed.

(** *** Chains *)

(** C5, amended: in every map that the public interface produces, the slot
    of each entry is met by following the links from the bucket of its key
    through slots that are in use or deleted, and [find] returns for every
    key that is present.  As long as [erase] has not been called since the
    table was built, moreover, no walk comes back to a slot that it has left,
    and the walks of [Find] and [Insert] end for every key and from every
    position. *)
Theorem entries_reachable_from_home st :
  reachable T_new st →
  (∀ h x, (h, x) ∈ values_ st →
     (∃ i s, chain (data_ st) (home st x.1) i ∧
             vec_get (data_ st) i = Ret s ∧ used s = true ∧ value s = node h) ∧
     (∃ fuel p, ∀ fuel', (fuel ≤ fuel')%nat →
        Find fuel' st x.1 (home st x.1) = Ret p ∧ p ≠ NONE) ∧
     (∃ fuel it, ∀ fuel', (fuel ≤ fuel')%nat →
        find fuel' st x.1 = Ret it ∧ it ≠ list_end)) ∧
  (erase_free T_new st →
     never_revisits st ∧
     ∀ key pos distance fuel, (length (positions_ st) + 2 ≤ fuel)%nat →
       Find fuel st key pos ≠ OutOfFuel ∧
       chain_walk fuel (data_ st) pos distance ≠ OutOfFuel).
Proof.
  intros Hre. split.
  - intros h x Hin. pose proof (reachable_wf _ _ Hre) as Hwf.
    destruct (reachable_tabulated _ _ Hre) as [_ HP].
    split; [by apply wf_home|].
    destruct (Find_present_returns _ _ _ Hwf Hin) as (fuel & p & Hf & Hp).
    split.
    { exists fuel, p. intros fuel' Hle. split; [|done]. by eapply Find_fuel_mono. }
    destruct (Find_found _ _ _ _ _ Hf Hp) as (s & y & Hs & Hu & Hy & _).
    exists fuel, (value s). intros fuel' Hle. split.
    + assert (bucket st x.1 = Ret (home st x.1)) as Hb.
      { apply bucket_Ret. split; [lia|done]. }
      unfold find. rewrite Hb, Ret_bind.
      rewrite (Find_fuel_mono _ _ _ _ _ _ Hle Hf), Ret_bind.
      destruct (Z.eqb_spec p NONE); [done|]. by rewrite Hs.
    + apply deref_elem in Hy as (h' & -> & _). done.
  - intros Hpr%erase_free_pristine. split; [by apply pristine_never_revisits|].
    intros key pos distance fuel Hle.
    split; [by apply Find_pristine_terminates
           |by apply chain_walk_pristine_terminates].
Qed.

(** *** The scan for an unused slot *)

Lemma free_scan_first_unused fuel st next_free distance p :
  free_scan fuel st next_free distance = Ret (Some p) →
  ∃ k : nat,
    p = Nat.iter k (step_down st) next_free ∧
    (∃ s, vec_get (data_ st) p = Ret s ∧ used s = false) ∧
    ∀ j : nat, (j < k)%nat →
      ∃ s, vec_get (data_ st) (Nat.iter j (step_down st) next_free) = Ret s ∧
           used s = true.
Proof.
  revert next_free distance.
  induction fuel as [|fuel IH]; intros next_free distance Hs; [done|].
  simpl in Hs. bind_inv Hs as s Hslot. destruct (used s) eqn:Hu.
  - destruct (_ && _); [done|].
    apply IH in Hs as (k & -> & Hp & Hbefore).
    exists (S k). rewrite Nat.iter_succ_r. split; [done|]. split; [done|].
    intros [|j] Hj; [by exists s|].
    rewrite Nat.iter_succ_r. apply Hbefore. lia.
  - ret_inv Hs. exists 0%nat. split; [done|]. split; [by exists s|].
    intros j Hj. lia.
Qed.

(** C6, amended: when [Insert] reaches the end of a chain whose last slot is
    in use, the slot that it links behind that end is met on the walk down
    from [start_pos_] over the whole table, from index 0 on to the last
    index; [start_pos_] is moved to that slot and the entry is stored in it.
    As long as [erase] has not been called since the table was built, that
    slot is the first empty one on the walk: it is neither in use nor
    deleted, it has no link and no link leads to it, and every slot passed
    before it is in use; before and after the insertion every link leads to
    a slot in use, so that an empty slot comes onto a chain by this linking
    only.
    [st1] and [pos1] are the table and the position after the first
    statement of [Insert]. *)
Theorem Insert_links_first_empty
    fuel st x pos st1 pos1 head last distance last_slot p :
  rehash_if_loaded (Insert fuel) st x pos = Ret (st1, pos1) →
  vec_get (data_ st1) pos1 = Ret head → used head = true →
  chain_walk fuel (data_ st1) pos1 0 = Ret (last, distance) →
  vec_get (data_ st1) last = Ret last_slot → used last_slot = true →
  free_scan fuel st1 (start_pos_ st1) distance = Ret (Some p) →
  (∃ k : nat, p = Nat.iter k (step_down st1) (start_pos_ st1)) ∧
  (∀ st' pos', Insert (S fuel) st x pos = Ret (st', pos') →
     pos' = p ∧ start_pos_ st' = p ∧
     (∃ s, vec_get (data_ st') last = Ret s ∧ used s = true ∧ next s = p) ∧
     (∃ s, vec_get (data_ st') p = Ret s ∧ used s = true ∧
           deref (values_ st') (value s) = Ret x)) ∧
  (erase_free T_new st → bucket st x.1 = Ret pos →
     (∃ k : nat,
        p = Nat.iter k (step_down st1) (start_pos_ st1) ∧
        (∃ s, vec_get (data_ st1) p = Ret s ∧
              is_empty_slot s = true ∧ next s = NONE) ∧
        ∀ j : nat, (j < k)%nat →
          ∃ s, vec_get (data_ st1)
                 (Nat.iter j (step_down st1) (start_pos_ st1)) = Ret s ∧
               used s = true) ∧
     links_to_used st1 ∧
     (∀ i s, vec_get (data_ st1) i = Ret s → next s ≠ p) ∧
     (∀ st' pos', Insert (S fuel) st x pos = Ret (st', pos') →
        links_to_used st')).
Proof.
  intros Hload Hh Hu Hw Hl Hul Hf.
  destruct (free_scan_first_unused _ _ _ _ _ Hf)
    as (k & Hk & (sp & Hsp & Husp) & Hbefore).
  split; [by exists k|]. split.
  - intros st' pos'. rewrite Insert_S, Hload, Ret_bind, Hh.
    simpl. rewrite Hu, Hw. simpl. rewrite Hl. simpl. rewrite Hul, Hf. simpl.
    intros Hi. bind_inv Hi as d Hd.
    apply store_inv in Hi as (s & d' & Hs & Hd' & -> & ->). simpl in *.
    assert (p ≠ last) as Hne by (intros ->; congruence).
    split; [done|]. split; [done|]. split.
    + exists (set_next last_slot p). split; [|done].
      rewrite (vec_get_set_ne _ _ _ _ _ Hd') by done.
      by eapply vec_get_set_eq.
    + eexists. split; [by eapply vec_get_set_eq|]. split; [done|]. simpl.
      assert (∀ (vs : list (nat * ValueType)) h y,
                h ∉ vs.*1 → node_at (vs ++ [(h, y)]) h = Some y) as Hlast.
      { induction vs as [|[h0 z] vs IH]; intros h y Hh0; simpl.
        - by rewrite decide_True.
        - csimpl in Hh0. apply not_elem_of_cons in Hh0 as [? ?].
          rewrite decide_False by done. auto. }
      rewrite Hlast; [done|apply new_node_fresh].
  - intros Hef Hb.
    pose proof (erase_free_pristine _ _ Hef) as Hpr.
    pose proof (erase_free_linked _ _ Hef) as Hlk.
    assert (pristine st1 ∧ links_to_used st1) as [Hpr1 Hlk1].
    { apply rehash_if_loaded_inv in Hload as [[-> ->]|[Hre _]]; [done|]. split.
      - eapply Rehash_with_pristine; [apply Insert_pristine| |done].
        apply wf_positions_nil, pristine_wf, Hpr.
      - eapply Rehash_with_linked; [apply Insert_pristine|apply Insert_linked|done]. }
    split; [|split; [done|split]].
    + exists k. split; [done|]. split; [|done]. exists sp. split; [done|].
      split; [|by eapply pristine_unused_end].
      unfold is_empty_slot.
      by rewrite Husp, (pristine_deleted _ Hpr1 _ _ Hsp).
    + intros i s Hi Hn.
      assert (next s ≠ NONE) as Hnone.
      { rewrite Hn. eapply NONE_not_index; [|done].
        apply wf_length, pristine_wf, Hpr1. }
      destruct (Hlk1 _ _ Hi Hnone) as (t & Ht & Hut).
      rewrite Hn, Hsp in Ht. congruence.
    + intros st' pos' Hi. by eapply (Insert_linked (S fuel) st x pos).
Qed.

(** *** Copy assignment *)

(** C8, amended: after [b = a] the entries of [b] are those of [a], in the
    same order.  When the entries of [b] already equalled those of [a], [b]
    is left as it was, whatever its sizes are; otherwise [b] is the table
    obtained by inserting the entries of [a], in order, into an empty table of
    the primary and cellar sizes of [a] with the hash function of [a]. *)
Theorem assign_spec fuel (this other r : HashMap) :
  assign fuel this other = Ret r →
  elements r = elements other ∧
  (elements this = elements other → r = this) ∧
  (elements this ≠ elements other →
     wf r ∧ hasher_ r = hasher_ other ∧
     insert_all (Insert fuel) (elements other)
       (fresh_table [] (primary_size_ other) (cellar_size_ other)
          (hasher_ other)) = Ret r).
Proof.
  unfold assign. destruct (decide (elements this ≠ elements other)) as [Hne|Heq].
  - rewrite rebuild_from_unfold. intros Hr.
    pose proof (insert_all_elements _ _ _ _ (Insert_appends fuel) Hr) as [E1 E2].
    split; [done|]. split; [done|]. intros _. split; [|done].
    eapply insert_all_wf; [apply Insert_ok|apply fresh_table_wf|done].
  - intros Hr. ret_inv Hr. apply dec_stable in Heq. done.
Qed.

(** *** [operator[]] on maps where it returns *)

Lemma subscript_returns_entry fuel st key st' it v :
  wf st → NoDup (elements st).*1 →
  subscript T_new fuel st key = Ret (st', it, v) →
  elements st' = ref_insert (elements st) (key, T_new) ∧
  deref (values_ st') it = Ret (key, v) ∧
  ref_find (elements st') key = Some v ∧
  (key ∉ (elements st).*1 → v = T_new) ∧
  (key ∈ (elements st).*1 → st' = st).
Proof.
  intros Hwf Hnd Hs.
  pose proof (subscript_elements _ _ _ _ _ _ _ Hwf Hs) as He.
  pose proof (subscript_wf _ _ _ _ _ _ _ Hwf Hs) as Hwf'.
  assert (NoDup (elements st').*1) as Hnd'.
  { rewrite He. by apply ref_insert_NoDup. }
  assert (∀ (m : list ValueType) y, NoDup m.*1 → y ∈ m →
            ref_find m y.1 = Some y.2) as Hsome.
  { induction m as [|z m IH]; intros y Hk Hm; [by apply elem_of_nil in Hm|].
    simpl. csimpl in Hk. apply list.NoDup_cons in Hk as [Hz Hk].
    apply elem_of_cons in Hm as [->|Hm]; [by rewrite decide_True|].
    rewrite decide_False; [auto|]. intros E. apply Hz. rewrite E.
    apply list_elem_of_fmap. by exists y. }
  apply subscript_inv in Hs
    as (HP & p & Hf & [(Hp & -> & s & y & Hs & -> & Hy & ->)
                      |(-> & pos' & s & y & Hi & Hs & -> & Hy & ->)]).
  - destruct (Find_found _ _ _ _ _ Hf Hp) as (s' & y' & Hs' & _ & Hy' & <-).
    rewrite Hs in Hs'. simplify_eq. rewrite Hy in Hy'. simplify_eq.
    split; [done|]. split; [by destruct y'|]. split; [|split; [|done]].
    + apply (Hsome _ y'); [done|].
      apply deref_elem in Hy as (h & _ & Hin).
      apply list_elem_of_fmap. by exists (h, y').
    + intros Hk. destruct Hk. by eapply Find_Some_present.
  - apply Find_None_absent in Hf; [|done].
    assert (bucket st (key, T_new).1 = Ret (home st key)) as Hb
      by (by apply bucket_Ret).
    destruct (Insert_ok _ _ _ _ _ _ Hwf Hb Hi) as (_ & vs & h & s' & Hvs & Hs' & _ & Hv).
    rewrite Hs in Hs'. simplify_eq. rewrite Hv in Hy. simpl in Hy.
    erewrite node_at_elem in Hy;
      [|by apply wf_nodes|rewrite Hvs; apply elem_of_app; right; left].
    simpl in Hy. simplify_eq. split; [done|]. split.
    { rewrite Hv. simpl. erewrite node_at_elem; [done|by apply wf_nodes|].
      rewrite Hvs. apply elem_of_app. right. left. }
    split; [|done].
    apply (Hsome _ (key, T_new)); [done|]. rewrite He. unfold ref_insert.
    rewrite decide_False by done. apply elem_of_app. right. left.
Qed.

End Statements.

(** ** Concrete maps *)

Lemma new_map_reached : run_new [] = Ret new_map.
Proof. vm_compute. reflexivity. Qed.

Lemma cyclic_map_reached : run_new cyclic_ops = Ret cyclic_map.
Proof. vm_compute. reflexivity. Qed.

Lemma before_cycle_map_reached :
  run_new (take 8 cyclic_ops) = Ret before_cycle_map.
Proof. vm_compute. reflexivity. Qed.

Lemma coalesced_map_reached : run_new coalesced_ops = Ret coalesced_map.
Proof. vm_compute. reflexivity. Qed.

Lemma crowded_map_reached : run_new crowded_ops = Ret crowded_map.
Proof. vm_compute. reflexivity. Qed.

Lemma full_cellar_map_reached : run_new full_cellar_ops = Ret full_cellar_map.
Proof. vm_compute. reflexivity. Qed.

Lemma mixed_map_reached : run_new mixed_ops = Ret mixed_map.
Proof. vm_compute. reflexivity. Qed.

Lemma emptied_map_reached : run_new emptied_ops = Ret emptied_map.
Proof. vm_compute. reflexivity. Qed.

Lemma run_new_reachable ops st : run_new ops = Ret st → reachable 0 st.
Proof.
  unfold run_new. rewrite HashMap_new_eq, Ret_bind.
  apply run_reachable. by apply (reachable_new 0 64 id_hash).
Qed.

Lemma run_new_erase_free ops st :
  forallb (λ o, negb (is_erase o)) ops = true →
  run_new ops = Ret st → erase_free 0 st.
Proof.
  intros Hops. unfold run_new. rewrite HashMap_new_eq, Ret_bind.
  apply run_erase_free; [done|]. by apply (erase_free_new 0 64 id_hash).
Qed.

Lemma coalesced_map_erase_free : erase_free 0 coalesced_map.
Proof. by apply (run_new_erase_free coalesced_ops), coalesced_map_reached. Qed.

(** *** The cycle *)

(** The last call of [cyclic_ops] reaches the end of the chain of bucket 6
    (slot 6 itself), scans down from [start_pos_ = 6] and takes slot 5, which
    is deleted and still carries its link to slot 6. *)
Lemma cycle_closed_by_deleted_slot :
  vec_get (data_ before_cycle_map) 5 = Ret (mkData singular false true 1 6) ∧
  chain_walk 64 (data_ before_cycle_map) 6 0 = Ret (6, 0) ∧
  free_scan 64 before_cycle_map (start_pos_ before_cycle_map) 0 = Ret (Some 5) ∧
  Insert 65 before_cycle_map (6, 60) 6 = Ret (cyclic_map, 5) ∧
  vec_get (data_ cyclic_map) 5 = Ret (mkData (node 6) true false 2 6) ∧
  vec_get (data_ cyclic_map) 6 = Ret (mkData (node 5) true false 1 5).
Proof. repeat split; vm_compute; reflexivity. Qed.

Lemma Find_cyclic_5 fuel :
  Find (S fuel) cyclic_map 19 5 = Find fuel cyclic_map 19 6.
Proof. reflexivity. Qed.

Lemma Find_cyclic_6 fuel :
  Find (S fuel) cyclic_map 19 6 = Find fuel cyclic_map 19 5.
Proof. reflexivity. Qed.

Lemma Find_cyclic fuel :
  Find fuel cyclic_map 19 5 = OutOfFuel ∧ Find fuel cyclic_map 19 6 = OutOfFuel.
Proof.
  induction fuel as [|fuel [IH5 IH6]]; [done|].
  by rewrite Find_cyclic_5, Find_cyclic_6.
Qed.

Lemma bucket_cyclic_19 : bucket cyclic_map 19 = Ret 5.
Proof. reflexivity. Qed.

(** C1 (defect): [cyclic_ops] is a sequence of [insert] and [erase] calls on
    an empty map after which [find] of the absent key 19 never returns,
    while the reference map reports the key as absent. *)
Theorem find_diverges_after_cyclic_ops :
  run_new cyclic_ops = Ret cyclic_map ∧
  ref_find (ref_run 0 cyclic_ops) 19 = None ∧
  ∀ fuel, find fuel cyclic_map 19 = OutOfFuel.
Proof.
  split; [apply cyclic_map_reached|]. split; [by vm_compute|].
  intros fuel. unfold find.
  rewrite bucket_cyclic_19, Ret_bind. by destruct (Find_cyclic fuel) as [-> _].
Qed.

(** C3 (defect): on the map built by [cyclic_ops] the key 19 is absent and
    [operator[]] of 19 never returns. *)
Theorem subscript_diverges_after_cyclic_ops :
  run_new cyclic_ops = Ret cyclic_map ∧
  (19 ∉ (elements cyclic_map).*1) ∧
  ∀ fuel, subscript 0 fuel cyclic_map 19 = OutOfFuel.
Proof.
  split; [apply cyclic_map_reached|]. split.
  - vm_compute. intros Hin. repeat (apply elem_of_cons in Hin as [?|Hin]; [done|]).
    by apply elem_of_nil in Hin.
  - intros fuel. unfold subscript.
    rewrite bucket_cyclic_19, Ret_bind. by destruct (Find_cyclic fuel) as [-> _].
Qed.

(** *** Duplicate keys *)

(** C4 (defect): the initializer-list constructor stores both pairs of
    [duplicate_list]; the map then holds two entries with key 1 in two
    slots and reports size 2. *)
Theorem init_list_keeps_duplicate_keys :
  ∃ st,
    HashMap_init_list 64 duplicate_list id_hash = Ret st ∧
    size st = 2 ∧
    elements st = [(1, 10); (1, 20)] ∧
    (∃ s, vec_get (data_ st) 1 = Ret s ∧ used s = true ∧
          deref (values_ st) (value s) = Ret (1, 10)) ∧
    (∃ s, vec_get (data_ st) 5 = Ret s ∧ used s = true ∧
          deref (values_ st) (value s) = Ret (1, 20)).
Proof.
  eexists. split; [vm_compute; reflexivity|].
  split; [reflexivity|]. split; [reflexivity|].
  split; eexists; (split; [vm_compute; reflexivity|]); split; reflexivity.
Qed.

Lemma range_keeps_duplicate_keys :
  ∃ st,
    HashMap_range 64 duplicate_list id_hash = Ret st ∧
    size st = 2 ∧ elements st = [(1, 10); (1, 20)].
Proof. eexists. split; [vm_compute; reflexivity|]. split; reflexivity. Qed.

(** *** [clear] *)

(** C7 (defect): after [cleared_ops] slot 0 is still deleted rather than
    empty and still links to slot 3, although the map is empty. *)
Theorem clear_leaves_deleted_slot :
  ∃ st s,
    run_new cleared_ops = Ret st ∧
    size st = 0 ∧ values_ st = [] ∧ positions_ st = [] ∧
    vec_get (data_ st) 0 = Ret s ∧
    is_empty_slot s = false ∧ is_tombstone s = true ∧ next s = 3.
Proof.
  do 2 eexists. split; [vm_compute; reflexivity|].
  do 3 (split; [reflexivity|]). split; [vm_compute; reflexivity|].
  repeat split.
Qed.

(** *** Copy assignment *)

(** C8 refuted: [emptied_map] and [new_map] both hold no entry, and
    assigning [new_map] to [emptied_map] leaves the latter with its 7 primary
    and 2 cellar slots, while [new_map] has 3 and 1.  Where the table is
    rebuilt its sizes can differ as well: the seven entries of [crowded_map]
    sit in 17 primary slots, and inserting them into an empty table of that
    size triggers a rehash to 37. *)
Lemma assign_does_not_copy_sizes :
  (run_new [] = Ret new_map ∧
   run_new emptied_ops = Ret emptied_map ∧
   elements emptied_map = elements new_map ∧
   ∃ r, assign 64 emptied_map new_map = Ret r ∧
        ¬ (primary_size_ r = primary_size_ new_map ∧
           cellar_size_ r = cellar_size_ new_map)) ∧
  (run_new crowded_ops = Ret crowded_map ∧
   elements new_map ≠ elements crowded_map ∧
   ∃ r, assign 64 new_map crowded_map = Ret r ∧
        ¬ (primary_size_ r = primary_size_ crowded_map ∧
           cellar_size_ r = cellar_size_ crowded_map)).
Proof.
  split.
  - split; [apply new_map_reached|]. split; [apply emptied_map_reached|].
    split; [reflexivity|]. eexists. split; [vm_compute; reflexivity|].
    simpl. intros [? _]. done.
  - split; [apply crowded_map_reached|]. split; [done|].
    eexists. split; [vm_compute; reflexivity|]. simpl. intros [? _]. done.
Qed.

(** The copy constructor rebuilds in the same way. *)
Lemma copy_may_grow :
  primary_size_ crowded_map = 17 ∧
  ∃ r, HashMap_copy 64 crowded_map = Ret r ∧ primary_size_ r = 37.
Proof.
  split; [reflexivity|]. eexists. split; [vm_compute; reflexivity|reflexivity].
Qed.

(** *** Coalescing chains *)

(** C5 refuted: [coalesced_ops] only inserts, and the entry of key 16, whose
    bucket is 16, then lies in slot 15 on the chain that starts at bucket 0;
    after [cyclic_ops] the walk from bucket 5 comes back to slot 5. *)
Lemma chains_coalesce_and_cycle :
  (run_new coalesced_ops = Ret coalesced_map ∧ ¬ own_head_only coalesced_map) ∧
  (run_new cyclic_ops = Ret cyclic_map ∧ ¬ never_revisits cyclic_map).
Proof.
  split.
  - split; [apply coalesced_map_reached|]. intros Hown.
    assert (chain (data_ coalesced_map) 0 15) as Hch.
    { do 5 (eapply chain_next; [reflexivity|reflexivity|done|]; simpl).
      constructor. }
    assert (home coalesced_map 16 = 0) as Hhome.
    { apply (Hown 0 15 (mkData (node 6) true false 5 NONE) (16, 0));
        [by vm_compute|exact Hch|reflexivity..]. }
    vm_compute in Hhome. done.
  - split; [apply cyclic_map_reached|]. intros Hnever.
    apply (Hnever 5 5 (mkData (node 6) true false 2 6));
      [by vm_compute|constructor|reflexivity|reflexivity|done|].
    eapply chain_next; [reflexivity|reflexivity|done|]. constructor.
Qed.

(** *** The scan leaves the cellar *)

(** C6 refuted: in [full_cellar_map], which three insertions have built,
    the insertion of key 21 reaches the end of the chain of bucket 0 at slot
    7, and the scan takes slot 6, which lies in the primary region (the
    cellar is made of the slots 7 and 8). *)
Lemma scan_leaves_cellar :
  run_new full_cellar_ops = Ret full_cellar_map ∧
  primary_size_ full_cellar_map = 7 ∧ cellar_size_ full_cellar_map = 2 ∧
  chain_walk 64 (data_ full_cellar_map) 0 0 = Ret (7, 2) ∧
  free_scan 64 full_cellar_map (start_pos_ full_cellar_map) 2 = Ret (Some 6) ∧
  (∃ st', Insert 65 full_cellar_map (21, 0) 0 = Ret (st', 6)) ∧
  ¬ (primary_size_ full_cellar_map ≤ 6).
Proof.
  split; [apply full_cellar_map_reached|].
  do 4 (split; [vm_compute; reflexivity|]).
  split; [eexists; vm_compute; reflexivity|]. simpl. lia.
Qed.

(** *** The general statements at concrete maps *)

Lemma iteration_in_insertion_order_witness :
  (st0 ← HashMap_new 64 id_hash; run 0 64 mixed_ops st0) = Ret mixed_map ∧
  (traverse (S (length (values_ mixed_map))) mixed_map (begin mixed_map)
     = Ret (ref_run 0 mixed_ops) ∧
   (∀ fuel' x pos st' pos',
      Insert fuel' mixed_map x pos = Ret (st', pos') →
      elements st' = elements mixed_map ++ [x]) ∧
   (∀ fuel' n st',
      Rehash fuel' mixed_map n = Ret st' → elements st' = elements mixed_map)).
Proof.
  split; [vm_compute; reflexivity|].
  apply (iteration_in_insertion_order 0 64 id_hash mixed_ops mixed_map).
  vm_compute. reflexivity.
Defined.

Lemma primary_size_tabulated_witness :
  reachable 0 mixed_map ∧
  (primary_size_ mixed_map ∈ PRIMES ∧ 2 ≤ primary_size_ mixed_map ∧
   (∀ key, bucket mixed_map key
           = Ret (hasher_ mixed_map key `mod` primary_size_ mixed_map)) ∧
   (∀ fuel hf, ∃ st0 : HashMap Z Z,
      HashMap_new fuel hf = Ret st0 ∧
      primary_size_ st0 = 3 ∧ cellar_size_ st0 = 1)).
Proof.
  split; [exact (run_new_reachable _ _ mixed_map_reached)|].
  apply (primary_size_tabulated 0 mixed_map).
  exact (run_new_reachable _ _ mixed_map_reached).
Defined.

Lemma entries_reachable_from_home_witness :
  reachable 0 coalesced_map ∧
  ((∀ h x, (h, x) ∈ values_ coalesced_map →
      (∃ i s, chain (data_ coalesced_map) (home coalesced_map x.1) i ∧
              vec_get (data_ coalesced_map) i = Ret s ∧ used s = true ∧
              value s = node h) ∧
      (∃ fuel p, ∀ fuel', (fuel ≤ fuel')%nat →
         Find fuel' coalesced_map x.1 (home coalesced_map x.1) = Ret p ∧
         p ≠ NONE) ∧
      (∃ fuel it, ∀ fuel', (fuel ≤ fuel')%nat →
         find fuel' coalesced_map x.1 = Ret it ∧ it ≠ list_end)) ∧
   (erase_free 0 coalesced_map →
      never_revisits coalesced_map ∧
      ∀ key pos distance fuel,
        (length (positions_ coalesced_map) + 2 ≤ fuel)%nat →
        Find fuel coalesced_map key pos ≠ OutOfFuel ∧
        chain_walk fuel (data_ coalesced_map) pos distance ≠ OutOfFuel)).
Proof.
  split; [exact (run_new_reachable _ _ coalesced_map_reached)|].
  apply (entries_reachable_from_home 0 coalesced_map).
  exact (run_new_reachable _ _ coalesced_map_reached).
Defined.

Lemma full_cellar_map_erase_free : erase_free 0 full_cellar_map.
Proof.
  by apply (run_new_erase_free full_cellar_ops), full_cellar_map_reached.
Qed.

Lemma Insert_links_first_empty_witness :
  rehash_if_loaded (Insert 64) full_cellar_map (21, 0) 0
    = Ret (full_cellar_map, 0) ∧
  vec_get (data_ full_cellar_map) 0 = Ret (mkData (node 1) true false 0 8) ∧
  chain_walk 64 (data_ full_cellar_map) 0 0 = Ret (7, 2) ∧
  vec_get (data_ full_cellar_map) 7 = Ret (mkData (node 3) true false 2 NONE) ∧
  free_scan 64 full_cellar_map (start_pos_ full_cellar_map) 2 = Ret (Some 6) ∧
  erase_free 0 full_cellar_map ∧
  bucket full_cellar_map 21 = Ret 0 ∧
  (∃ st', Insert 65 full_cellar_map (21, 0) 0 = Ret (st', 6)) ∧
  ((∃ k : nat,
      6 = Nat.iter k (step_down full_cellar_map) (start_pos_ full_cellar_map)) ∧
   (∀ st' pos', Insert 65 full_cellar_map (21, 0) 0 = Ret (st', pos') →
      pos' = 6 ∧ start_pos_ st' = 6 ∧
      (∃ s, vec_get (data_ st') 7 = Ret s ∧ used s = true ∧ next s = 6) ∧
      (∃ s, vec_get (data_ st') 6 = Ret s ∧ used s = true ∧
            deref (values_ st') (value s) = Ret (21, 0))) ∧
   (∃ k : nat,
      6 = Nat.iter k (step_down full_cellar_map) (start_pos_ full_cellar_map) ∧
      (∃ s, vec_get (data_ full_cellar_map) 6 = Ret s ∧
            is_empty_slot s = true ∧ next s = NONE) ∧
      ∀ j : nat, (j < k)%nat →
        ∃ s, vec_get (data_ full_cellar_map)
               (Nat.iter j (step_down full_cellar_map)
                  (start_pos_ full_cellar_map)) = Ret s ∧
             used s = true) ∧
   links_to_used full_cellar_map ∧
   (∀ i s, vec_get (data_ full_cellar_map) i = Ret s → next s ≠ 6) ∧
   (∀ st' pos', Insert 65 full_cellar_map (21, 0) 0 = Ret (st', pos') →
      links_to_used st')).
Proof.
  do 5 (split; [vm_compute; reflexivity|]).
  split; [exact full_cellar_map_erase_free|].
  split; [vm_compute; reflexivity|].
  split; [eexists; vm_compute; reflexivity|].
  destruct (Insert_links_first_empty 0 64 full_cellar_map (21, 0) 0
              full_cellar_map 0
              (mkData (node 1) true false 0 8) 7 2
              (mkData (node 3) true false 2 NONE) 6) as (H1 & H2 & H3);
    [vm_compute; reflexivity..|].
  split; [exact H1|]. split; [exact H2|].
  apply H3; [exact full_cellar_map_erase_free|vm_compute; reflexivity].
Defined.

Lemma assign_spec_witness :
  assign 64 new_map mixed_map = Ret assigned_map ∧
  (elements assigned_map = elements mixed_map ∧
   (elements new_map = elements mixed_map → assigned_map = new_map) ∧
   (elements new_map ≠ elements mixed_map →
      wf assigned_map ∧ hasher_ assigned_map = hasher_ mixed_map ∧
      insert_all (Insert 64) (elements mixed_map)
        (fresh_table [] (primary_size_ mixed_map) (cellar_size_ mixed_map)
           (hasher_ mixed_map)) = Ret assigned_map)).
Proof.
  split; [vm_compute; reflexivity|].
  apply (assign_spec 64 new_map mixed_map assigned_map).
  vm_compute. reflexivity.
Defined.
(** ** The static tables *)

Lemma increasing_lt a l q : increasing (a :: l) = true → q ∈ l → a < q.
Proof.
  revert a. induction l as [|b l IH]; intros a Hinc Hq.
  - by apply elem_of_nil in Hq.
  - simpl in Hinc. apply andb_true_iff in Hinc as [Hab Hinc].
    apply Z.ltb_lt in Hab. apply elem_of_cons in Hq as [->|Hq]; [done|].
    specialize (IH b Hinc Hq). lia.
Qed.

Lemma increasing_tail a l : increasing (a :: l) = true → increasing l = true.
Proof.
  destruct l as [|b l]; [done|]. simpl. by intros [_ ?]%andb_true_iff.
Qed.

(** In an increasing list, the first element that is at least [value] is
    the least one. *)
Lemma find_least value l p :
  increasing l = true →
  List.find (λ p, value <=? p) l = Some p →
  p ∈ l ∧ value ≤ p ∧ ∀ q, q ∈ l → value ≤ q → p ≤ q.
Proof.
  induction l as [|a l IH]; intros Hinc Hf; [done|].
  simpl in Hf. destruct (value <=? a) eqn:E.
  - injection Hf as ->. apply Z.leb_le in E.
    split; [left|]. split; [done|].
    intros q [->|Hq]%elem_of_cons _; [lia|].
    pose proof (increasing_lt _ _ _ Hinc Hq). lia.
  - apply Z.leb_gt in E.
    destruct (IH (increasing_tail _ _ Hinc) Hf) as (Hin & Hle & Hleast).
    split; [by right|]. split; [done|].
    intros q [->|Hq]%elem_of_cons Hvq; [lia|]. by apply Hleast.
Qed.

Lemma find_none_lt value l q :
  List.find (λ p, value <=? p) l = None → q ∈ l → q < value.
Proof.
  intros Hf Hq. apply list_elem_of_In in Hq.
  pose proof (List.find_none _ _ Hf _ Hq) as E. simpl in E.
  by apply Z.leb_gt in E.
Qed.

Lemma PRIMES_split :
  tail PRIMES = removelast (tail PRIMES) ++ [18446744073709551557].
Proof. reflexivity. Qed.

(** The two outcomes of the binary search in [NextPrime]. *)
Lemma NextPrime_cases value :
  (NextPrime value ∈ removelast (tail PRIMES) ∧
   value ≤ NextPrime value ∧
   NextPrime value < 18446744073709551557 ∧
   ∀ q, q ∈ removelast (tail PRIMES) → value ≤ q → NextPrime value ≤ q) ∨
  (NextPrime value = 18446744073709551557 ∧
   ∀ q, q ∈ removelast (tail PRIMES) → q < value).
Proof.
  assert (increasing (removelast (tail PRIMES)) = true) as Hinc
    by (vm_compute; reflexivity).
  unfold NextPrime.
  destruct (List.find _ _) as [p|] eqn:E.
  - left. destruct (find_least _ _ _ Hinc E) as (Hin & Hle & Hleast).
    split; [done|]. split; [done|]. split; [|done].
    assert (forallb (λ q, q <? 18446744073709551557)
              (removelast (tail PRIMES)) = true) as Hall
      by (vm_compute; reflexivity).
    rewrite forallb_forall in Hall. apply Z.ltb_lt, Hall.
    by apply list_elem_of_In.
  - right. split; [reflexivity|]. intros q Hq. by eapply find_none_lt.
Qed.

(** X1: [NextPrime] returns an entry of [PRIMES] other than the first one.
    For a [value] up to the last entry it is the least such entry that is
    at least [value]; for a larger [value] it is the last entry, which is
    smaller than [value]. *)
Theorem NextPrime_least value :
  NextPrime value ∈ tail PRIMES ∧
  (value ≤ 18446744073709551557 →
     value ≤ NextPrime value ∧
     ∀ p, p ∈ tail PRIMES → value ≤ p → NextPrime value ≤ p) ∧
  (18446744073709551557 < value → NextPrime value = 18446744073709551557).
Proof.
  destruct (NextPrime_cases value) as [(Hin & Hle & Hlt & Hleast)|[E Hnone]].
  - split; [rewrite PRIMES_split; apply elem_of_app; by left|].
    split; [|lia]. intros _. split; [done|].
    intros q Hq Hvq. rewrite PRIMES_split in Hq.
    apply elem_of_app in Hq as [Hq|Hq]; [by apply Hleast|].
    apply list_elem_of_singleton in Hq as ->. lia.
  - rewrite E.
    split; [rewrite PRIMES_split; apply elem_of_app; right; left|].
    split; [|done]. intros Hv. split; [done|].
    intros q Hq Hvq. rewrite PRIMES_split in Hq.
    apply elem_of_app in Hq as [Hq|Hq].
    + pose proof (Hnone _ Hq). lia.
    + apply list_elem_of_singleton in Hq as ->. lia.
Qed.

Lemma switch_on_cases cases dflt x :
  switch_on cases dflt x = dflt ∨ (x, switch_on cases dflt x) ∈ cases.
Proof.
  induction cases as [|[c r] cases IH]; simpl; [by left|].
  destruct (x =? c) eqn:E.
  - apply Z.eqb_eq in E as ->. right. left.
  - destruct IH as [->|IH]; [by left|]. right. by right.
Qed.

Lemma switch_on_default cases dflt x :
  x ∉ cases.*1 → switch_on cases dflt x = dflt.
Proof.
  induction cases as [|[c r] cases IH]; simpl; [done|].
  intros Hx. apply not_elem_of_cons in Hx as [Hxc Hx].
  destruct (x =? c) eqn:E; [by apply Z.eqb_eq in E|]. by apply IH.
Qed.

(** X2: [GetMaxLookups] is the logarithm to base 2, rounded up, of every
    entry of [PRIMES] from 17 on, and 4 for every other argument; its value
    lies between 4 and 64. *)
Theorem GetMaxLookups_log2 primary_size :
  (primary_size ∈ PRIMES →
     GetMaxLookups primary_size = Z.max 4 (Z.log2_up primary_size)) ∧
  ((primary_size ∉ PRIMES) ∨ primary_size < 17 →
     GetMaxLookups primary_size = 4) ∧
  4 ≤ GetMaxLookups primary_size ≤ 64.
Proof.
  split; [|split].
  - intros Hin.
    assert (forallb (λ p, GetMaxLookups p =? Z.max 4 (Z.log2_up p)) PRIMES = true)
      as Hall by (vm_compute; reflexivity).
    rewrite forallb_forall in Hall. apply Z.eqb_eq, Hall.
    by apply list_elem_of_In.
  - intros Hout. apply switch_on_default. intros Hin.
    apply list_elem_of_In in Hin.
    assert (forallb (λ c, existsb (Z.eqb c) PRIMES && (17 <=? c))
              MAX_LOOKUPS.*1 = true) as Hall by (vm_compute; reflexivity).
    rewrite forallb_forall in Hall. apply Hall in Hin.
    apply andb_true_iff in Hin as [Hp Hge]. apply Z.leb_le in Hge.
    apply existsb_exists in Hp as (q & Hq & ->%Z.eqb_eq).
    apply list_elem_of_In in Hq. destruct Hout as [Hout|Hout]; [done|lia].
  - unfold GetMaxLookups.
    destruct (switch_on_cases MAX_LOOKUPS 4 primary_size) as [->|Hin]; [lia|].
    assert (forallb (λ c, (4 <=? c.2) && (c.2 <=? 64)) MAX_LOOKUPS = true)
      as Hall by (vm_compute; reflexivity).
    rewrite forallb_forall in Hall. apply list_elem_of_In, Hall in Hin.
    cbn [snd] in Hin. apply andb_true_iff in Hin as [?%Z.leb_le ?%Z.leb_le]. lia.
Qed.

(** ** The bookkeeping of the table *)

Section Shape.

Context {Key T : Type} `{EqDecision Key} `{EqDecision T}.

Variable T_new : T.

Local Abbreviation ValueType := (@ValueType Key T).
Local Abbreviation HashMap := (HashMap Key T).

Implicit Types (st : HashMap) (x : ValueType) (pos : Z) (key : Key).
Implicit Types (ins : HashMap → ValueType → Z → outcome (HashMap * Z)).

Lemma wrap_small z : 0 ≤ z < 2 ^ 64 → wrap z = z.
Proof. intros Hz. unfold wrap. by apply Z.mod_small. Qed.

Lemma wrap_range z : 0 ≤ wrap z < 2 ^ 64.
Proof. unfold wrap. apply Z.mod_pos_bound. lia. Qed.

Lemma fresh_table_shaped primary_size (hf : Key → Z) :
  shaped (fresh_table (T:=T) [] primary_size (cellar_of primary_size) hf).
Proof.
  split; simpl; [done|done| |done| |by left].
  - rewrite length_replicate, Z2Nat.id; [done|].
    apply wrap_range.
  - by intros i s ->%vec_get_replicate.
Qed.

Lemma store_shaped st x pos st' pos' :
  wf st' → shaped st → store st x pos = Ret (st', pos') → shaped st'.
Proof.
  intros Hwf' Hsh Hst.
  pose proof (wf_positions_length _ Hwf') as Hle.
  pose proof (wf_length _ Hwf') as Hlt.
  apply store_inv in Hst as (s & d & Hs & Hd & -> & ->). simpl in *.
  rewrite length_app in Hle. simpl in Hle.
  pose proof (shaped_positions _ Hsh) as Hps.
  split; simpl.
  - rewrite (shaped_count _ Hsh), length_app. simpl.
    rewrite wrap_small; lia.
  - rewrite !length_app. simpl. lia.
  - rewrite (vec_set_length _ _ _ _ Hd). by apply shaped_length.
  - by apply shaped_cellar.
  - intros i s' Hi Hn. rewrite (vec_set_length _ _ _ _ Hd).
    destruct (vec_get_set _ _ _ _ _ _ Hd Hi) as [[-> ->]|[_ Hi']].
    + simpl in *. by eapply (shaped_links _ Hsh).
    + by eapply (shaped_links _ Hsh).
  - rewrite (vec_set_length _ _ _ _ Hd). by apply shaped_start.
Qed.

Lemma link_shaped st last last_slot next_free sf d :
  shaped st →
  vec_get (data_ st) last = Ret last_slot →
  vec_get (data_ st) next_free = Ret sf →
  vec_set (data_ st) last (set_next last_slot next_free) = Ret d →
  shaped (with_data (with_start_pos st next_free) d).
Proof.
  intros Hsh Hl Hf Hd. apply vec_get_range in Hf.
  split; simpl; rewrite ?(vec_set_length _ _ _ _ Hd).
  - by apply shaped_count.
  - by apply shaped_positions.
  - by apply shaped_length.
  - by apply shaped_cellar.
  - intros i s' Hi Hn.
    destruct (vec_get_set _ _ _ _ _ _ Hd Hi) as [[-> ->]|[_ Hi']]; [done|].
    by eapply (shaped_links _ Hsh).
  - by right.
Qed.

Lemma insert_all_shaped ins xs st st' :
  inserts_ok ins → inserts_shaped ins → wf st → shaped st →
  insert_all ins xs st = Ret st' → shaped st'.
Proof.
  intros Hok Hins. revert st. induction xs as [|x xs IH]; intros st Hwf Hsh Hrun.
  - by ret_inv Hrun.
  - apply insert_all_cons in Hrun as (pos & st1 & pos1 & Hb & H1 & Hrun).
    eapply IH; [| |done].
    + by eapply Hok.
    + by eapply Hins.
Qed.

Lemma Rehash_with_shaped ins st n st' :
  inserts_ok ins → inserts_shaped ins → (values_ st = [] → positions_ st = []) →
  Rehash_with ins st n = Ret st' → shaped st'.
Proof.
  intros Hok Hins Hps. rewrite Rehash_with_unfold. destruct (values_ st).
  - rewrite Hps by done. intros Hr. ret_inv Hr. apply fresh_table_shaped.
  - apply insert_all_shaped; [done|done|apply fresh_table_wf|].
    apply fresh_table_shaped.
Qed.

Lemma placement_shaped fuel st x pos st' pos' :
  inserts_shaped (Insert (Key:=Key) (T:=T) fuel) → wf st → shaped st →
  wf st' → pos = home st x.1 →
  placement fuel st x pos st' pos' → shaped st'.
Proof.
  intros IH Hwf Hsh Hwf' -> [head Hh Hu Hst|head last distance last_slot Hh Hu Hw Hl Hul Hst
    |head last distance last_slot next_free d Hh Hu Hw Hl Hul Hf Hd Hst
    |head last distance last_slot st2 pos2 Hh Hu Hw Hl Hul Hf Hre Hb Hin].
  - by eapply store_shaped.
  - by eapply store_shaped.
  - apply free_scan_unused in Hf as (sf & Hsf & Huf).
    eapply store_shaped; [exact Hwf'| |exact Hst].
    eapply link_shaped; [exact Hsh|exact Hl|exact Hsf|exact Hd].
  - pose proof Hre as Hre'.
    apply Rehash_with_wf in Hre'; [|apply Insert_ok|by apply wf_positions_nil].
    apply Rehash_with_shaped in Hre;
      [|apply Insert_ok|done|by apply wf_positions_nil].
    eapply IH; [exact Hre'|exact Hre|exact Hb|exact Hin].
Qed.

Lemma Insert_shaped fuel : inserts_shaped (Insert (Key:=Key) (T:=T) fuel).
Proof.
  induction fuel as [|fuel IH]; intros st x pos st' pos' Hwf Hsh Hb H0; [done|].
  destruct (Insert_ok _ _ _ _ _ _ Hwf Hb H0) as [Hwf' _].
  apply Insert_inv in H0 as [Hpl|(st1 & pos1 & Hre & Hb1 & Hpl)].
  - apply bucket_Ret in Hb as [_ ->].
    eapply placement_shaped; [exact IH|exact Hwf|exact Hsh|exact Hwf'|done|exact Hpl].
  - pose proof Hre as Hre'.
    apply Rehash_with_wf in Hre'; [|apply Insert_ok|by apply wf_positions_nil].
    apply Rehash_with_shaped in Hre;
      [|apply Insert_ok|done|by apply wf_positions_nil].
    apply bucket_Ret in Hb1 as [_ ->].
    eapply placement_shaped; [exact IH|exact Hre'|exact Hre|exact Hwf'|done|exact Hpl].
Qed.

Lemma Rehash_shaped fuel st n st' :
  (values_ st = [] → positions_ st = []) → Rehash fuel st n = Ret st' → shaped st'.
Proof. apply Rehash_with_shaped; [apply Insert_ok|apply Insert_shaped]. Qed.

Lemma rebuild_from_shaped fuel (other st' : HashMap) :
  cellar_size_ other = cellar_of (primary_size_ other) →
  rebuild_from fuel other = Ret st' → shaped st'.
Proof.
  intros Hc. rewrite rebuild_from_unfold, Hc.
  apply insert_all_shaped;
    [apply Insert_ok|apply Insert_shaped|apply fresh_table_wf|].
  apply fresh_table_shaped.
Qed.

Lemma clear_shaped st st' : shaped st → clear st = Ret st' → shaped st'.
Proof.
  intros Hsh (d & [Hlen Hd]%reset_slots_spec & ->)%clear_inv.
  split; simpl; rewrite ?Hlen.
  - done.
  - done.
  - by apply shaped_length.
  - by apply shaped_cellar.
  - intros i s [->|[_ Hs]]%Hd Hn; [done|]. by eapply (shaped_links _ Hsh).
  - by left.
Qed.

Lemma filter_node_length (vs : list (nat * ValueType)) h :
  NoDup vs.*1 → h ∈ vs.*1 →
  length (filter (λ e, e.1 ≠ h) vs) = pred (length vs).
Proof.
  induction vs as [|[h0 y] vs IH]; csimpl; intros Hnd Hh.
  - by apply elem_of_nil in Hh.
  - apply list.NoDup_cons in Hnd as [Hh0 Hnd].
    destruct (decide (h0 = h)) as [->|Hne].
    + rewrite filter_cons_False by (simpl; intros ?; done).
      rewrite filter_all; [done|].
      intros [h1 z] Hin. simpl. intros ->. apply Hh0.
      apply list_elem_of_fmap. by exists (h, z).
    + rewrite filter_cons_True by done. simpl.
      apply elem_of_cons in Hh as [->|Hh]; [done|].
      rewrite IH by done. destruct vs; [by apply elem_of_nil in Hh|done].
Qed.

Lemma erase_at_shaped st pos s st' :
  wf st → shaped st → vec_get (data_ st) pos = Ret s → used s = true →
  erase_at st pos = Ret st' → shaped st'.
Proof.
  intros Hwf Hsh Hs Hu He.
  destruct (erase_at_inv _ _ _ _ Hwf Hs Hu He)
    as (h & back & b & d1 & d2 & Hv & Hlast & Hb & Hd1 & Hd2 & ->).
  destruct (wf_used _ Hwf _ _ Hs Hu) as (h' & Hv' & Hh & Hp).
  rewrite Hv in Hv'. injection Hv' as <-.
  pose proof (shaped_positions _ Hsh) as Hps.
  pose proof (vec_get_range _ _ _ Hp) as Hr.
  assert (length d2 = length (data_ st)) as Hlen.
  { by rewrite (vec_set_length _ _ _ _ Hd2), (vec_set_length _ _ _ _ Hd1). }
  pose proof (filter_node_length _ _ (wf_nodes _ Hwf) Hh) as Hfl.
  split; simpl; rewrite ?Hlen.
  - rewrite (shaped_count _ Hsh), Hfl.
    pose proof (wf_positions_length _ Hwf). pose proof (wf_length _ Hwf).
    rewrite wrap_small; lia.
  - rewrite length_take, length_insert, Hfl. lia.
  - by apply shaped_length.
  - by apply shaped_cellar.
  - intros i s' Hi Hn.
    destruct (vec_get_set _ _ _ _ _ _ Hd2 Hi) as [[-> ->]|[_ Hi1]].
    { simpl in *. by eapply (shaped_links _ Hsh). }
    destruct (vec_get_set _ _ _ _ _ _ Hd1 Hi1) as [[-> ->]|[_ Hi2]].
    { simpl in *. by eapply (shaped_links _ Hsh). }
    by eapply (shaped_links _ Hsh).
  - by apply shaped_start.
Qed.

Lemma insert_shaped fuel st x st' :
  wf st → shaped st → insert fuel st x = Ret st' → shaped st'.
Proof.
  intros Hwf Hsh (HP & p & Hf & [[-> (pos' & Hi)]|[_ ->]])%insert_inv; [|done].
  eapply Insert_shaped; [done|done| |done]. by apply bucket_Ret.
Qed.

Lemma erase_shaped fuel st key st' :
  wf st → shaped st → erase fuel st key = Ret st' → shaped st'.
Proof.
  intros Hwf Hsh (HP & p & Hf & [[_ ->]|[Hp He]])%erase_inv; [done|].
  destruct (Find_found _ _ _ _ _ Hf Hp) as (s & x & Hs & Hu & _).
  by eapply erase_at_shaped.
Qed.

Lemma subscript_shaped fuel st key st' it v :
  wf st → shaped st → subscript T_new fuel st key = Ret (st', it, v) →
  shaped st'.
Proof.
  intros Hwf Hsh (HP & p & Hf & [(_ & -> & _)|(_ & pos' & s & x & Hi & _)])%subscript_inv;
    [done|].
  eapply Insert_shaped; [done|done| |done]. by apply bucket_Ret.
Qed.

Lemma reachable_shaped st : reachable T_new st → shaped st.
Proof.
  induction 1 as [fuel hf st Hn|fuel xs hf st Hn|fuel xs hf st Hn
    |fuel other st Hre IH Hc|fuel this other st Hre1 IH1 Hre2 IH2 Ha
    |st st' Hre IH Hc|fuel st x st' Hre IH Hi|fuel st key st' Hre IH He
    |fuel st key st' it v Hre IH Hs].
  - rewrite HashMap_new_eq in Hn. ret_inv Hn. apply (fresh_table_shaped 3).
  - unfold HashMap_range in Hn. rewrite HashMap_new_eq in Hn. simpl in Hn.
    by apply Rehash_shaped in Hn.
  - unfold HashMap_init_list in Hn. rewrite HashMap_new_eq in Hn. simpl in Hn.
    by apply Rehash_shaped in Hn.
  - eapply rebuild_from_shaped; [|done]. by apply shaped_cellar.
  - unfold assign in Ha. destruct (decide _); [|by ret_inv Ha].
    eapply rebuild_from_shaped; [|done]. by apply shaped_cellar.
  - by eapply clear_shaped.
  - eapply insert_shaped; [|done..]. by eapply reachable_wf.
  - eapply erase_shaped; [|done..]. by eapply reachable_wf.
  - eapply subscript_shaped; [|done..]. by eapply reachable_wf.
Qed.

End Shape.

(** ** What the scalar fields say about every map *)

Section Dimensions.

Context {Key T : Type} `{EqDecision Key} `{EqDecision T}.

Variable T_new : T.

Local Abbreviation ValueType := (@ValueType Key T).
Local Abbreviation HashMap := (HashMap Key T).

Implicit Types (st : HashMap) (x : ValueType) (pos : Z) (key : Key).

Lemma elements_nil st : elements st = [] ↔ values_ st = [].
Proof.
  unfold elements. split; [|by intros ->].
  by intros ?%fmap_nil_inv.
Qed.

(** X3: in every map that the public interface produces, [size()] is the
    number of entries that a traversal visits, [empty()] holds exactly when
    there is no entry, and so does [begin() == end()]. *)
Theorem size_counts_entries st :
  reachable T_new st →
  size st = Z.of_nat (length (elements st)) ∧
  (empty st = true ↔ elements st = []) ∧
  (begin st = end_ st ↔ elements st = []).
Proof.
  intros Hre. pose proof (reachable_shaped T_new _ Hre) as Hsh.
  assert (size st = Z.of_nat (length (elements st))) as Hsize.
  { unfold size, elements. rewrite length_fmap. by apply shaped_count. }
  split; [done|]. split.
  - unfold empty. rewrite Hsize, Z.eqb_eq.
    split; [|by intros ->].
    intros Hl. apply nil_length_inv. lia.
  - rewrite elements_nil. unfold begin, end_.
    destruct (values_ st) as [|[h x] vs]; [done|]. split; done.
Qed.

(** [B] is the single precision number next to 7/43, 10924699 * 2^-26.
    At small primary sizes the cellar size is the integral part of
    [primary_size * 7 / 43 + 1]; from 6584983 on, the rounding of the
    conversion, of the product and of the sum makes it another number. *)
Lemma B_value : B = S754_finite false 10924699 (-26).
Proof. vm_compute. reflexivity. Qed.

Lemma cellar_of_values :
  cellar_of 3 = 1 ∧ cellar_of 7 = 2 ∧ cellar_of 17 = 3 ∧
  cellar_of 6584983 = 1071975 ∧ 6584983 * 7 / 43 + 1 = 1071974 ∧
  cellar_of 18446744073709551557 = 3002958395113209856.
Proof. repeat split; vm_compute; reflexivity. Qed.

(** The cellar sizes of the entries of [PRIMES], in the order of the
    table. *)
Lemma cellar_of_PRIMES :
  cellar_of <$> PRIMES =
  [1; 1; 1; 2; 2; 3; 3; 4; 5; 7; 8; 10; 12; 16; 21; 25; 33; 41; 51; 65; 82;
   103; 130; 165; 205; 260; 328; 414; 522; 656; 829; 1046; 1317; 1660;
   2093; 2637; 3321; 4187; 5275; 6646; 8374; 10551; 13292; 16748; 21099;
   26585; 33496; 42201; 53171; 66993; 84409; 106346; 133996; 168824;
   212703; 267993; 337649; 425410; 535987; 675302; 850825; 1071975;
   1350602; 1701653; 2143950; 2701207; 3403308; 4287903; 5402419; 6806621;
   8575810; 10804846; 13613250; 17151620; 21609684; 27226500; 34303240;
   43219376; 54452996; 68606480; 86438744; 108906000; 137212960; 172877488;
   217812000; 274425920; 345754976; 435624000; 548851840; 691509952;
   871248000; 1097703680; 1383019904; 1742496000; 2195407360; 2766039808;
   3484992000; 4390814720; 5532079616; 6969984000; 8781629440; 11064159232;
   13939968000; 17563258880; 22128318464; 27879936000; 35126517760;
   44256636928; 55759872000; 70253035520; 88513273856; 111519744000;
   140506071040; 177026547712; 223039488000; 281012142080; 354053095424;
   446078976000; 562024284160; 708106190848; 892157952000; 1124048568320;
   1416212381696; 1784315904000; 2248097136640; 2832424763392;
   3568631808000; 4496194273280; 5664849526784; 7137263616000;
   8992388546560; 11329699053568; 14274527232000; 17984777093120;
   22659398107136; 28549054464000; 35969554186240; 45318796214272;
   57098108928000; 71939108372480; 90637592428544; 114196217856000;
   143878216744960; 181275184857088; 228392435712000; 287756433489920;
   362550369714176; 456784871424000; 575512866979840; 725100739428352;
   913569742848000; 1151025733959680; 1450201478856704; 1827139485696000;
   2302051467919360; 2900402957713408; 3654278971392000; 4604102935838720;
   5800805915426816; 7308557942784000; 9208205871677440; 11601611830853632;
   14617115885568000; 18416411743354880; 23203223661707264;
   29234231771136000; 36832823486709760; 46406447323414528;
   58468463542272000; 73665646973419520; 92812894646829056;
   116936927084544000; 147331293946839040; 185625789293658112;
   233873854169088000; 294662587893678080; 371251578587316224;
   467747708338176000; 589325175787356160; 742503157174632448;
   935495416676352000; 1178650351574712320; 1485006314349264896;
   1870990833352704000; 2357300703149424640; 3002958395113209856].
Proof. vm_compute. reflexivity. Qed.

(** At every entry of [PRIMES] the sum that is converted to [SizeType] is a
    positive number whose integral part fits; every table has a cellar, and
    the last entry is the only one with which the number of slots does not
    fit into [SizeType]. *)
Lemma cellar_of_tabulated p :
  p ∈ PRIMES →
  1 ≤ cellar_of p < 2 ^ 62 ∧
  (p < 18446744073709551557 ↔ p + cellar_of p < 2 ^ 64) ∧
  p ≤ 18446744073709551557.
Proof.
  intros Hin.
  assert (forallb cellar_checked PRIMES = true) as Hall
    by (vm_compute; reflexivity).
  rewrite forallb_forall in Hall. apply list_elem_of_In, Hall in Hin.
  unfold cellar_checked in Hin. rewrite !andb_true_iff in Hin.
  destruct Hin as [[[_ H1%Z.leb_le] H2%Z.ltb_lt] H3].
  destruct (Z.ltb_spec p 18446744073709551557) as [Hlt|Hge].
  - apply Z.ltb_lt in H3. lia.
  - apply andb_true_iff in H3 as [->%Z.eqb_eq H3%Z.leb_le]. lia.
Qed.

(** The last entry of [PRIMES] is the only one for which the number of slots
    does not fit into [SizeType]. *)
Lemma reachable_roomy st :
  reachable T_new st → primary_size_ st < 18446744073709551557 →
  2 ≤ primary_size_ st ∧ 1 ≤ cellar_size_ st ∧
  primary_size_ st + cellar_size_ st < 2 ^ 64 ∧
  Z.of_nat (length (data_ st)) = primary_size_ st + cellar_size_ st.
Proof.
  intros Hre Hlt. pose proof (reachable_shaped T_new _ Hre) as Hsh.
  pose proof (reachable_tabulated T_new _ Hre) as Htab.
  destruct Htab as [Hin Hge].
  destruct (cellar_of_tabulated _ Hin) as (HC & Hfit & _).
  rewrite (shaped_length _ Hsh), (shaped_cellar _ Hsh).
  rewrite wrap_small by lia. lia.
Qed.

(** X4: in every map that the public interface produces, the cellar has the
    size that [Rehash] computes from the primary size, [data_] has
    [primary_size_ + cellar_size_] slots (modulo 2^64), and every link leads
    to a slot of [data_].  Unless the primary size is the last entry of
    [PRIMES], the sum does not wrap around, and [start_pos_] and the bucket
    of every key are slots of [data_]. *)
Theorem table_dimensions st :
  reachable T_new st →
  cellar_size_ st = cellar_of (primary_size_ st) ∧
  Z.of_nat (length (data_ st)) = wrap (primary_size_ st + cellar_size_ st) ∧
  (∀ i s, vec_get (data_ st) i = Ret s → next s ≠ NONE →
     ∃ s', vec_get (data_ st) (next s) = Ret s') ∧
  (primary_size_ st < 18446744073709551557 →
     Z.of_nat (length (data_ st)) = primary_size_ st + cellar_size_ st ∧
     (∃ s, vec_get (data_ st) (start_pos_ st) = Ret s) ∧
     ∀ key, 0 ≤ home st key < primary_size_ st ∧
            ∃ s, vec_get (data_ st) (home st key) = Ret s).
Proof.
  intros Hre. pose proof (reachable_shaped T_new _ Hre) as Hsh.
  split; [by apply shaped_cellar|]. split; [by apply shaped_length|].
  split.
  - intros i s Hi Hn. apply vec_get_total. by eapply (shaped_links _ Hsh).
  - intros Hlt.
    destruct (reachable_roomy _ Hre Hlt) as (HP & HC & Hsum & Hlen).
    split; [done|]. split.
    + apply vec_get_total.
      destruct (shaped_start _ Hsh) as [->|Hs]; [|done].
      rewrite wrap_small; lia.
    + intros key. unfold home.
      pose proof (Z.mod_pos_bound (hasher_ st key) (primary_size_ st)).
      split; [lia|]. apply vec_get_total. lia.
Qed.

(** X5: in every map that the public interface produces, [positions_] lists
    the slots in use, each once; a slot in use is not marked deleted, its
    [rev_pos] is its index in [positions_], and its iterator designates an
    entry of the list. *)
Theorem positions_list_used_slots st :
  reachable T_new st →
  NoDup (positions_ st) ∧
  length (positions_ st) = length (elements st) ∧
  (∀ i, i ∈ positions_ st ↔
        ∃ s, vec_get (data_ st) i = Ret s ∧ used s = true) ∧
  (∀ i s, vec_get (data_ st) i = Ret s → used s = true →
     deleted s = false ∧
     vec_get (positions_ st) (rev_pos s) = Ret i ∧
     ∃ h x, value s = node h ∧ (h, x) ∈ values_ st ∧
            deref (values_ st) (value s) = Ret x).
Proof.
  intros Hre. pose proof (reachable_shaped T_new _ Hre) as Hsh.
  pose proof (reachable_wf T_new _ Hre) as Hwf.
  split; [by apply wf_positions_NoDup|]. split.
  { unfold elements. rewrite length_fmap. by apply shaped_positions. }
  split.
  - intros i. split.
    + intros [k Hk]%list_elem_of_lookup.
      destruct (wf_positions _ Hwf _ _ Hk) as (s & Hs & Hu & _). eauto.
    + intros (s & Hs & Hu).
      destruct (wf_used _ Hwf _ _ Hs Hu) as (_ & _ & _ & [_ Hp]%vec_get_Ret).
      apply list_elem_of_lookup. eauto.
  - intros i s Hs Hu. split; [by eapply wf_excl|]. split.
    + by destruct (wf_used _ Hwf _ _ Hs Hu) as (_ & _ & _ & Hp).
    + by eapply wf_deref.
Qed.

End Dimensions.

(** ** Lookups after a modification *)

Section RoundTrips.

Context {Key T : Type} `{EqDecision Key} `{EqDecision T}.

Variable T_new : T.

Local Abbreviation ValueType := (@ValueType Key T).
Local Abbreviation HashMap := (HashMap Key T).

Implicit Types (st : HashMap) (x : ValueType) (pos : Z) (key : Key).
Implicit Types (m : list ValueType).

Lemma ref_find_elem m y : NoDup m.*1 → y ∈ m → ref_find m y.1 = Some y.2.
Proof.
  induction m as [|z m IH]; intros Hk Hm; [by apply elem_of_nil in Hm|].
  simpl. csimpl in Hk. apply list.NoDup_cons in Hk as [Hz Hk].
  apply elem_of_cons in Hm as [->|Hm]; [by rewrite decide_True|].
  rewrite decide_False; [auto|]. intros E. apply Hz. rewrite E.
  apply list_elem_of_fmap. by exists y.
Qed.

Lemma ref_find_absent m key : key ∉ m.*1 → ref_find m key = None.
Proof.
  induction m as [|y m IH]; intros Hk; [done|]. simpl.
  rewrite fmap_cons in Hk. apply not_elem_of_cons in Hk as [? ?].
  rewrite decide_False by done. auto.
Qed.

Lemma NoDup_fmap_elem_inj {A B} (f : A → B) (l : list A) a b :
  NoDup (f <$> l) → a ∈ l → b ∈ l → f a = f b → a = b.
Proof.
  induction l as [|c l IH]; csimpl; intros Hnd Ha Hb E.
  - by apply elem_of_nil in Ha.
  - apply list.NoDup_cons in Hnd as [Hc Hnd].
    apply elem_of_cons in Ha as [->|Ha]; apply elem_of_cons in Hb as [->|Hb].
    + done.
    + destruct Hc. rewrite E. apply list_elem_of_fmap. by exists b.
    + destruct Hc. rewrite <- E. apply list_elem_of_fmap. by exists a.
    + by apply IH.
Qed.

(** With unique keys, two iterators to entries of the same key are the same
    iterator. *)
Lemma deref_same_key st it1 it2 key v1 v2 :
  NoDup (elements st).*1 →
  deref (values_ st) it1 = Ret (key, v1) →
  deref (values_ st) it2 = Ret (key, v2) →
  it1 = it2 ∧ v1 = v2.
Proof.
  intros Hnd (h1 & -> & H1)%deref_elem (h2 & -> & H2)%deref_elem.
  unfold elements in Hnd. rewrite <- list_fmap_compose in Hnd.
  pose proof (NoDup_fmap_elem_inj _ _ _ _ Hnd H1 H2 eq_refl) as E.
  by simplify_eq.
Qed.

Lemma at_of_find fuel st key it v :
  find fuel st key = Ret it → deref (values_ st) it = Ret (key, v) →
  at_ fuel st key = Ret v.
Proof.
  intros Hf Hd. rewrite at_unfold, Hf, Ret_bind.
  destruct (decide (it = list_end)) as [->|_]; [done|]. by rewrite Hd.
Qed.

(** A key that is present is found, with its value, whenever the fuel
    suffices. *)
Lemma find_present st key v :
  wf st → primary_size_ st ≠ 0 → NoDup (elements st).*1 →
  (key, v) ∈ elements st →
  ∃ fuel0 it, deref (values_ st) it = Ret (key, v) ∧
    ∀ fuel, (fuel0 ≤ fuel)%nat →
      find fuel st key = Ret it ∧ at_ fuel st key = Ret v.
Proof.
  intros Hwf HP Hnd Hin.
  apply list_elem_of_fmap in Hin as ([h y] & E & Hin). simpl in E. subst y.
  destruct (Find_present_returns _ _ _ Hwf Hin) as (fuel0 & p & Hf & Hp).
  simpl in Hf.
  destruct (Find_found _ _ _ _ _ Hf Hp) as (s & y & Hs & Hu & Hy & Hk).
  destruct y as [k v']. simpl in Hk. subst k.
  assert (deref (values_ st) (node h) = Ret (key, v)) as Hd.
  { simpl. by erewrite node_at_elem; [|apply wf_nodes|]. }
  destruct (deref_same_key _ _ _ _ _ _ Hnd Hy Hd) as [Hit ->].
  exists fuel0, (node h). split; [done|]. intros fuel Hle.
  assert (find fuel st key = Ret (node h)) as Hfind.
  { unfold find.
    assert (bucket st key = Ret (home st key)) as -> by (by apply bucket_Ret).
    rewrite Ret_bind, (Find_fuel_mono _ _ _ _ _ _ Hle Hf), Ret_bind.
    destruct (Z.eqb_spec p NONE) as [?|_]; [done|].
    by rewrite Hs, Ret_bind, Hit. }
  split; [done|]. by eapply at_of_find.
Qed.

(** A key that is absent is not found, whatever the fuel. *)
Lemma find_absent fuel st key :
  wf st → NoDup (elements st).*1 → key ∉ (elements st).*1 →
  (∀ it, find fuel st key = Ret it → it = list_end) ∧
  (∀ v, at_ fuel st key ≠ Ret v).
Proof.
  intros Hwf Hnd Hk.
  assert (∀ it, find fuel st key = Ret it → it = list_end) as Hfind.
  { intros it Hf. apply find_correct in Hf; [|done..].
    by rewrite ref_find_absent in Hf. }
  split; [done|]. intros v Ha. rewrite at_unfold in Ha.
  bind_inv Ha as it Hf. apply Hfind in Hf as ->.
  by rewrite decide_True in Ha.
Qed.

(** X6: in a map that the public interface produces, a position that
    [Find] returns from the bucket of a key is a slot in use whose entry has
    that key, and [NONE] is returned only for a key that no entry has. *)
Theorem Find_sound fuel st key p :
  reachable T_new st →
  Find fuel st key (home st key) = Ret p →
  (p = NONE → key ∉ (elements st).*1) ∧
  (p ≠ NONE →
     ∃ s v, vec_get (data_ st) p = Ret s ∧ used s = true ∧
            deref (values_ st) (value s) = Ret (key, v)).
Proof.
  intros Hwf%reachable_wf Hf. split.
  - intros ->. by eapply Find_None_absent.
  - intros Hp.
    destruct (Find_found _ _ _ _ _ Hf Hp) as (s & [k v] & Hs & Hu & Hx & Hk).
    simpl in Hk. subst k. eauto.
Qed.

(** X7: when [Insert] returns on a map that the public interface produces,
    the entry is the last one of the list, the count has grown by one, and
    the returned position is a slot in use that holds the entry, that
    [positions_] lists, and that the links lead to from the bucket of the
    key. *)
Theorem Insert_stores_entry fuel st x st' pos' :
  reachable T_new st →
  Insert fuel st x (home st x.1) = Ret (st', pos') →
  elements st' = elements st ++ [x] ∧
  hash_function st' = hash_function st ∧
  size st' = size st + 1 ∧
  chain (data_ st') (home st' x.1) pos' ∧
  ∃ s, vec_get (data_ st') pos' = Ret s ∧
       used s = true ∧ deleted s = false ∧
       deref (values_ st') (value s) = Ret x ∧
       vec_get (positions_ st') (rev_pos s) = Ret pos'.
Proof.
  intros Hre Hi.
  pose proof (reachable_wf _ _ Hre) as Hwf.
  pose proof (reachable_shaped _ _ Hre) as Hsh.
  destruct (reachable_tabulated _ _ Hre) as [_ HP].
  assert (bucket st x.1 = Ret (home st x.1)) as Hb
    by (apply bucket_Ret; split; [lia|done]).
  destruct (Insert_appends _ _ _ _ _ _ Hi) as [He Hh].
  destruct (Insert_ok _ _ _ _ _ _ Hwf Hb Hi) as (Hwf' & vs & h & s & Hvs & Hs & Hu & Hv).
  pose proof (Insert_shaped _ _ _ _ _ _ Hwf Hsh Hb Hi) as Hsh'.
  assert ((h, x) ∈ values_ st') as Hin
    by (rewrite Hvs; apply elem_of_app; right; left).
  split; [done|]. split; [done|]. split.
  { unfold size. rewrite (shaped_count _ Hsh), (shaped_count _ Hsh').
    unfold elements in He. apply (f_equal length) in He.
    rewrite length_app, !length_fmap in He. simpl in He. lia. }
  split.
  - destruct (wf_home _ Hwf' _ _ Hin) as (i & s' & Hch & Hs' & Hu' & Hv').
    assert (i = pos') as ->; [|done].
    eapply (wf_value _ Hwf'); [done..|congruence].
  - exists s. split; [done|]. split; [done|].
    split; [by eapply wf_excl|]. split.
    + rewrite Hv. simpl. by erewrite node_at_elem; [|apply wf_nodes|].
    + by destruct (wf_used _ Hwf' _ _ Hs Hu) as (_ & _ & _ & Hp).
Qed.

(** X8: when [insert] returns on a map with unique keys, a key that was
    present leaves the object as it was, a key that was absent has its pair
    appended behind the other entries, and in both cases [find] and [at]
    return the entry of the key whenever the fuel suffices: the value is
    the one that was there, or the inserted one for a new key. *)
Theorem insert_then_find fuel st x st' :
  reachable T_new st → NoDup (elements st).*1 →
  insert fuel st x = Ret st' →
  (x.1 ∈ (elements st).*1 → st' = st) ∧
  (x.1 ∉ (elements st).*1 → elements st' = elements st ++ [x]) ∧
  NoDup (elements st').*1 ∧
  ∃ v fuel0 it,
    (x.1 ∉ (elements st).*1 → v = x.2) ∧
    (∀ v0, (x.1, v0) ∈ elements st → v = v0) ∧
    deref (values_ st') it = Ret (x.1, v) ∧
    ∀ fuel', (fuel0 ≤ fuel')%nat →
      find fuel' st' x.1 = Ret it ∧ at_ fuel' st' x.1 = Ret v.
Proof.
  intros Hre Hnd Hi.
  pose proof (reachable_wf _ _ Hre) as Hwf.
  pose proof (insert_wf _ _ _ _ Hwf Hi) as Hwf'.
  pose proof (insert_elements _ _ _ _ Hwf Hi) as He.
  assert (reachable T_new st') as Hre' by (by eapply reachable_insert).
  destruct (reachable_tabulated _ _ Hre') as [_ HP'].
  assert (NoDup (elements st').*1) as Hnd'.
  { rewrite He. by apply ref_insert_NoDup. }
  split; [|split; [|split; [done|]]].
  - intros Hin.
    apply insert_inv in Hi as (_ & p & Hf & [[-> _]|[_ ->]]); [|done].
    by apply Find_None_absent in Hf.
  - intros Hout. rewrite He. unfold ref_insert. by rewrite decide_False.
  - destruct (decide (x.1 ∈ (elements st).*1)) as [Hin|Hout].
    + apply list_elem_of_fmap in Hin as ([k v] & Hk & Hin). simpl in Hk. subst k.
      assert ((x.1, v) ∈ elements st') as Hin'.
      { rewrite He. unfold ref_insert. rewrite decide_True; [done|].
        apply list_elem_of_fmap. by exists (x.1, v). }
      destruct (find_present _ _ _ Hwf' ltac:(lia) Hnd' Hin')
        as (fuel0 & it & Hd & Hfind).
      exists v, fuel0, it. split.
      { intros Hout. destruct Hout. apply list_elem_of_fmap. by exists (x.1, v). }
      split; [|done]. intros v0 Hv0.
      pose proof (NoDup_fmap_elem_inj _ _ _ _ Hnd Hin Hv0 eq_refl). by simplify_eq.
    + assert ((x.1, x.2) ∈ elements st') as Hin'.
      { rewrite He. unfold ref_insert. rewrite decide_False by done.
        apply elem_of_app. right. destruct x. left. }
      destruct (find_present _ _ _ Hwf' ltac:(lia) Hnd' Hin')
        as (fuel0 & it & Hd & Hfind).
      exists x.2, fuel0, it. split; [done|]. split; [|done].
      intros v0 Hv0. destruct Hout. apply list_elem_of_fmap. by exists (x.1, v0).
Qed.

End RoundTrips.

(** ** Removal, access and [clear] *)

Section Removals.

Context {Key T : Type} `{EqDecision Key} `{EqDecision T}.

Variable T_new : T.

Local Abbreviation ValueType := (@ValueType Key T).
Local Abbreviation HashMap := (HashMap Key T).

Implicit Types (st : HashMap) (x : ValueType) (pos : Z) (key : Key).
Implicit Types (m : list ValueType).

(** X9: when [erase] returns on a map with unique keys, the entry of the key
    is gone and the other entries keep their order; the count drops by one
    if the key was present, and the object is left as it was if the key was
    absent.  The table keeps its sizes, and afterwards [find] of the key
    returns [end()] and [at] returns no value. *)
Theorem erase_then_find fuel st key st' :
  reachable T_new st → NoDup (elements st).*1 →
  erase fuel st key = Ret st' →
  elements st' = filter (λ y, y.1 ≠ key) (elements st) ∧
  (key ∉ (elements st).*1 → st' = st) ∧
  (key ∈ (elements st).*1 → size st' = size st - 1) ∧
  primary_size_ st' = primary_size_ st ∧
  cellar_size_ st' = cellar_size_ st ∧
  length (data_ st') = length (data_ st) ∧
  ∀ fuel',
    (∀ it, find fuel' st' key = Ret it → it = list_end) ∧
    (∀ v, at_ fuel' st' key ≠ Ret v).
Proof.
  intros Hre Hnd He.
  pose proof (reachable_wf _ _ Hre) as Hwf.
  pose proof (reachable_shaped _ _ Hre) as Hsh.
  pose proof (erase_wf _ _ _ _ Hwf He) as Hwf'.
  pose proof (erase_shaped _ _ _ _ Hwf Hsh He) as Hsh'.
  pose proof (erase_elements _ _ _ _ Hwf Hnd He) as Hel.
  assert (NoDup (elements st').*1) as Hnd'.
  { rewrite Hel. by apply ref_erase_NoDup. }
  assert (key ∉ (elements st').*1) as Hgone.
  { rewrite Hel. intros ([k v] & -> & [Hk _]%list_elem_of_filter)%list_elem_of_fmap.
    done. }
  split; [done|].
  apply erase_inv in He as (HP & p & Hf & [[-> ->]|[Hp He]]).
  - apply Find_None_absent in Hf; [|done].
    split; [done|]. split; [done|]. do 3 (split; [done|]).
    intros fuel'. by apply find_absent.
  - destruct (Find_found _ _ _ _ _ Hf Hp) as (s & x & Hs & Hu & Hx & Hk).
    destruct (erase_at_inv _ _ _ _ Hwf Hs Hu He)
      as (h & back & b & d1 & d2 & Hv & Hlast & Hb & Hd1 & Hd2 & E).
    destruct (wf_used _ Hwf _ _ Hs Hu) as (h' & Hv' & Hh & _).
    rewrite Hv in Hv'. injection Hv' as <-.
    split.
    { intros Hout. destruct Hout. by eapply Find_Some_present. }
    split.
    { intros _. unfold size.
      rewrite (shaped_count _ Hsh), (shaped_count _ Hsh'), E. simpl.
      rewrite filter_node_length; [|by apply wf_nodes|done].
      destruct (values_ st); [by apply elem_of_nil in Hh|]. simpl. lia. }
    rewrite E. simpl. do 2 (split; [done|]). split.
    { by rewrite (vec_set_length _ _ _ _ Hd2), (vec_set_length _ _ _ _ Hd1). }
    rewrite <- E. intros fuel'. by apply find_absent.
Qed.

(** X10: when [operator[]] returns on a map with unique keys, the returned
    iterator designates the entry of the key and the returned value is its
    mapped value; a key that was present leaves the object as it was, a key
    that was absent has the pair of the key and [MappedType()] appended, and
    afterwards [find] returns the same iterator and [at] the same value
    whenever the fuel suffices. *)
Theorem subscript_then_find fuel st key st' it v :
  reachable T_new st → NoDup (elements st).*1 →
  subscript T_new fuel st key = Ret (st', it, v) →
  deref (values_ st') it = Ret (key, v) ∧
  (key ∈ (elements st).*1 → st' = st) ∧
  (key ∉ (elements st).*1 →
     elements st' = elements st ++ [(key, T_new)] ∧ v = T_new) ∧
  NoDup (elements st').*1 ∧
  ∃ fuel0, ∀ fuel', (fuel0 ≤ fuel')%nat →
    find fuel' st' key = Ret it ∧ at_ fuel' st' key = Ret v.
Proof.
  intros Hre Hnd Hs.
  pose proof (reachable_wf _ _ Hre) as Hwf.
  pose proof (subscript_wf _ _ _ _ _ _ _ Hwf Hs) as Hwf'.
  assert (reachable T_new st') as Hre' by (by eapply reachable_subscript).
  destruct (reachable_tabulated _ _ Hre') as [_ HP'].
  destruct (subscript_returns_entry _ _ _ _ _ _ _ Hwf Hnd Hs)
    as (He & Hd & _ & Hnew & Hsame).
  assert (NoDup (elements st').*1) as Hnd'.
  { rewrite He. by apply ref_insert_NoDup. }
  split; [done|]. split; [done|]. split.
  { intros Hout. split; [|by apply Hnew].
    rewrite He. unfold ref_insert. by rewrite decide_False. }
  split; [done|].
  assert ((key, v) ∈ elements st') as Hin.
  { apply deref_elem in Hd as (h & _ & Hin).
    apply list_elem_of_fmap. by exists (h, (key, v)). }
  destruct (find_present _ _ _ Hwf' ltac:(lia) Hnd' Hin)
    as (fuel0 & it' & Hd' & Hfind).
  destruct (deref_same_key _ _ _ _ _ _ Hnd' Hd Hd') as [-> _].
  by exists fuel0.
Qed.

Lemma reset_slots_returns ps (d : list Data) :
  (∀ p, p ∈ ps → 0 ≤ p < Z.of_nat (length d)) →
  ∃ d', reset_slots ps d = Ret d'.
Proof.
  revert d. induction ps as [|p ps IH]; intros d Hps; simpl; [eauto|].
  assert (0 ≤ p < Z.of_nat (length d)) as Hp by (apply Hps; left).
  assert (vec_set d p Data_new = Ret (<[Z.to_nat p := Data_new]> d)) as ->
    by (by apply vec_set_Ret).
  rewrite Ret_bind. apply IH. intros q Hq. rewrite length_insert.
  apply Hps. by right.
Qed.

Lemma reset_slots_other ps (d d' : list Data) i :
  reset_slots ps d = Ret d' → i ∉ ps → vec_get d' i = vec_get d i.
Proof.
  revert d. induction ps as [|p ps IH]; intros d Hr Hi; simpl in Hr.
  - by ret_inv Hr.
  - bind_inv Hr as d1 Hd1. apply not_elem_of_cons in Hi as [Hne Hi].
    rewrite (IH _ Hr Hi). by eapply vec_get_set_ne.
Qed.

(** X11: [clear] returns on every map that the public interface produces.
    Afterwards the list and [positions_] are empty, the count is 0, the
    table has the sizes and the hash function that it had, [start_pos_] is
    the last index, the slots that were in use are value-initialised and the
    others are as they were; no slot is in use, and [find] returns nothing
    but [end()]. *)
Theorem clear_empties st :
  reachable T_new st →
  ∃ st', clear st = Ret st' ∧
    elements st' = [] ∧ positions_ st' = [] ∧
    size st' = 0 ∧ empty st' = true ∧
    primary_size_ st' = primary_size_ st ∧
    cellar_size_ st' = cellar_size_ st ∧
    hash_function st' = hash_function st ∧
    start_pos_ st' = wrap (primary_size_ st + cellar_size_ st - 1) ∧
    length (data_ st') = length (data_ st) ∧
    (∀ i s, vec_get (data_ st) i = Ret s → used s = true →
       vec_get (data_ st') i = Ret Data_new) ∧
    (∀ i s, vec_get (data_ st) i = Ret s → used s = false →
       vec_get (data_ st') i = Ret s) ∧
    (∀ i s', vec_get (data_ st') i = Ret s' → used s' = false) ∧
    ∀ fuel key it, find fuel st' key = Ret it → it = list_end.
Proof.
  intros Hre. pose proof (reachable_wf _ _ Hre) as Hwf.
  destruct (reset_slots_returns (positions_ st) (data_ st)) as [d Hd].
  { intros p [k Hk]%list_elem_of_lookup.
    destruct (wf_positions _ Hwf _ _ Hk) as (s & Hs & _).
    by eapply vec_get_range. }
  assert (clear st = Ret (mkHashMap [] [] d 0 (primary_size_ st) (cellar_size_ st)
            (wrap (primary_size_ st + cellar_size_ st - 1)) (hasher_ st))) as Hc.
  { unfold clear. by rewrite Hd. }
  pose proof (clear_wf _ _ Hwf Hc) as Hwf'.
  destruct (reset_slots_spec _ _ _ Hd) as [Hlen Hspec].
  eexists. split; [exact Hc|]. simpl.
  do 9 (split; [done|]).
  assert (∀ i, i ∈ positions_ st ↔
               ∃ s, vec_get (data_ st) i = Ret s ∧ used s = true) as Hpos.
  { intros i. split.
    - intros [k Hk]%list_elem_of_lookup.
      destruct (wf_positions _ Hwf _ _ Hk) as (s & Hs & Hu & _). eauto.
    - intros (s & Hs & Hu).
      destruct (wf_used _ Hwf _ _ Hs Hu) as (_ & _ & _ & [_ Hp]%vec_get_Ret).
      apply list_elem_of_lookup. eauto. }
  split; [|split; [|split]].
  - intros i s Hs Hu.
    destruct (vec_get_total d i) as [s' Hs'].
    { rewrite Hlen. by eapply vec_get_range. }
    destruct (Hspec _ _ Hs') as [->|[Hout _]]; [done|].
    destruct Hout. apply Hpos. eauto.
  - intros i s Hs Hu. rewrite (reset_slots_other _ _ _ _ Hd); [done|].
    intros (s' & Hs' & Hu')%Hpos. congruence.
  - intros i s' Hs'. destruct (Hspec _ _ Hs') as [->|[Hout Hs]]; [done|].
    destruct (used s') eqn:Hu; [|done]. destruct Hout. apply Hpos. eauto.
  - intros fuel key it Hf. apply find_correct in Hf; [done|done|constructor].
Qed.

End Removals.

(** ** Accesses stay inside the containers *)

Section Defined.

Context {Key T : Type} `{EqDecision Key} `{EqDecision T}.

Variable T_new : T.

Local Abbreviation ValueType := (@ValueType Key T).
Local Abbreviation HashMap := (HashMap Key T).

Implicit Types (st : HashMap) (x : ValueType) (pos : Z) (key : Key).
Implicit Types (ins : HashMap → ValueType → Z → outcome (HashMap * Z)).

Lemma bind_defined {A B} (m : outcome A) (f : A → outcome B) :
  m ≠ Undefined → (∀ a, m = Ret a → f a ≠ Undefined) → m ≫= f ≠ Undefined.
Proof. destruct m; simpl; intros Hm Hf; try done. by apply Hf. Qed.

Lemma roomy_length st :
  shaped st → roomy st →
  Z.of_nat (length (data_ st)) = primary_size_ st + cellar_size_ st ∧
  1 ≤ cellar_size_ st.
Proof.
  intros Hsh (HP & HC & Hsum).
  rewrite (shaped_length _ Hsh), wrap_small; lia.
Qed.

Lemma home_range st key :
  shaped st → roomy st →
  0 ≤ home st key < primary_size_ st ∧
  0 ≤ home st key < Z.of_nat (length (data_ st)).
Proof.
  intros Hsh Hro. destruct (roomy_length _ Hsh Hro) as [Hlen HC].
  destruct Hro as [HP _]. unfold home.
  pose proof (Z.mod_pos_bound (hasher_ st key) (primary_size_ st)). lia.
Qed.

Lemma roomy_bucket st key : roomy st → bucket st key = Ret (home st key).
Proof. intros [HP _]. apply bucket_Ret. split; [lia|done]. Qed.

Lemma start_pos_range st :
  shaped st → roomy st → 0 ≤ start_pos_ st < Z.of_nat (length (data_ st)).
Proof.
  intros Hsh Hro. destruct (roomy_length _ Hsh Hro) as [Hlen HC].
  destruct Hro as [HP Hsum].
  destruct (shaped_start _ Hsh) as [->|Hs]; [|done].
  rewrite wrap_small; lia.
Qed.

Lemma Find_defined fuel st key pos :
  wf st → shaped st →
  pos = NONE ∨ 0 ≤ pos < Z.of_nat (length (data_ st)) →
  Find fuel st key pos ≠ Undefined.
Proof.
  intros Hwf Hsh. revert pos. induction fuel as [|fuel IH]; intros pos Hpos; [done|].
  rewrite Find_S. destruct (Z.eqb_spec pos NONE) as [Heq|Hne]; [done|].
  destruct Hpos as [?|Hpos]; [done|].
  destruct (vec_get_total _ _ Hpos) as [s Hs]. rewrite Hs, Ret_bind.
  assert (next s = NONE ∨ 0 ≤ next s < Z.of_nat (length (data_ st))) as Hn.
  { destruct (decide (next s = NONE)) as [?|Hn]; [by left|right].
    by eapply (shaped_links _ Hsh). }
  destruct (used s) eqn:Hu.
  - destruct (wf_deref _ _ _ Hwf Hs Hu) as (h & x & _ & _ & ->).
    rewrite Ret_bind. destruct (decide (x.1 = key)); [done|]. by apply IH.
  - destruct (deleted s); simpl; [by apply IH|done].
Qed.

Lemma find_defined fuel st key :
  wf st → shaped st → roomy st → find fuel st key ≠ Undefined.
Proof.
  intros Hwf Hsh Hro. unfold find. rewrite (roomy_bucket _ _ Hro), Ret_bind.
  apply bind_defined.
  - apply Find_defined; [done..|]. right. by apply home_range.
  - intros p Hf. destruct (Z.eqb_spec p NONE) as [?|Hp]; [done|].
    destruct (Find_found _ _ _ _ _ Hf Hp) as (s & x & -> & _). done.
Qed.

Lemma at_defined fuel st key :
  wf st → shaped st → roomy st → at_ fuel st key ≠ Undefined.
Proof.
  intros Hwf Hsh Hro. rewrite at_unfold. apply bind_defined.
  - by apply find_defined.
  - intros it Hf. destruct (decide (it = list_end)); [done|].
    apply find_inv in Hf as (_ & p & Hf & [[_ ->]|(Hp & s & Hs & ->)]); [done|].
    destruct (Find_found _ _ _ _ _ Hf Hp) as (s' & x & Hs' & Hu & Hx & _).
    rewrite Hs in Hs'. simplify_eq. by rewrite Hx.
Qed.

Lemma vec_set_total {A} (v : list A) i a :
  0 ≤ i < Z.of_nat (length v) → ∃ v', vec_set v i a = Ret v'.
Proof. intros Hi. eexists. by apply vec_set_Ret. Qed.

Lemma erase_at_returns st pos s :
  wf st → vec_get (data_ st) pos = Ret s → used s = true →
  ∃ st', erase_at st pos = Ret st'.
Proof.
  intros Hwf Hs Hu. unfold erase_at.
  destruct (wf_used _ Hwf _ _ Hs Hu) as (h & Hv & Hh & Hp).
  pose proof (vec_get_range _ _ _ Hp) as Hr.
  destruct (list.last (positions_ st)) as [back|] eqn:Hlast; last first.
  { apply last_None in Hlast. rewrite Hlast in Hr. simpl in Hr. lia. }
  unfold vec_back. rewrite Hlast. simpl. rewrite Hs, Ret_bind.
  assert (positions_ st !! pred (length (positions_ st)) = Some back) as Hk.
  { by rewrite <- last_lookup. }
  destruct (wf_positions _ Hwf _ _ Hk) as (b & Hb & Hub & Hrb).
  rewrite Hb, Ret_bind.
  pose proof (vec_get_range _ _ _ Hb) as Hrback.
  pose proof (vec_get_range _ _ _ Hs) as Hrpos.
  destruct (vec_set_total (data_ st) back (set_rev_pos b (rev_pos s)) Hrback)
    as [d1 Hd1].
  rewrite Hd1, Ret_bind.
  pose proof (vec_set_length _ _ _ _ Hd1) as Hlen1.
  destruct (vec_get_total d1 pos) as [s1 Hs1]; [by rewrite Hlen1|].
  assert (s1 = s) as ->.
  { destruct (decide (back = pos)) as [->|Hne].
    - rewrite Hs in Hb. simplify_eq. rewrite set_rev_pos_same in Hd1.
      erewrite vec_get_set_eq in Hs1 by done. by simplify_eq.
    - erewrite vec_get_set_ne in Hs1 by done. congruence. }
  rewrite Hs1, Ret_bind, Hp, Ret_bind.
  destruct (vec_set_total (positions_ st) (rev_pos s) back Hr) as [ps1 Hps1].
  rewrite Hps1, Ret_bind.
  pose proof (vec_set_length _ _ _ _ Hps1) as Hlenp.
  destruct (vec_set_total ps1 (Z.of_nat (length ps1) - 1) pos) as [ps2 Hps2];
    [lia|].
  rewrite Hps2, Ret_bind, Hv. simpl.
  destruct (node_at_is_Some _ _ Hh) as [y ->]. rewrite Ret_bind.
  destruct (vec_set_total d1 pos (mkData singular false true (rev_pos s) (next s)))
    as [d2 Hd2]; [by rewrite Hlen1|].
  rewrite Hd2, Ret_bind. eauto.
Qed.

Lemma erase_defined fuel st key :
  wf st → shaped st → roomy st → erase fuel st key ≠ Undefined.
Proof.
  intros Hwf Hsh Hro. rewrite erase_unfold, (roomy_bucket _ _ Hro), Ret_bind.
  apply bind_defined.
  - apply Find_defined; [done..|]. right. by apply home_range.
  - intros p Hf. destruct (Z.eqb_spec p NONE) as [?|Hp]; [done|]. simpl.
    destruct (Find_found _ _ _ _ _ Hf Hp) as (s & x & Hs & Hu & _).
    by destruct (erase_at_returns _ _ _ Hwf Hs Hu) as [st' ->].
Qed.

(** *** [Insert] *)

Lemma chain_walk_defined fuel (d : list Data) pos distance :
  (∀ i s, vec_get d i = Ret s → next s ≠ NONE →
     0 ≤ next s < Z.of_nat (length d)) →
  0 ≤ pos < Z.of_nat (length d) →
  chain_walk fuel d pos distance ≠ Undefined.
Proof.
  intros Hlinks. revert pos distance.
  induction fuel as [|fuel IH]; intros pos distance Hpos; [done|].
  rewrite chain_walk_S. destruct (vec_get_total _ _ Hpos) as [s Hs].
  rewrite Hs, Ret_bind.
  destruct (Z.eqb_spec (next s) NONE) as [?|Hn]; simpl; [done|].
  destruct (deleted s); simpl; [done|]. apply IH. by eapply Hlinks.
Qed.

Lemma chain_walk_range fuel (d : list Data) pos distance last distance' :
  (∀ i s, vec_get d i = Ret s → next s ≠ NONE →
     0 ≤ next s < Z.of_nat (length d)) →
  0 ≤ pos < Z.of_nat (length d) →
  chain_walk fuel d pos distance = Ret (last, distance') →
  0 ≤ last < Z.of_nat (length d).
Proof.
  intros Hlinks. revert pos distance.
  induction fuel as [|fuel IH]; intros pos distance Hpos; [done|].
  rewrite chain_walk_S. destruct (vec_get_total _ _ Hpos) as [s Hs].
  rewrite Hs, Ret_bind.
  destruct (negb (next s =? NONE) && negb (deleted s)) eqn:E.
  - apply andb_true_iff in E as [Hn%negb_true_iff%Z.eqb_neq _].
    apply IH. by eapply Hlinks.
  - intros Hr. by ret_inv Hr.
Qed.

Lemma free_scan_S fuel st next_free distance :
  free_scan (S fuel) st next_free distance =
  (s ← vec_get (data_ st) next_free;
   if used s then
     if (primary_size_ st <? shl (element_count_ st) 2)
        && (GetMaxLookups (primary_size_ st) <? wrap (distance + 1))
     then Ret None
     else free_scan fuel st (step_down st next_free) (wrap (distance + 1))
   else Ret (Some next_free)).
Proof. reflexivity. Qed.

Lemma step_down_range st next_free :
  shaped st → roomy st →
  0 ≤ next_free < Z.of_nat (length (data_ st)) →
  0 ≤ step_down st next_free < Z.of_nat (length (data_ st)).
Proof.
  intros Hsh Hro Hn. destruct (roomy_length _ Hsh Hro) as [Hlen HC].
  destruct Hro as [HP Hsum]. unfold step_down.
  destruct (Z.eqb_spec next_free 0); [|lia]. rewrite wrap_small; lia.
Qed.

Lemma free_scan_defined fuel st next_free distance :
  shaped st → roomy st →
  0 ≤ next_free < Z.of_nat (length (data_ st)) →
  free_scan fuel st next_free distance ≠ Undefined.
Proof.
  intros Hsh Hro. revert next_free distance.
  induction fuel as [|fuel IH]; intros next_free distance Hn; [done|].
  rewrite free_scan_S. destruct (vec_get_total _ _ Hn) as [s Hs].
  rewrite Hs, Ret_bind. destruct (used s); [|done].
  destruct (_ && _); [done|]. apply IH. by apply step_down_range.
Qed.

Lemma free_scan_None fuel st next_free distance :
  free_scan fuel st next_free distance = Ret None →
  primary_size_ st < shl (element_count_ st) 2.
Proof.
  revert next_free distance.
  induction fuel as [|fuel IH]; intros next_free distance; [done|].
  rewrite free_scan_S. intros Hf. bind_inv Hf as s Hs.
  destruct (used s); [|done].
  destruct (_ && _) eqn:E; [|by eapply IH].
  apply andb_true_iff in E as [E _]. by apply Z.ltb_lt in E.
Qed.

Lemma store_returns st x pos :
  0 ≤ pos < Z.of_nat (length (data_ st)) →
  ∃ st', store st x pos = Ret (st', pos) ∧
         primary_size_ st' = primary_size_ st ∧
         cellar_size_ st' = cellar_size_ st.
Proof.
  intros Hpos. unfold store. simpl.
  destruct (vec_get_total _ _ Hpos) as [s ->]. rewrite Ret_bind.
  match goal with |- context [vec_set ?v ?i ?a] =>
    assert (vec_set v i a = Ret (<[Z.to_nat i := a]> v)) as ->
      by (by apply vec_set_Ret) end.
  rewrite Ret_bind. eauto.
Qed.

Lemma shl_small z k : 0 ≤ k → 0 ≤ z → z * 2 ^ k < 2 ^ 64 → shl z k = z * 2 ^ k.
Proof.
  intros Hk Hz Hlt. unfold shl. rewrite Z.shiftl_mul_pow2 by done.
  apply wrap_small. split; [|done]. apply Z.mul_nonneg_nonneg; [done|].
  by apply Z.pow_nonneg.
Qed.

Lemma elem_of_existsb p (l : list Z) : existsb (Z.eqb p) l = true → p ∈ l.
Proof.
  intros (q & Hq & ->%Z.eqb_eq)%existsb_exists. by apply list_elem_of_In.
Qed.

(** Up to 2^63, [NextPrime] yields a table whose slots can be counted. *)
Lemma NextPrime_roomy n :
  n ≤ 2 ^ 63 →
  2 ≤ NextPrime n ∧ 1 ≤ cellar_of (NextPrime n) ∧
  NextPrime n + cellar_of (NextPrime n) < 2 ^ 64.
Proof.
  intros Hn. pose proof (NextPrime_ge_3 n) as H3. split; [lia|].
  assert (NextPrime n ≤ 11493228998133068689) as Hle.
  { destruct (NextPrime_cases n) as [(_ & _ & _ & Hleast)|[_ Hnone]].
    - apply Hleast; [|lia]. apply elem_of_existsb. vm_compute. reflexivity.
    - assert (11493228998133068689 < n); [|lia].
      apply Hnone, elem_of_existsb. vm_compute. reflexivity. }
  destruct (NextPrime_tabulated n) as [Hin _].
  destruct (cellar_of_tabulated _ Hin) as (HC & Hfit & _). lia.
Qed.

Lemma fresh_table_roomy n (hf : Key → Z) :
  n ≤ 2 ^ 63 →
  roomy (fresh_table (T:=T) [] (NextPrime n) (cellar_of (NextPrime n)) hf).
Proof. intros Hn. by apply NextPrime_roomy. Qed.

Lemma insert_all_defined ins xs st :
  inserts_ok ins → inserts_shaped ins → appends ins → inserts_defined ins →
  wf st → shaped st → roomy st →
  Z.of_nat (length (values_ st)) + Z.of_nat (length xs) ≤ 2 ^ 60 →
  insert_all ins xs st ≠ Undefined ∧
  ∀ st', insert_all ins xs st = Ret st' → roomy st'.
Proof.
  intros Hok Hshaped Happ Hdef. revert st.
  induction xs as [|x xs IH]; intros st Hwf Hsh Hro Hlen.
  - simpl. split; [done|]. intros st' Hr. by ret_inv Hr.
  - simpl in *. rewrite (roomy_bucket _ _ Hro), Ret_bind.
    destruct (Hdef st x (home st x.1) Hwf Hsh Hro ltac:(lia)
                (roomy_bucket _ _ Hro)) as [Hd Hpost].
    destruct (ins st x (home st x.1)) as [[st1 pos1]| | |] eqn:Hi; simpl; try done.
    assert (bucket st x.1 = Ret (home st x.1)) as Hb by (by apply roomy_bucket).
    destruct (Hok _ _ _ _ _ Hwf Hb Hi) as [Hwf1 _].
    destruct (Happ _ _ _ _ _ Hi) as [He _].
    apply IH; [done|eapply Hshaped; [exact Hwf|exact Hsh|exact Hb|exact Hi]
      |exact (Hpost _ _ eq_refl)|].
    unfold elements in He. apply (f_equal length) in He.
    rewrite length_app, !length_fmap in He. simpl in He. lia.
Qed.

Lemma Rehash_with_defined ins st n :
  inserts_ok ins → inserts_shaped ins → appends ins → inserts_defined ins →
  n ≤ 2 ^ 63 → Z.of_nat (length (values_ st)) ≤ 2 ^ 60 →
  Rehash_with ins st n ≠ Undefined ∧
  ∀ st', Rehash_with ins st n = Ret st' → roomy st'.
Proof.
  intros Hok Hshaped Happ Hdef Hn Hlen. rewrite Rehash_with_unfold.
  destruct (values_ st) as [|e vs] eqn:Hvs.
  - split; [done|]. intros st' Hr. ret_inv Hr. by apply NextPrime_roomy.
  - unfold elements. rewrite Hvs.
    apply insert_all_defined; [done..|apply fresh_table_wf
      |apply fresh_table_shaped|by apply fresh_table_roomy|].
    simpl. rewrite length_fmap. simpl in Hlen. lia.
Qed.

End Defined.

Section InsertDefined.

Context {Key T : Type} `{EqDecision Key} `{EqDecision T}.

Variable T_new : T.

Local Abbreviation ValueType := (@ValueType Key T).
Local Abbreviation HashMap := (HashMap Key T).

Implicit Types (st : HashMap) (x : ValueType) (pos : Z) (key : Key).
Implicit Types (ins : HashMap → ValueType → Z → outcome (HashMap * Z)).

Lemma values_length_elements st st' :
  elements st' = elements st → length (values_ st') = length (values_ st).
Proof.
  unfold elements. intros E. apply (f_equal length) in E.
  by rewrite !length_fmap in E.
Qed.

(** What is known after a rehash that [Insert] starts. *)
Lemma Rehash_in_Insert_defined fuel st n :
  inserts_defined (Insert (Key:=Key) (T:=T) fuel) →
  wf st → n ≤ 2 ^ 63 → Z.of_nat (length (values_ st)) < 2 ^ 60 →
  Rehash_with (Insert fuel) st n ≠ Undefined ∧
  ∀ st1, Rehash_with (Insert fuel) st n = Ret st1 →
    wf st1 ∧ shaped st1 ∧ roomy st1 ∧
    length (values_ st1) = length (values_ st).
Proof.
  intros Hdef Hwf Hn Hlen.
  destruct (Rehash_with_defined (Insert fuel) st n
              (Insert_ok fuel) (Insert_shaped fuel) (Insert_appends fuel) Hdef Hn
              ltac:(lia)) as [Hd Hpost].
  split; [done|]. intros st1 Hre.
  split; [|split; [|split]].
  - eapply Rehash_with_wf; [apply Insert_ok|by apply wf_positions_nil|done].
  - eapply Rehash_with_shaped;
      [apply Insert_ok|apply Insert_shaped|by apply wf_positions_nil|done].
  - by apply Hpost.
  - apply values_length_elements.
    by destruct (Rehash_with_elements _ _ _ _ (Insert_appends fuel) Hre).
Qed.

Lemma rehash_if_loaded_defined fuel st x :
  inserts_defined (Insert (Key:=Key) (T:=T) fuel) →
  wf st → shaped st → roomy st →
  Z.of_nat (length (values_ st)) < 2 ^ 60 →
  rehash_if_loaded (Insert fuel) st x (home st x.1) ≠ Undefined ∧
  ∀ st1 pos1,
    rehash_if_loaded (Insert fuel) st x (home st x.1) = Ret (st1, pos1) →
    wf st1 ∧ shaped st1 ∧ roomy st1 ∧
    length (values_ st1) = length (values_ st) ∧
    pos1 = home st1 x.1.
Proof.
  intros Hdef Hwf Hsh Hro Hlen. unfold rehash_if_loaded.
  destruct (Z.ltb_spec (primary_size_ st) (shl (element_count_ st) 1)) as [Hload|_].
  - rewrite (shaped_count _ Hsh), shl_small in Hload by lia.
    destruct Hro as [HP Hsum].
    assert (shl (primary_size_ st) 1 = primary_size_ st * 2) as ->
      by (rewrite shl_small; lia).
    destruct (Rehash_in_Insert_defined fuel st (primary_size_ st * 2) Hdef Hwf
                ltac:(lia) Hlen) as [Hd Hpost].
    destruct (Rehash_with _ _ _) as [st1| | |]; simpl; try done.
    destruct (Hpost _ eq_refl) as (Hwf1 & Hsh1 & Hro1 & Hlen1).
    rewrite (roomy_bucket _ _ Hro1). simpl. split; [done|].
    intros st2 pos2 [= <- <-]. done.
  - split; [done|]. intros st1 pos1 [= <- <-]. done.
Qed.

Lemma store_defined st x pos :
  roomy st → 0 ≤ pos < Z.of_nat (length (data_ st)) →
  store st x pos ≠ Undefined ∧
  ∀ st' pos', store st x pos = Ret (st', pos') → roomy st'.
Proof.
  intros Hro Hpos.
  destruct (store_returns st x pos Hpos) as (st' & -> & HP & HC).
  split; [done|]. intros st2 pos2 [= <- <-].
  unfold roomy. by rewrite HP, HC.
Qed.

Lemma Insert_defined fuel : inserts_defined (Insert (Key:=Key) (T:=T) fuel).
Proof.
  induction fuel as [|fuel IH]; intros st x pos Hwf Hsh Hro Hlen Hb; [done|].
  apply bucket_Ret in Hb as [_ ->]. rewrite Insert_S.
  destruct (rehash_if_loaded_defined fuel st x IH Hwf Hsh Hro Hlen) as [Hd Hpost].
  destruct (rehash_if_loaded _ _ _ _) as [[st1 pos1]| | |]; simpl; try done.
  destruct (Hpost _ _ eq_refl) as (Hwf1 & Hsh1 & Hro1 & Hlen1 & ->).
  clear Hd Hpost. rewrite <- Hlen1 in Hlen.
  clear dependent st. rename st1 into st.
  destruct (home_range st x.1 Hsh1 Hro1) as [_ Hhome].
  destruct (vec_get_total _ _ Hhome) as [head Hhead].
  rewrite Hhead, Ret_bind.
  destruct (used head) eqn:Hu; [|by apply store_defined].
  pose proof (chain_walk_defined fuel (data_ st) (home st x.1) 0
                (shaped_links _ Hsh1) Hhome) as Hwd.
  destruct (chain_walk _ _ _ _) as [[last distance]| | |] eqn:Hw; simpl; try done.
  pose proof (chain_walk_range _ _ _ _ _ _ (shaped_links _ Hsh1) Hhome Hw) as Hlast.
  destruct (vec_get_total _ _ Hlast) as [last_slot Hl].
  rewrite Hl, Ret_bind.
  destruct (used last_slot) eqn:Hul; [|by apply store_defined].
  pose proof (free_scan_defined fuel st (start_pos_ st) distance Hsh1 Hro1
                (start_pos_range _ Hsh1 Hro1)) as Hfd.
  destruct (free_scan _ _ _ _) as [[next_free|]| | |] eqn:Hf; simpl; try done.
  - apply free_scan_unused in Hf as (sf & Hsf%vec_get_range & _).
    destruct (vec_set_total (data_ st) last (set_next last_slot next_free) Hlast)
      as [d Hd].
    rewrite Hd, Ret_bind. apply store_defined; [done|]. simpl.
    by rewrite (vec_set_length _ _ _ _ Hd).
  - apply free_scan_None in Hf.
    rewrite (shaped_count _ Hsh1), shl_small in Hf by lia.
    destruct Hro1 as [HP Hsum].
    assert (shl (primary_size_ st) 1 = primary_size_ st * 2) as ->
      by (rewrite shl_small; lia).
    destruct (Rehash_in_Insert_defined fuel st (primary_size_ st * 2) IH Hwf1
                ltac:(lia) Hlen) as [Hd Hpost].
    destruct (Rehash_with _ _ _) as [st2| | |]; simpl; try done.
    destruct (Hpost _ eq_refl) as (Hwf2 & Hsh2 & Hro2 & Hlen2).
    rewrite (roomy_bucket _ _ Hro2), Ret_bind.
    apply IH; [done..|lia|by apply roomy_bucket].
Qed.

Lemma insert_defined fuel st x :
  wf st → shaped st → roomy st → Z.of_nat (length (values_ st)) < 2 ^ 60 →
  insert fuel st x ≠ Undefined.
Proof.
  intros Hwf Hsh Hro Hlen. unfold insert.
  rewrite (roomy_bucket _ _ Hro), Ret_bind. apply bind_defined.
  - apply Find_defined; [done..|]. right. by apply home_range.
  - intros p Hf. destruct (p =? NONE); [|done].
    destruct (Insert_defined fuel st x (home st x.1) Hwf Hsh Hro Hlen
                (roomy_bucket _ _ Hro)) as [Hd _].
    by destruct (Insert _ _ _ _).
Qed.

Lemma subscript_defined fuel st key :
  wf st → shaped st → roomy st → Z.of_nat (length (values_ st)) < 2 ^ 60 →
  subscript T_new fuel st key ≠ Undefined.
Proof.
  intros Hwf Hsh Hro Hlen. unfold subscript.
  rewrite (roomy_bucket _ _ Hro), Ret_bind. apply bind_defined.
  - apply Find_defined; [done..|]. right. by apply home_range.
  - intros p Hf. destruct (Z.eqb_spec p NONE) as [->|Hp]; simpl.
    + pose proof (roomy_bucket st key Hro) as Hb.
      destruct (Insert_defined fuel st (key, T_new) (home st key) Hwf Hsh Hro
                  Hlen Hb) as [Hd _].
      destruct (Insert _ _ _ _) as [[st' pos']| | |] eqn:Hi; simpl; try done.
      destruct (Insert_ok fuel st (key, T_new) _ _ _ Hwf Hb Hi)
        as (Hwf' & vs & h & s & Hvs & Hs & Hu & Hv).
      rewrite Hs, Ret_bind.
      by destruct (wf_deref _ _ _ Hwf' Hs Hu) as (h' & y & _ & _ & ->).
    + destruct (Find_found _ _ _ _ _ Hf Hp) as (s & y & Hs & _ & Hy & _).
      by rewrite Hs, Ret_bind, Hy.
Qed.

End InsertDefined.

(** ** Statements about the member functions *)

Section MemberFunctions.

Context {Key T : Type} `{EqDecision Key} `{EqDecision T}.

Variable T_new : T.

Local Abbreviation ValueType := (@ValueType Key T).
Local Abbreviation HashMap := (HashMap Key T).

Implicit Types (st : HashMap) (x : ValueType) (pos : Z) (key : Key).

Lemma reachable_is_roomy st :
  reachable T_new st → primary_size_ st < 18446744073709551557 → roomy st.
Proof.
  intros Hre Hlt. destruct (reachable_roomy T_new _ Hre Hlt) as (? & ? & ? & ?).
  by split.
Qed.

(** The last entry of [PRIMES] is the greatest one, and its table is not
    roomy. *)
Lemma roomy_below_last st :
  shaped st → roomy st → tabulated (primary_size_ st) →
  primary_size_ st < 18446744073709551557.
Proof.
  intros Hsh [_ Hsum] [Hin _]. rewrite (shaped_cellar _ Hsh) in Hsum.
  assert (forallb (λ q, (q <? 18446744073709551557)
                        || (2 ^ 64 <=? q + cellar_of q)) PRIMES = true) as Hall
    by (vm_compute; reflexivity).
  rewrite forallb_forall in Hall. apply list_elem_of_In, Hall in Hin.
  apply orb_true_iff in Hin as [Hlt%Z.ltb_lt|Hge%Z.leb_le]; [done|lia].
Qed.

(** X12: on a map that the public interface produces and whose primary size
    is not the last entry of [PRIMES], [find], [at] and [erase] access no
    vector outside its bounds, dereference no iterator that designates no
    node and divide by no zero; an iterator that [find] returns is [end()]
    or designates an entry of the key. *)
Theorem lookups_stay_in_bounds fuel st key :
  reachable T_new st → primary_size_ st < 18446744073709551557 →
  find fuel st key ≠ Undefined ∧
  at_ fuel st key ≠ Undefined ∧
  erase fuel st key ≠ Undefined ∧
  ∀ it, find fuel st key = Ret it →
    it = list_end ∨ ∃ v, deref (values_ st) it = Ret (key, v).
Proof.
  intros Hre Hlt.
  pose proof (reachable_wf _ _ Hre) as Hwf.
  pose proof (reachable_shaped _ _ Hre) as Hsh.
  pose proof (reachable_is_roomy _ Hre Hlt) as Hro.
  split; [by apply find_defined|]. split; [by apply at_defined|].
  split; [by apply erase_defined|].
  intros it (_ & p & Hf & [[_ ->]|(Hp & s & Hs & ->)])%find_inv; [by left|].
  right. destruct (Find_found _ _ _ _ _ Hf Hp) as (s' & [k v] & Hs' & _ & Hx & Hk).
  rewrite Hs in Hs'. injection Hs' as <-. simpl in Hk. subst k. eauto.
Qed.

(** X13: on a map that the public interface produces, with fewer than 2^60
    entries and a primary size other than the last entry of [PRIMES],
    [insert] and [operator[]] access no vector outside its bounds,
    dereference no iterator that designates no node and divide by no zero,
    through all the rehashes that they start; the primary size is not the
    last entry of [PRIMES] afterwards either. *)
Theorem insertion_stays_in_bounds fuel st x :
  reachable T_new st → primary_size_ st < 18446744073709551557 →
  Z.of_nat (length (elements st)) < 2 ^ 60 →
  insert fuel st x ≠ Undefined ∧
  subscript T_new fuel st x.1 ≠ Undefined ∧
  (∀ st', insert fuel st x = Ret st' →
     primary_size_ st' < 18446744073709551557) ∧
  (∀ st' it v, subscript T_new fuel st x.1 = Ret (st', it, v) →
     primary_size_ st' < 18446744073709551557).
Proof.
  intros Hre Hlt Hlen.
  pose proof (reachable_wf _ _ Hre) as Hwf.
  pose proof (reachable_shaped _ _ Hre) as Hsh.
  pose proof (reachable_is_roomy _ Hre Hlt) as Hro.
  unfold elements in Hlen. rewrite length_fmap in Hlen.
  split; [by apply insert_defined|]. split; [by apply subscript_defined|].
  split.
  - intros st' Hi.
    assert (reachable T_new st') as Hre' by (by eapply reachable_insert).
    apply insert_inv in Hi as (_ & p & _ & [[_ (pos' & Hi)]|[_ ->]]); [|done].
    destruct (Insert_defined fuel st x (home st x.1) Hwf Hsh Hro Hlen
                (roomy_bucket _ _ Hro)) as [_ Hpost].
    apply roomy_below_last;
      [by apply (reachable_shaped T_new)|by eapply Hpost
      |by apply (reachable_tabulated T_new)].
  - intros st' it v Hs.
    assert (reachable T_new st') as Hre' by (by eapply reachable_subscript).
    apply subscript_inv in Hs
      as (_ & p & _ & [(_ & -> & _)|(_ & pos' & s & y & Hi & _)]); [done|].
    destruct (Insert_defined fuel st (x.1, T_new) (home st x.1) Hwf Hsh Hro Hlen
                (roomy_bucket _ _ Hro)) as [_ Hpost].
    apply roomy_below_last;
      [by apply (reachable_shaped T_new)|by eapply Hpost
      |by apply (reachable_tabulated T_new)].
Qed.

(** *** The hash function *)

Lemma erase_at_hasher st pos st' :
  erase_at st pos = Ret st' → hasher_ st' = hasher_ st.
Proof.
  unfold erase_at. intros He.
  repeat (let a := fresh "a" in let Ha := fresh "Ha" in bind_inv He as a Ha).
  by ret_inv He.
Qed.

Lemma step_hasher fuel st o st' :
  step T_new fuel st o = Ret st' → hasher_ st' = hasher_ st.
Proof.
  destruct o as [x|key|key|key|]; simpl; intros Hs.
  - apply insert_inv in Hs as (_ & p & _ & [[_ (pos' & Hi)]|[_ ->]]); [|done].
    by destruct (Insert_appends _ _ _ _ _ _ Hi).
  - apply erase_inv in Hs as (_ & p & _ & [[_ ->]|[_ He]]); [done|].
    by eapply erase_at_hasher.
  - bind_inv Hs as it Hf. by ret_inv Hs.
  - bind_inv Hs as r Hr. ret_inv Hs. destruct r as [[st' it] v]. simpl.
    apply subscript_inv in Hr
      as (_ & p & _ & [(_ & -> & _)|(_ & pos' & s & y & Hi & _)]); [done|].
    by destruct (Insert_appends _ _ _ _ _ _ Hi).
  - by apply clear_inv in Hs as (d & _ & ->).
Qed.

(** X14: [hash_function()] returns the same function after any calls of
    [insert], [erase], [find], [operator[]] and [clear] that return. *)
Theorem hash_function_fixed fuel ops st st' :
  run T_new fuel ops st = Ret st' → hash_function st' = hash_function st.
Proof.
  unfold hash_function. revert st.
  induction ops as [|o ops IH]; intros st Hr; simpl in Hr.
  - by ret_inv Hr.
  - bind_inv Hr as st1 H1. rewrite (IH _ Hr). by eapply step_hasher.
Qed.

(** *** Tables built from scratch *)

Lemma pristine_find_returns fuel st key :
  pristine st → shaped st → roomy st →
  (length (positions_ st) + 2 ≤ fuel)%nat →
  ∃ it, find fuel st key = Ret it ∧
    (key ∉ (elements st).*1 → it = list_end) ∧
    (key ∈ (elements st).*1 → ∃ v, deref (values_ st) it = Ret (key, v)).
Proof.
  intros Hpr Hsh Hro Hfuel. pose proof (pristine_wf _ Hpr) as Hwf.
  pose proof (Find_pristine_terminates st key (home st key) fuel Hpr Hfuel) as Hterm.
  pose proof (Find_defined fuel st key (home st key) Hwf Hsh
                (or_intror (proj2 (home_range st key Hsh Hro)))) as Hdef.
  pose proof (no_throw_Find fuel st key (home st key)) as Hnt.
  unfold find. rewrite (roomy_bucket _ _ Hro), Ret_bind.
  destruct (Find fuel st key (home st key)) as [p|e| |] eqn:Hf;
    [|by destruct (Hnt e)|done|done].
  rewrite Ret_bind. destruct (Z.eqb_spec p NONE) as [->|Hp].
  - exists list_end. split; [done|]. split; [done|].
    intros Hin. by apply Find_None_absent in Hf.
  - destruct (Find_found _ _ _ _ _ Hf Hp) as (s & [k v] & Hs & _ & Hx & Hk).
    simpl in Hk. subst k. rewrite Hs, Ret_bind. exists (value s).
    split; [done|]. split; [|by eauto].
    intros Hout. destruct Hout. by eapply Find_Some_present.
Qed.

(** X15: on a map that the public interface produces without a call of
    [erase] since its table was built, and whose primary size is not the
    last entry of [PRIMES], [find] returns for every key once the fuel
    exceeds the number of entries by two: [end()] for a key that no entry
    has, and an iterator to an entry of the key otherwise. *)
Theorem find_returns_without_erase fuel st key :
  reachable T_new st → erase_free T_new st →
  primary_size_ st < 18446744073709551557 →
  (length (elements st) + 2 ≤ fuel)%nat →
  ∃ it, find fuel st key = Ret it ∧
    (key ∉ (elements st).*1 → it = list_end) ∧
    (key ∈ (elements st).*1 → ∃ v, deref (values_ st) it = Ret (key, v)).
Proof.
  intros Hre Hef Hlt Hfuel.
  pose proof (reachable_shaped _ _ Hre) as Hsh.
  apply pristine_find_returns;
    [by eapply erase_free_pristine|done|by apply reachable_is_roomy|].
  rewrite (shaped_positions _ Hsh). unfold elements in Hfuel.
  by rewrite length_fmap in Hfuel.
Qed.

(** X16: the copy of a map that the public interface produces holds the
    entries of the original in their order and has its hash function and
    its count.  Whatever the slots of the original look like, no slot of
    the copy is marked deleted and no walk along the links of the copy comes
    back to a slot that it has left; unless the primary size of the copy is
    the last entry of [PRIMES], [find] on the copy returns for every key
    once the fuel exceeds the number of entries by two. *)
Theorem copy_constructor fuel (other st : HashMap) :
  reachable T_new other →
  HashMap_copy fuel other = Ret st →
  elements st = elements other ∧
  hash_function st = hash_function other ∧
  size st = size other ∧
  (∀ i s, vec_get (data_ st) i = Ret s → deleted s = false) ∧
  never_revisits st ∧
  (primary_size_ st < 18446744073709551557 →
   ∀ key fuel', (length (elements st) + 2 ≤ fuel')%nat →
     ∃ it, find fuel' st key = Ret it ∧
       (key ∉ (elements st).*1 → it = list_end) ∧
       (key ∈ (elements st).*1 → ∃ v, deref (values_ st) it = Ret (key, v))).
Proof.
  intros Hre Hc.
  assert (reachable T_new st) as Hre' by (by eapply reachable_copy).
  assert (pristine st) as Hpr.
  { apply (erase_free_pristine T_new). by eapply erase_free_copy. }
  pose proof (reachable_shaped _ _ Hre) as Hsh.
  pose proof (reachable_shaped _ _ Hre') as Hsh'.
  unfold HashMap_copy in Hc. rewrite rebuild_from_unfold in Hc.
  destruct (insert_all_elements _ _ _ _ (Insert_appends fuel) Hc) as [He Hh].
  simpl in He, Hh.
  split; [done|]. split; [done|]. split.
  { unfold size. rewrite (shaped_count _ Hsh), (shaped_count _ Hsh').
    by rewrite (values_length_elements _ _ He). }
  split; [by apply pristine_deleted|].
  split; [by apply pristine_never_revisits|].
  intros Hlt key fuel' Hfuel.
  apply pristine_find_returns; [done|done|by apply reachable_is_roomy|].
  rewrite (shaped_positions _ Hsh'). unfold elements in Hfuel.
  by rewrite length_fmap in Hfuel.
Qed.

(** X17: when [Rehash] returns on a map that the public interface produces,
    the entries and their order, the count and the hash function are the
    same; the primary size is an entry of [PRIMES] and the cellar has the
    size computed from it; no slot is marked deleted and no walk along the
    links comes back to a slot that it has left.  On a map without entries
    the primary size is [NextPrime(n)] and every slot is value-initialised. *)
Theorem Rehash_rebuilds fuel st n st' :
  reachable T_new st →
  Rehash fuel st n = Ret st' →
  elements st' = elements st ∧
  hash_function st' = hash_function st ∧
  size st' = size st ∧
  primary_size_ st' ∈ PRIMES ∧
  cellar_size_ st' = cellar_of (primary_size_ st') ∧
  (∀ i s, vec_get (data_ st') i = Ret s → deleted s = false) ∧
  never_revisits st' ∧
  (elements st = [] →
     primary_size_ st' = NextPrime n ∧
     Z.of_nat (length (data_ st')) = wrap (NextPrime n + cellar_of (NextPrime n)) ∧
     ∀ i s, vec_get (data_ st') i = Ret s → s = Data_new).
Proof.
  intros Hre Hr. unfold Rehash in Hr.
  pose proof (reachable_wf _ _ Hre) as Hwf.
  pose proof (reachable_shaped _ _ Hre) as Hsh.
  pose proof (wf_positions_nil _ Hwf) as Hnil.
  destruct (Rehash_with_elements _ _ _ _ (Insert_appends fuel) Hr) as [He Hh].
  pose proof (Rehash_with_shaped _ _ _ _ (Insert_ok fuel) (Insert_shaped fuel)
                Hnil Hr) as Hsh'.
  pose proof (Rehash_with_pristine _ _ _ _ (Insert_pristine fuel) Hnil Hr) as Hpr.
  destruct (Rehash_with_tabulated _ _ _ _ (Insert_tabulated fuel) Hr) as [Hin _].
  split; [done|]. split; [done|]. split.
  { unfold size. rewrite (shaped_count _ Hsh), (shaped_count _ Hsh').
    by rewrite (values_length_elements _ _ He). }
  split; [done|]. split; [by apply shaped_cellar|].
  split; [by apply pristine_deleted|].
  split; [by apply pristine_never_revisits|].
  intros Hempty%elements_nil. rewrite Rehash_with_unfold, Hempty in Hr.
  ret_inv Hr. simpl. split; [done|]. split.
  - rewrite length_replicate, Z2Nat.id; [done|]. apply wrap_range.
  - by intros i s ?%vec_get_replicate.
Qed.

(** At 6584983 primary slots the single precision product is rounded up to
    1071974, so that the cellar has 1071975 slots, one more than the exact
    quotient gives, and the table 7656958. *)
Lemma Rehash_6584983 fuel st st' :
  values_ st = [] → Rehash fuel st 6584983 = Ret st' →
  primary_size_ st' = 6584983 ∧ cellar_size_ st' = 1071975 ∧
  Z.of_nat (length (data_ st')) = 7656958.
Proof.
  intros Hnil Hr. unfold Rehash in Hr. rewrite Rehash_with_unfold, Hnil in Hr.
  assert (NextPrime 6584983 = 6584983) as E1 by (vm_compute; reflexivity).
  assert (cellar_of 6584983 = 1071975) as E2 by (vm_compute; reflexivity).
  rewrite E1, E2 in Hr. injection Hr as <-. unfold fresh_table.
  cbn [primary_size_ cellar_size_ data_].
  split; [done|]. split; [done|].
  rewrite length_replicate, Z2Nat.id by apply wrap_range. reflexivity.
Qed.

(** *** The constructors *)

Lemma push_back_all_elements (vs : list (nat * ValueType)) xs :
  (push_back_all vs xs).*2 = vs.*2 ++ xs.
Proof.
  unfold push_back_all. revert vs.
  induction xs as [|x xs IH]; intros vs; simpl.
  - by rewrite app_nil_r.
  - rewrite IH, fmap_app. simpl. by rewrite <- app_assoc.
Qed.

(** X18: when the constructor from a range returns, the map holds the
    elements of the range in their order, repeated keys included, with the
    given hash function and the count of the elements; no slot is marked
    deleted.  If the keys of the range differ from each other, [find] and
    [at] return every element of the range whenever the fuel suffices. *)
Theorem range_constructor fuel (xs : list ValueType) (hf : Key → Z) st :
  HashMap_range fuel xs hf = Ret st →
  elements st = xs ∧
  hash_function st = hf ∧
  size st = Z.of_nat (length xs) ∧
  (∀ i s, vec_get (data_ st) i = Ret s → deleted s = false) ∧
  (NoDup xs.*1 → ∀ key v, (key, v) ∈ xs →
     ∃ fuel0 it, deref (values_ st) it = Ret (key, v) ∧
       ∀ fuel', (fuel0 ≤ fuel')%nat →
         find fuel' st key = Ret it ∧ at_ fuel' st key = Ret v).
Proof.
  intros Hr.
  assert (reachable T_new st) as Hre by (by eapply reachable_range).
  assert (pristine st) as Hpr.
  { apply (erase_free_pristine T_new). by eapply erase_free_range. }
  pose proof (reachable_shaped _ _ Hre) as Hsh.
  destruct (reachable_tabulated _ _ Hre) as [_ HP].
  unfold HashMap_range in Hr. rewrite HashMap_new_eq in Hr. simpl in Hr.
  destruct (Rehash_with_elements _ _ _ _ (Insert_appends fuel) Hr) as [He Hh].
  unfold elements in He. simpl in He. rewrite push_back_all_elements in He.
  simpl in He, Hh.
  split; [done|]. split; [done|]. split.
  { unfold size. rewrite (shaped_count _ Hsh), <- He. by rewrite length_fmap. }
  split; [by apply pristine_deleted|].
  intros Hnd key v Hin. apply find_present.
  - by apply pristine_wf.
  - lia.
  - unfold elements. by rewrite He.
  - unfold elements. by rewrite He.
Qed.

(** X19: the default constructor returns an empty map with four slots, the
    given hash function, primary size 3 and cellar size 1.  On it, for every
    key, [find] returns [end()], [at] throws [out_of_range] and [erase]
    leaves the object as it is. *)
Theorem default_constructed_empty fuel (hf : Key → Z) :
  ∃ st, HashMap_new fuel hf = Ret st ∧
    elements st = [] ∧ size st = 0 ∧ empty st = true ∧
    begin st = end_ st ∧ hash_function st = hf ∧
    primary_size_ st = 3 ∧ cellar_size_ st = 1 ∧
    length (data_ st) = 4%nat ∧
    ∀ fuel' key,
      find (S fuel') st key = Ret list_end ∧
      at_ (S fuel') st key = Throw out_of_range ∧
      erase (S fuel') st key = Ret st.
Proof.
  eexists. split; [apply HashMap_new_eq|]. simpl.
  do 8 (split; [done|]). intros fuel' key.
  set (st := fresh_table [] 3 1 hf).
  assert (Find (S fuel') st key (home st key) = Ret NONE) as HF.
  { rewrite Find_S. unfold home. simpl.
    pose proof (Z.mod_pos_bound (hf key) 3 ltac:(lia)) as Hh.
    generalize dependent (hf key `mod` 3). intros h Hh.
    assert (h = 0 ∨ h = 1 ∨ h = 2) as Hcases by lia.
    destruct Hcases as [-> | [-> | ->]]; reflexivity. }
  assert (bucket st key = Ret (home st key)) as Hb by (by apply bucket_Ret).
  assert (find (S fuel') st key = Ret list_end) as Hfind.
  { unfold find. by rewrite Hb, Ret_bind, HF. }
  split; [done|]. split.
  - by rewrite at_unfold, Hfind.
  - by rewrite erase_unfold, Hb, Ret_bind, HF.
Qed.

End MemberFunctions.

(** ** The load factor *)

Section Load.

Context {Key T : Type} `{EqDecision Key} `{EqDecision T}.

Variable T_new : T.

Local Abbreviation ValueType := (@ValueType Key T).
Local Abbreviation HashMap := (HashMap Key T).

Implicit Types (st : HashMap) (x : ValueType) (pos : Z) (key : Key).
Implicit Types (ins : HashMap → ValueType → Z → outcome (HashMap * Z)).

Lemma NextPrime_ge n : n ≤ 2 ^ 63 → n ≤ NextPrime n.
Proof.
  intros Hn. destruct (NextPrime_cases n) as [(_ & Hle & _)|[-> _]]; lia.
Qed.

Lemma insert_all_light ins xs st st' :
  inserts_ok ins → inserts_shaped ins → appends ins → inserts_defined ins →
  inserts_light ins →
  wf st → shaped st → roomy st → light st →
  Z.of_nat (length (values_ st)) + Z.of_nat (length xs) ≤ 2 ^ 60 →
  insert_all ins xs st = Ret st' →
  light st' ∧ primary_size_ st ≤ primary_size_ st'.
Proof.
  intros Hok Hshaped Happ Hdef Hlight. revert st.
  induction xs as [|x xs IH]; intros st Hwf Hsh Hro Hli Hlen Hrun.
  - by ret_inv Hrun.
  - apply insert_all_cons in Hrun as (pos & st1 & pos1 & Hb & Hi & Hrun).
    simpl in Hlen.
    destruct (Hok _ _ _ _ _ Hwf Hb Hi) as [Hwf1 _].
    pose proof (Hshaped _ _ _ _ _ Hwf Hsh Hb Hi) as Hsh1.
    destruct (Hdef st x pos Hwf Hsh Hro ltac:(lia) Hb) as [_ Hro1].
    specialize (Hro1 _ _ Hi).
    destruct (Hlight _ _ _ _ _ Hwf Hsh Hro Hli ltac:(lia) Hb Hi) as [Hli1 HP1].
    destruct (Happ _ _ _ _ _ Hi) as [He _].
    unfold elements in He. apply (f_equal length) in He.
    rewrite length_app, !length_fmap in He. simpl in He.
    destruct (IH st1 Hwf1 Hsh1 Hro1 Hli1 ltac:(lia) Hrun) as [Hli' HP'].
    split; [done|lia].
Qed.

Lemma Rehash_with_light ins st n st' :
  inserts_ok ins → inserts_shaped ins → appends ins → inserts_defined ins →
  inserts_light ins →
  n ≤ 2 ^ 63 → Z.of_nat (length (values_ st)) ≤ 2 ^ 60 →
  Rehash_with ins st n = Ret st' →
  light st' ∧ n ≤ primary_size_ st'.
Proof.
  intros Hok Hshaped Happ Hdef Hlight Hn Hlen. rewrite Rehash_with_unfold.
  pose proof (NextPrime_ge n Hn) as Hge.
  pose proof (NextPrime_ge_3 n) as H3.
  destruct (values_ st) as [|e vs] eqn:Hvs.
  - intros Hr. ret_inv Hr. unfold light. simpl. lia.
  - unfold elements. rewrite Hvs. intros Hr.
    apply insert_all_light in Hr as [Hli HP]; try done.
    + split; [done|]. simpl in HP. lia.
    + apply fresh_table_wf.
    + apply fresh_table_shaped.
    + by apply fresh_table_roomy.
    + unfold light. simpl. lia.
    + simpl. rewrite length_fmap. simpl in Hlen. lia.
Qed.

Lemma Rehash_in_Insert_light fuel st n st1 :
  inserts_light (Insert (Key:=Key) (T:=T) fuel) →
  n ≤ 2 ^ 63 → Z.of_nat (length (values_ st)) < 2 ^ 60 →
  Rehash_with (Insert fuel) st n = Ret st1 →
  light st1 ∧ n ≤ primary_size_ st1.
Proof.
  intros Hlight Hn Hlen.
  apply Rehash_with_light;
    [apply Insert_ok|apply Insert_shaped|apply Insert_appends
    |apply Insert_defined|done|done|lia].
Qed.

Lemma rehash_if_loaded_light fuel st x st1 pos1 :
  inserts_light (Insert (Key:=Key) (T:=T) fuel) →
  wf st → shaped st → roomy st → light st →
  Z.of_nat (length (values_ st)) < 2 ^ 60 →
  rehash_if_loaded (Insert fuel) st x (home st x.1) = Ret (st1, pos1) →
  2 * Z.of_nat (length (values_ st)) ≤ primary_size_ st1 ∧
  primary_size_ st ≤ primary_size_ st1.
Proof.
  intros Hlight Hwf Hsh Hro Hli Hlen. unfold rehash_if_loaded.
  destruct (Z.ltb_spec (primary_size_ st) (shl (element_count_ st) 1)) as [Hload|Hload];
    rewrite (shaped_count _ Hsh), shl_small in Hload by lia.
  - destruct Hro as [HP Hsum]. unfold light in Hli.
    assert (shl (primary_size_ st) 1 = primary_size_ st * 2) as ->
      by (rewrite shl_small; lia).
    intros Hr. bind_inv Hr as st2 Hre. bind_inv Hr as pos2 Hb. ret_inv Hr.
    apply Rehash_in_Insert_light in Hre as [_ Hge]; [lia|done|lia|done].
  - intros Hr. ret_inv Hr. lia.
Qed.

Lemma store_light st x pos st' pos' :
  2 * Z.of_nat (length (values_ st)) ≤ primary_size_ st →
  store st x pos = Ret (st', pos') →
  light st' ∧ primary_size_ st' = primary_size_ st.
Proof.
  intros Hload (s & d & _ & _ & _ & ->)%store_inv. unfold light. simpl.
  rewrite length_app. simpl. split; [lia|done].
Qed.

Lemma Insert_light fuel : inserts_light (Insert (Key:=Key) (T:=T) fuel).
Proof.
  induction fuel as [|fuel IH];
    intros st x pos st' pos' Hwf Hsh Hro Hli Hlen Hb Hi; [done|].
  apply bucket_Ret in Hb as [_ ->]. rewrite Insert_S in Hi.
  bind_inv Hi as r Hr. destruct r as [st1 pos1].
  destruct (rehash_if_loaded_defined fuel st x (Insert_defined fuel)
              Hwf Hsh Hro Hlen) as [_ Hpost].
  destruct (Hpost _ _ Hr) as (Hwf1 & Hsh1 & Hro1 & Hlen1 & ->).
  destruct (rehash_if_loaded_light _ _ _ _ _ IH Hwf Hsh Hro Hli Hlen Hr)
    as [Hload HP].
  rewrite <- Hlen1 in Hload, Hlen. clear Hpost Hr.
  bind_inv Hi as head Hhead.
  destruct (used head).
  2: { apply store_light in Hi as [? ?]; [|done]. split; [done|lia]. }
  bind_inv Hi as w Hw. destruct w as [last distance].
  bind_inv Hi as last_slot Hl.
  destruct (used last_slot).
  2: { apply store_light in Hi as [? ?]; [|done]. split; [done|lia]. }
  bind_inv Hi as f Hf. destruct f as [next_free|].
  - bind_inv Hi as d Hd.
    apply store_light in Hi as [? HP']; [|done]. simpl in HP'. split; [done|lia].
  - apply free_scan_None in Hf.
    rewrite (shaped_count _ Hsh1), shl_small in Hf by lia.
    bind_inv Hi as st2 Hre. bind_inv Hi as pos2 Hb2.
    destruct Hro1 as [HP1 Hsum1].
    assert (shl (primary_size_ st1) 1 = primary_size_ st1 * 2) as E
      by (rewrite shl_small; lia).
    rewrite E in Hre.
    destruct (Rehash_in_Insert_defined fuel st1 (primary_size_ st1 * 2)
                (Insert_defined fuel) Hwf1 ltac:(lia) Hlen) as [_ Hpost].
    destruct (Hpost _ Hre) as (Hwf2 & Hsh2 & Hro2 & Hlen2).
    destruct (Rehash_in_Insert_light fuel st1 (primary_size_ st1 * 2) st2 IH
                ltac:(lia) Hlen Hre) as [Hli2 Hge2].
    destruct (IH _ _ _ _ _ Hwf2 Hsh2 Hro2 Hli2 ltac:(lia) Hb2 Hi) as [Hli' HP'].
    split; [done|lia].
Qed.

End Load.

(** ** More fuel does not change a result *)

Section Fuel.

Context {Key T : Type} `{EqDecision Key} `{EqDecision T}.

Variable T_new : T.

Local Abbreviation ValueType := (@ValueType Key T).
Local Abbreviation HashMap := (HashMap Key T).

Implicit Types (st : HashMap) (x : ValueType) (pos : Z) (key : Key).
Implicit Types (ins : HashMap → ValueType → Z → outcome (HashMap * Z)).

Lemma chain_walk_fuel_mono fuel fuel' (d : list Data) pos distance r :
  (fuel ≤ fuel')%nat →
  chain_walk fuel d pos distance = Ret r → chain_walk fuel' d pos distance = Ret r.
Proof.
  revert fuel' pos distance.
  induction fuel as [|fuel IH]; intros fuel' pos distance Hle Hw; [done|].
  destruct fuel' as [|fuel']; [lia|].
  rewrite chain_walk_S in *. bind_inv Hw as s Hs. rewrite Hs, Ret_bind.
  destruct (_ && _); [|done]. apply IH; [lia|done].
Qed.

Lemma free_scan_fuel_mono fuel fuel' st next_free distance r :
  (fuel ≤ fuel')%nat →
  free_scan fuel st next_free distance = Ret r →
  free_scan fuel' st next_free distance = Ret r.
Proof.
  revert fuel' next_free distance.
  induction fuel as [|fuel IH]; intros fuel' next_free distance Hle Hf; [done|].
  destruct fuel' as [|fuel']; [lia|].
  rewrite free_scan_S in *. bind_inv Hf as s Hs. rewrite Hs, Ret_bind.
  destruct (used s); [|done]. destruct (_ && _); [done|].
  apply IH; [lia|done].
Qed.

Lemma insert_all_extends ins ins' xs st st' :
  extends ins ins' →
  insert_all ins xs st = Ret st' → insert_all ins' xs st = Ret st'.
Proof.
  intros Hext. revert st. induction xs as [|x xs IH]; intros st Hrun; [done|].
  apply insert_all_cons in Hrun as (pos & st1 & pos1 & Hb & Hi & Hrun).
  simpl. rewrite Hb, Ret_bind, (Hext _ _ _ _ Hi), Ret_bind. by apply IH.
Qed.

Lemma Rehash_with_extends ins ins' st n st' :
  extends ins ins' →
  Rehash_with ins st n = Ret st' → Rehash_with ins' st n = Ret st'.
Proof.
  intros Hext. rewrite !Rehash_with_unfold.
  destruct (values_ st); [done|]. by apply insert_all_extends.
Qed.

Lemma rehash_if_loaded_extends ins ins' st x pos r :
  extends ins ins' →
  rehash_if_loaded ins st x pos = Ret r → rehash_if_loaded ins' st x pos = Ret r.
Proof.
  intros Hext. unfold rehash_if_loaded. destruct (_ <? _); [|done].
  intros Hr. bind_inv Hr as st1 Hre.
  by rewrite (Rehash_with_extends _ _ _ _ _ Hext Hre), Ret_bind.
Qed.

Lemma Insert_fuel_mono fuel fuel' :
  (fuel ≤ fuel')%nat →
  extends (Insert (Key:=Key) (T:=T) fuel) (Insert fuel').
Proof.
  revert fuel'. induction fuel as [|fuel IH]; intros fuel' Hle st x pos r Hi; [done|].
  destruct fuel' as [|fuel']; [lia|].
  assert (extends (Insert (Key:=Key) (T:=T) fuel) (Insert fuel')) as Hext
    by (apply IH; lia).
  rewrite Insert_S in *. bind_inv Hi as r1 Hr.
  rewrite (rehash_if_loaded_extends _ _ _ _ _ _ Hext Hr), Ret_bind.
  destruct r1 as [st1 pos1].
  bind_inv Hi as head Hhead. rewrite Hhead, Ret_bind.
  destruct (used head); [|done].
  bind_inv Hi as w Hw.
  rewrite (chain_walk_fuel_mono fuel fuel' _ _ _ _ ltac:(lia) Hw), Ret_bind.
  destruct w as [last distance].
  bind_inv Hi as last_slot Hl. rewrite Hl, Ret_bind.
  destruct (used last_slot); [|done].
  bind_inv Hi as f Hf.
  rewrite (free_scan_fuel_mono fuel fuel' _ _ _ _ ltac:(lia) Hf), Ret_bind.
  destruct f as [next_free|]; [done|].
  bind_inv Hi as st2 Hre.
  rewrite (Rehash_with_extends _ _ _ _ _ Hext Hre), Ret_bind.
  bind_inv Hi as pos2 Hb. rewrite Hb, Ret_bind. by apply Hext.
Qed.

Lemma insert_fuel_mono fuel fuel' st x st' :
  (fuel ≤ fuel')%nat →
  insert fuel st x = Ret st' → insert fuel' st x = Ret st'.
Proof.
  intros Hle. unfold insert. intros Hi.
  bind_inv Hi as h Hh. rewrite Hh, Ret_bind.
  bind_inv Hi as p Hf. rewrite (Find_fuel_mono _ _ _ _ _ _ Hle Hf), Ret_bind.
  destruct (p =? NONE); [|done].
  bind_inv Hi as r Hr. by rewrite (Insert_fuel_mono _ _ Hle _ _ _ _ Hr).
Qed.

Lemma erase_fuel_mono fuel fuel' st key st' :
  (fuel ≤ fuel')%nat →
  erase fuel st key = Ret st' → erase fuel' st key = Ret st'.
Proof.
  intros Hle. rewrite !erase_unfold. intros He.
  bind_inv He as h Hh. rewrite Hh, Ret_bind.
  bind_inv He as p Hf. by rewrite (Find_fuel_mono _ _ _ _ _ _ Hle Hf), Ret_bind.
Qed.

Lemma find_fuel_mono fuel fuel' st key it :
  (fuel ≤ fuel')%nat →
  find fuel st key = Ret it → find fuel' st key = Ret it.
Proof.
  intros Hle. unfold find. intros He.
  bind_inv He as h Hh. rewrite Hh, Ret_bind.
  bind_inv He as p Hf. by rewrite (Find_fuel_mono _ _ _ _ _ _ Hle Hf), Ret_bind.
Qed.

Lemma subscript_fuel_mono fuel fuel' st key r :
  (fuel ≤ fuel')%nat →
  subscript T_new fuel st key = Ret r → subscript T_new fuel' st key = Ret r.
Proof.
  intros Hle. unfold subscript. intros Hs.
  bind_inv Hs as h Hh. rewrite Hh, Ret_bind.
  bind_inv Hs as p Hf. rewrite (Find_fuel_mono _ _ _ _ _ _ Hle Hf), Ret_bind.
  destruct (negb (p =? NONE)); [done|].
  bind_inv Hs as r1 Hr. by rewrite (Insert_fuel_mono _ _ Hle _ _ _ _ Hr), Ret_bind.
Qed.

Lemma step_fuel_mono fuel fuel' st o st' :
  (fuel ≤ fuel')%nat →
  step T_new fuel st o = Ret st' → step T_new fuel' st o = Ret st'.
Proof.
  intros Hle. destruct o as [x|key|key|key|]; simpl; intros Hs.
  - by eapply insert_fuel_mono.
  - by eapply erase_fuel_mono.
  - bind_inv Hs as it Hf. by rewrite (find_fuel_mono _ _ _ _ _ Hle Hf).
  - bind_inv Hs as r Hr. by rewrite (subscript_fuel_mono _ _ _ _ _ Hle Hr).
  - done.
Qed.

Lemma run_fuel_mono fuel fuel' ops st st' :
  (fuel ≤ fuel')%nat →
  run T_new fuel ops st = Ret st' → run T_new fuel' ops st = Ret st'.
Proof.
  intros Hle. revert st. induction ops as [|o ops IH]; intros st Hr; [done|].
  simpl in *. bind_inv Hr as st1 H1.
  rewrite (step_fuel_mono _ _ _ _ _ Hle H1), Ret_bind. by apply IH.
Qed.

End Fuel.

(** ** The scan for an unused slot ends *)

Section Scan.

Context {Key T : Type} `{EqDecision Key} `{EqDecision T}.

Local Abbreviation ValueType := (@ValueType Key T).
Local Abbreviation HashMap := (HashMap Key T).

Implicit Types (st : HashMap) (x : ValueType) (pos : Z) (key : Key).

(** A table with fewer entries than slots has a slot that is not in use. *)
Lemma unused_slot_exists st :
  wf st → shaped st →
  (length (values_ st) < length (data_ st))%nat →
  ∃ u s, vec_get (data_ st) u = Ret s ∧ used s = false.
Proof.
  intros Hwf Hsh Hlt.
  destruct (decide (Forall (λ i, i ∈ positions_ st)
                      (seqZ 0 (Z.of_nat (length (data_ st)))))) as [Hall|Hex].
  - assert (seqZ 0 (Z.of_nat (length (data_ st))) ⊆+ positions_ st) as Hsub.
    { apply NoDup_submseteq; [apply NoDup_seqZ|].
      rewrite list.Forall_forall in Hall. intros i Hi. by apply Hall. }
    apply submseteq_length in Hsub.
    rewrite length_seqZ, (shaped_positions _ Hsh) in Hsub. lia.
  - apply not_Forall_Exists in Hex; [|intros i; apply _].
    apply list.Exists_exists in Hex as (u & Hu%elem_of_seqZ & Hout).
    destruct (vec_get_total (data_ st) u) as [s Hs]; [lia|].
    exists u, s. split; [done|].
    destruct (used s) eqn:Hus; [|done]. destruct Hout.
    destruct (wf_used _ Hwf _ _ Hs Hus) as (_ & _ & _ & [_ Hp]%vec_get_Ret).
    apply list_elem_of_lookup. eauto.
Qed.

Lemma iter_step_down_le st (k : nat) p :
  Z.of_nat k ≤ p → Nat.iter k (step_down st) p = p - Z.of_nat k.
Proof.
  induction k as [|k IH]; intros Hk; simpl; [lia|].
  rewrite IH by lia. unfold step_down.
  destruct (Z.eqb_spec (p - Z.of_nat k) 0); lia.
Qed.

(** From every slot the scan comes to every other slot in fewer steps than
    there are slots. *)
Lemma scan_reaches st p u :
  shaped st → roomy st →
  0 ≤ p < Z.of_nat (length (data_ st)) →
  0 ≤ u < Z.of_nat (length (data_ st)) →
  ∃ k : nat, (k < length (data_ st))%nat ∧ Nat.iter k (step_down st) p = u.
Proof.
  intros Hsh Hro Hp Hu. destruct (roomy_length _ Hsh Hro) as [Hlen HC].
  destruct Hro as [HP Hsum].
  destruct (decide (u ≤ p)) as [Hle|Hgt].
  - exists (Z.to_nat (p - u)). split; [lia|].
    rewrite iter_step_down_le; lia.
  - exists (Z.to_nat (Z.of_nat (length (data_ st)) - 1 - u) + S (Z.to_nat p))%nat.
    split; [lia|].
    rewrite Nat.iter_add. simpl.
    rewrite (iter_step_down_le st (Z.to_nat p) p) by lia.
    replace (p - Z.of_nat (Z.to_nat p)) with 0 by lia.
    unfold step_down at 2. simpl.
    rewrite wrap_small by lia. rewrite iter_step_down_le; lia.
Qed.

Lemma free_scan_reaches st (k : nat) :
  shaped st → roomy st →
  ∀ fuel p distance,
    (k < fuel)%nat →
    0 ≤ p < Z.of_nat (length (data_ st)) →
    (∃ s, vec_get (data_ st) (Nat.iter k (step_down st) p) = Ret s ∧
          used s = false) →
    free_scan fuel st p distance ≠ OutOfFuel.
Proof.
  intros Hsh Hro. induction k as [|k IH]; intros fuel p distance Hk Hp Hu.
  - destruct fuel as [|fuel]; [lia|]. rewrite free_scan_S.
    destruct Hu as (s & Hs & Hus). simpl in Hs. by rewrite Hs, Ret_bind, Hus.
  - destruct fuel as [|fuel]; [lia|]. rewrite free_scan_S.
    destruct (vec_get_total _ _ Hp) as [s0 Hs0]. rewrite Hs0, Ret_bind.
    destruct (used s0); [|done]. destruct (_ && _); [done|].
    apply IH; [lia|by apply step_down_range|].
    by rewrite <- Nat.iter_succ_r.
Qed.

Lemma free_scan_returns fuel st distance :
  wf st → shaped st → roomy st →
  (length (values_ st) < length (data_ st))%nat →
  (length (data_ st) ≤ fuel)%nat →
  ∃ r, free_scan fuel st (start_pos_ st) distance = Ret r.
Proof.
  intros Hwf Hsh Hro Hlt Hfuel.
  pose proof (start_pos_range _ Hsh Hro) as Hstart.
  destruct (unused_slot_exists _ Hwf Hsh Hlt) as (u & s & Hs & Hus).
  destruct (scan_reaches st (start_pos_ st) u Hsh Hro Hstart
              (vec_get_range _ _ _ Hs)) as (k & Hk & Hiter).
  pose proof (free_scan_reaches st k Hsh Hro fuel (start_pos_ st) distance
                ltac:(lia) Hstart) as Hterm.
  pose proof (free_scan_defined fuel st (start_pos_ st) distance Hsh Hro Hstart)
    as Hdef.
  pose proof (no_throw_free_scan fuel st (start_pos_ st) distance) as Hnt.
  destruct (free_scan _ _ _ _) as [r|e| |]; [by eauto|by destruct (Hnt e)|done|].
  destruct Hterm; [|done]. rewrite Hiter. eauto.
Qed.

End Scan.

(** ** [Insert] returns on a table without deleted slots *)

Section Termination.

Context {Key T : Type} `{EqDecision Key} `{EqDecision T}.

Variable T_new : T.

Local Abbreviation ValueType := (@ValueType Key T).
Local Abbreviation HashMap := (HashMap Key T).

Implicit Types (st : HashMap) (x : ValueType) (pos : Z) (key : Key).

Lemma chain_walk_returns fuel st pos distance :
  pristine st → shaped st →
  0 ≤ pos < Z.of_nat (length (data_ st)) →
  (length (positions_ st) + 2 ≤ fuel)%nat →
  ∃ r, chain_walk fuel (data_ st) pos distance = Ret r.
Proof.
  intros Hpr Hsh Hpos Hfuel.
  pose proof (chain_walk_pristine_terminates st pos distance fuel Hpr Hfuel) as Hterm.
  pose proof (chain_walk_defined fuel (data_ st) pos distance
                (shaped_links _ Hsh) Hpos) as Hdef.
  pose proof (no_throw_chain_walk fuel (data_ st) pos distance) as Hnt.
  destruct (chain_walk _ _ _ _) as [r|e| |]; [by eauto|by destruct (Hnt e)|done..].
Qed.

Lemma Find_returns fuel st key :
  pristine st → shaped st → roomy st →
  (length (positions_ st) + 2 ≤ fuel)%nat →
  ∃ p, Find fuel st key (home st key) = Ret p.
Proof.
  intros Hpr Hsh Hro Hfuel. pose proof (pristine_wf _ Hpr) as Hwf.
  pose proof (Find_pristine_terminates st key (home st key) fuel Hpr Hfuel) as Hterm.
  pose proof (Find_defined fuel st key (home st key) Hwf Hsh
                (or_intror (proj2 (home_range st key Hsh Hro)))) as Hdef.
  pose proof (no_throw_Find fuel st key (home st key)) as Hnt.
  destruct (Find _ _ _ _) as [p|e| |]; [by eauto|by destruct (Hnt e)|done..].
Qed.

Lemma insert_all_returns bound m xs st :
  bound ≤ 2 ^ 60 → returns_from (Key:=Key) (T:=T) bound m →
  pristine st → shaped st → roomy st → light st →
  Z.of_nat (length (values_ st)) + Z.of_nat (length xs) ≤ bound →
  4 * bound ≤ primary_size_ st + Z.of_nat m →
  ∃ fuel st', insert_all (Insert fuel) xs st = Ret st'.
Proof.
  intros Hbound Hins. revert st.
  induction xs as [|x xs IH]; intros st Hpr Hsh Hro Hli Hlen Hm.
  - by exists O, st.
  - simpl in Hlen. pose proof (pristine_wf _ Hpr) as Hwf.
    pose proof (roomy_bucket st x.1 Hro) as Hb.
    destruct (Hins st x Hpr Hsh Hro Hli ltac:(lia) Hm) as (f1 & [st1 pos1] & Hi).
    pose proof (Insert_pristine _ _ _ _ _ _ Hpr Hb Hi) as Hpr1.
    pose proof (Insert_shaped _ _ _ _ _ _ Hwf Hsh Hb Hi) as Hsh1.
    destruct (Insert_defined f1 st x _ Hwf Hsh Hro ltac:(lia) Hb) as [_ Hro1].
    specialize (Hro1 _ _ Hi).
    destruct (Insert_light _ _ _ _ _ _ Hwf Hsh Hro Hli ltac:(lia) Hb Hi)
      as [Hli1 HP1].
    destruct (Insert_appends _ _ _ _ _ _ Hi) as [He _].
    unfold elements in He. apply (f_equal length) in He.
    rewrite length_app, !length_fmap in He. simpl in He.
    destruct (IH st1 Hpr1 Hsh1 Hro1 Hli1 ltac:(lia) ltac:(lia)) as (f2 & st' & Hrun).
    exists (f1 `max` f2)%nat, st'. simpl. rewrite Hb, Ret_bind.
    rewrite (Insert_fuel_mono f1 (f1 `max` f2) ltac:(lia) _ _ _ _ Hi), Ret_bind.
    eapply insert_all_extends; [|exact Hrun]. apply Insert_fuel_mono. lia.
Qed.

Lemma Rehash_returns bound m st n :
  bound ≤ 2 ^ 60 → returns_from (Key:=Key) (T:=T) bound m →
  Z.of_nat (length (values_ st)) ≤ bound →
  n ≤ 2 ^ 63 → 4 * bound ≤ NextPrime n + Z.of_nat m →
  ∃ fuel st1, Rehash_with (Insert fuel) st n = Ret st1.
Proof.
  intros Hbound Hins Hlen Hn Hm.
  pose proof (NextPrime_ge_3 n) as H3.
  destruct (insert_all_returns bound m (elements st)
              (fresh_table [] (NextPrime n) (cellar_of (NextPrime n)) (hasher_ st))
              Hbound Hins) as (fuel & st1 & Hrun).
  - apply fresh_table_pristine.
  - apply fresh_table_shaped.
  - by apply fresh_table_roomy.
  - unfold light. simpl. lia.
  - unfold elements. simpl. rewrite length_fmap. lia.
  - done.
  - exists fuel. rewrite Rehash_with_unfold.
    destruct (values_ st); [by eauto|]. by exists st1.
Qed.

(** What a rehash inside [Insert] yields. *)
Lemma Rehash_in_Insert_facts fuel st n st1 :
  pristine st → n ≤ 2 ^ 63 → Z.of_nat (length (values_ st)) < 2 ^ 60 →
  Rehash_with (Insert fuel) st n = Ret st1 →
  pristine st1 ∧ shaped st1 ∧ roomy st1 ∧ light st1 ∧
  length (values_ st1) = length (values_ st) ∧
  n ≤ primary_size_ st1.
Proof.
  intros Hpr Hn Hlen Hre. pose proof (pristine_wf _ Hpr) as Hwf.
  destruct (Rehash_in_Insert_defined fuel st n (Insert_defined fuel) Hwf Hn Hlen)
    as [_ Hpost].
  destruct (Hpost _ Hre) as (Hwf1 & Hsh1 & Hro1 & Hlen1).
  destruct (Rehash_in_Insert_light fuel st n st1 (Insert_light fuel) Hn Hlen Hre)
    as [Hli1 Hge].
  split; [|do 4 (split; [done|]); done].
  apply (Rehash_with_pristine (Insert fuel) st n st1);
    [apply Insert_pristine|by apply wf_positions_nil|done].
Qed.

Lemma Insert_returns_step bound m :
  bound ≤ 2 ^ 60 →
  (∀ m', (m' < m)%nat → returns_from (Key:=Key) (T:=T) bound m') →
  returns_from (Key:=Key) (T:=T) bound m.
Proof.
  intros Hbound IH st x Hpr Hsh Hro Hli Hlen Hm.
  pose proof (pristine_wf _ Hpr) as Hwf.
  (* the first statement *)
  assert (∃ fa st1,
    (∀ f, (fa ≤ f)%nat →
       rehash_if_loaded (Insert f) st x (home st x.1) = Ret (st1, home st1 x.1)) ∧
    pristine st1 ∧ shaped st1 ∧ roomy st1 ∧
    length (values_ st1) = length (values_ st) ∧
    2 * Z.of_nat (length (values_ st)) ≤ primary_size_ st1 ∧
    primary_size_ st ≤ primary_size_ st1)
    as (fa & st1 & HA & Hpr1 & Hsh1 & Hro1 & Hlen1 & Hload & HP).
  { unfold rehash_if_loaded.
    destruct (Z.ltb_spec (primary_size_ st) (shl (element_count_ st) 1))
      as [Hl|Hl]; rewrite (shaped_count _ Hsh), shl_small in Hl by lia.
    - destruct Hro as [HP2 Hsum]. unfold light in Hli.
      assert (shl (primary_size_ st) 1 = primary_size_ st * 2) as ->
        by (rewrite shl_small; lia).
      destruct m as [|m]; [lia|].
      pose proof (NextPrime_ge (primary_size_ st * 2) ltac:(lia)) as Hge.
      destruct (Rehash_returns bound m st (primary_size_ st * 2) Hbound
                  (IH m ltac:(lia)) ltac:(lia) ltac:(lia) ltac:(lia))
        as (fa & st1 & Hre).
      destruct (Rehash_in_Insert_facts fa st (primary_size_ st * 2) st1 Hpr
                  ltac:(lia) ltac:(lia) Hre)
        as (Hpr1 & Hsh1 & Hro1 & Hli1 & Hlen1 & Hge1).
      exists fa, st1. split.
      { intros f Hf.
        rewrite (Rehash_with_extends _ _ _ _ _ (Insert_fuel_mono fa f Hf) Hre).
        by rewrite Ret_bind, (roomy_bucket _ _ Hro1). }
      do 4 (split; [done|]). lia.
    - exists O, st. split; [done|]. do 4 (split; [done|]). lia. }
  rewrite <- Hlen1 in Hload, Hlen.
  pose proof (pristine_wf _ Hpr1) as Hwf1.
  destruct (home_range st1 x.1 Hsh1 Hro1) as [_ Hhome].
  destruct (vec_get_total _ _ Hhome) as [head Hhead].
  destruct (used head) eqn:Hu.
  2: { destruct (store_returns st1 x (home st1 x.1) Hhome) as (st' & Hst & _).
       exists (S fa). eexists.
       by rewrite Insert_S, (HA fa) by lia; simpl; rewrite Hhead, Ret_bind, Hu. }
  (* the first loop *)
  set (b1 := (length (positions_ st1) + 2)%nat).
  destruct (chain_walk_returns b1 st1 (home st1 x.1) 0 Hpr1 Hsh1 Hhome
              ltac:(lia)) as ([last distance] & Hw).
  pose proof (chain_walk_range _ _ _ _ _ _ (shaped_links _ Hsh1) Hhome Hw) as Hlast.
  destruct (vec_get_total _ _ Hlast) as [last_slot Hl].
  destruct (used last_slot) eqn:Hul.
  2: { destruct (store_returns st1 x last Hlast) as (st' & Hst & _).
       set (f := (fa `max` b1)%nat).
       exists (S f). eexists.
       rewrite Insert_S, (HA f) by lia. simpl.
       rewrite Hhead, Ret_bind, Hu.
       rewrite (chain_walk_fuel_mono b1 f _ _ _ _ ltac:(lia) Hw), Ret_bind.
       by rewrite Hl, Ret_bind, Hul. }
  (* the second loop *)
  destruct (roomy_length _ Hsh1 Hro1) as [HL HC].
  set (b2 := length (data_ st1)).
  destruct (free_scan_returns b2 st1 distance Hwf1 Hsh1 Hro1 ltac:(lia)
              ltac:(lia)) as (res & Hf).
  destruct res as [next_free|].
  - pose proof Hf as Hf'.
    apply free_scan_unused in Hf' as (sf & Hsf%vec_get_range & _).
    destruct (vec_set_total (data_ st1) last (set_next last_slot next_free) Hlast)
      as [d Hd].
    destruct (store_returns (with_data (with_start_pos st1 next_free) d) x next_free)
      as (st' & Hst & _).
    { simpl. by rewrite (vec_set_length _ _ _ _ Hd). }
    set (f := (fa `max` (b1 `max` b2))%nat).
    exists (S f). eexists.
    rewrite Insert_S, (HA f) by lia. simpl.
    rewrite Hhead, Ret_bind, Hu.
    rewrite (chain_walk_fuel_mono b1 f _ _ _ _ ltac:(lia) Hw), Ret_bind.
    rewrite Hl, Ret_bind, Hul.
    rewrite (free_scan_fuel_mono b2 f _ _ _ _ ltac:(lia) Hf), Ret_bind.
    by rewrite Hd, Ret_bind.
  - pose proof Hf as Hf'. apply free_scan_None in Hf'.
    rewrite (shaped_count _ Hsh1), shl_small in Hf' by lia.
    pose proof Hro1 as [HP1 Hsum1].
    assert (shl (primary_size_ st1) 1 = primary_size_ st1 * 2) as E
      by (rewrite shl_small; lia).
    destruct m as [|m]; [lia|].
    pose proof (NextPrime_ge (primary_size_ st1 * 2) ltac:(lia)) as Hge.
    destruct (Rehash_returns bound m st1 (primary_size_ st1 * 2) Hbound
                (IH m ltac:(lia)) ltac:(lia) ltac:(lia) ltac:(lia))
      as (fb & st2 & Hre).
    destruct (Rehash_in_Insert_facts fb st1 (primary_size_ st1 * 2) st2 Hpr1
                ltac:(lia) ltac:(lia) Hre)
      as (Hpr2 & Hsh2 & Hro2 & Hli2 & Hlen2 & Hge2).
    destruct (IH m ltac:(lia) st2 x Hpr2 Hsh2 Hro2 Hli2 ltac:(lia) ltac:(lia))
      as (fc & r & Hi).
    set (f := (fa `max` (b1 `max` (b2 `max` (fb `max` fc))))%nat).
    exists (S f), r.
    rewrite Insert_S, (HA f) by lia. simpl.
    rewrite Hhead, Ret_bind, Hu.
    rewrite (chain_walk_fuel_mono b1 f _ _ _ _ ltac:(lia) Hw), Ret_bind.
    rewrite Hl, Ret_bind, Hul.
    rewrite (free_scan_fuel_mono b2 f _ _ _ _ ltac:(lia) Hf), Ret_bind.
    rewrite E.
    rewrite (Rehash_with_extends _ _ _ _ _ (Insert_fuel_mono fb f ltac:(lia)) Hre).
    rewrite Ret_bind, (roomy_bucket _ _ Hro2), Ret_bind.
    by apply (Insert_fuel_mono fc f ltac:(lia)).
Qed.

Lemma Insert_returns bound m : bound ≤ 2 ^ 60 → returns_from (Key:=Key) (T:=T) bound m.
Proof.
  intros Hbound. induction m as [m IH] using lt_wf_ind.
  by apply Insert_returns_step.
Qed.

End Termination.

(** ** Sequences of calls on a default-constructed map *)

Section Runs.

Context {Key T : Type} `{EqDecision Key} `{EqDecision T}.

Variable T_new : T.

Local Abbreviation ValueType := (@ValueType Key T).
Local Abbreviation HashMap := (HashMap Key T).

Implicit Types (st : HashMap) (x : ValueType) (pos : Z) (key : Key).

Lemma sound_weaken st n n' : sound st n → n ≤ n' → sound st n'.
Proof. intros [? ? ? ? ?] Hn. split; [done..|lia]. Qed.

Lemma new_sound (hf : Key → Z) : sound (fresh_table (T:=T) [] 3 1 hf) 0.
Proof.
  split.
  - apply fresh_table_wf.
  - apply (fresh_table_shaped 3).
  - split; simpl; lia.
  - unfold light. simpl. lia.
  - simpl. lia.
Qed.

Lemma Insert_sound fuel st x st' pos' n :
  sound st n → n < 2 ^ 60 →
  Insert fuel st x (home st x.1) = Ret (st', pos') →
  sound st' (n + 1).
Proof.
  intros [Hwf Hsh Hro Hli Hlen] Hn Hi.
  pose proof (roomy_bucket st x.1 Hro) as Hb.
  destruct (Insert_ok _ _ _ _ _ _ Hwf Hb Hi) as [Hwf' _].
  destruct (Insert_defined fuel st x _ Hwf Hsh Hro ltac:(lia) Hb) as [_ Hro'].
  destruct (Insert_light _ _ _ _ _ _ Hwf Hsh Hro Hli ltac:(lia) Hb Hi) as [Hli' _].
  destruct (Insert_appends _ _ _ _ _ _ Hi) as [He _].
  unfold elements in He. apply (f_equal length) in He.
  rewrite length_app, !length_fmap in He. simpl in He.
  split; [done|exact (Insert_shaped _ _ _ _ _ _ Hwf Hsh Hb Hi)
         |exact (Hro' _ _ Hi)|done|lia].
Qed.

Lemma erase_at_sound st pos s st' n :
  sound st n → vec_get (data_ st) pos = Ret s → used s = true →
  erase_at st pos = Ret st' → sound st' n.
Proof.
  intros [Hwf Hsh Hro Hli Hlen] Hs Hu He.
  destruct (erase_at_wf _ _ _ _ Hwf Hs Hu He) as (Hwf' & h & _ & Hvs).
  pose proof (erase_at_shaped _ _ _ _ Hwf Hsh Hs Hu He) as Hsh'.
  destruct (erase_at_inv _ _ _ _ Hwf Hs Hu He)
    as (h' & back & b & d1 & d2 & _ & _ & _ & _ & _ & E).
  pose proof (length_filter (λ e : nat * ValueType, e.1 ≠ h) (values_ st)) as Hfl.
  rewrite <- Hvs in Hfl.
  split; [done|done| | |lia].
  - rewrite E. exact Hro.
  - unfold light in *. rewrite E in *. simpl in *. lia.
Qed.

Lemma step_sound fuel st o st' n :
  sound st n → n < 2 ^ 60 → step T_new fuel st o = Ret st' → sound st' (n + 1).
Proof.
  intros Hso Hn. destruct o as [x|key|key|key|]; simpl; intros Hs.
  - apply insert_inv in Hs as (_ & p & _ & [[_ (pos' & Hi)]|[_ ->]]).
    + by eapply Insert_sound.
    + eapply sound_weaken; [done|lia].
  - apply erase_inv in Hs as (_ & p & Hf & [[_ ->]|[Hp He]]).
    + eapply sound_weaken; [done|lia].
    + destruct (Find_found _ _ _ _ _ Hf Hp) as (s & y & Hs & Hu & _).
      eapply sound_weaken; [by eapply erase_at_sound|lia].
  - bind_inv Hs as it Hf. ret_inv Hs. eapply sound_weaken; [done|lia].
  - bind_inv Hs as r Hr. ret_inv Hs. destruct r as [[st' it] v]. simpl.
    apply subscript_inv in Hr
      as (_ & p & _ & [(_ & -> & _)|(_ & pos' & s & y & Hi & _)]).
    + eapply sound_weaken; [done|lia].
    + by eapply (Insert_sound fuel st (key, T_new)).
  - destruct Hso as [Hwf Hsh Hro Hli Hlen].
    pose proof (clear_wf _ _ Hwf Hs) as Hwf'.
    pose proof (clear_shaped _ _ Hsh Hs) as Hsh'.
    apply clear_inv in Hs as (d & _ & ->).
    split; [done|done|exact Hro| |simpl; lia].
    unfold light. simpl. destruct Hro. lia.
Qed.

Lemma run_sound fuel ops st st' n :
  sound st n → n + Z.of_nat (length ops) ≤ 2 ^ 60 →
  run T_new fuel ops st = Ret st' →
  sound st' (n + Z.of_nat (length ops)).
Proof.
  revert st n. induction ops as [|o ops IH]; intros st n Hso Hn Hr; simpl in *.
  - ret_inv Hr. eapply sound_weaken; [done|lia].
  - bind_inv Hr as st1 H1.
    pose proof (step_sound _ _ _ _ _ Hso ltac:(lia) H1) as Hso1.
    apply (IH _ (n + 1)) in Hr; [|done|lia].
    eapply sound_weaken; [done|lia].
Qed.

(** X20: a map built from the default constructor by fewer than 2^60 calls
    of [insert], [erase], [find], [operator[]] and [clear] has a load factor
    of at most one half, up to one entry: twice the number of entries but
    one does not exceed the primary size.  Its primary size is not the last
    entry of [PRIMES], and it has more slots than entries. *)
Theorem load_factor_bounded fuel (hf : Key → Z) ops st :
  (st0 ← HashMap_new fuel hf; run T_new fuel ops st0) = Ret st →
  Z.of_nat (length ops) < 2 ^ 60 →
  2 * (size st - 1) ≤ primary_size_ st ∧
  primary_size_ st < 18446744073709551557 ∧
  size st < Z.of_nat (length (data_ st)) ∧
  size st ≤ Z.of_nat (length ops).
Proof.
  intros Hr Hn.
  assert (reachable T_new st) as Hre.
  { rewrite HashMap_new_eq in Hr. simpl in Hr.
    eapply run_reachable; [|done].
    apply (reachable_new T_new fuel hf). apply HashMap_new_eq. }
  rewrite HashMap_new_eq in Hr. simpl in Hr.
  apply (run_sound _ _ _ _ 0 (new_sound hf)) in Hr; [|lia].
  destruct Hr as [Hwf Hsh Hro Hli Hlen]. unfold light in Hli.
  destruct (roomy_length _ Hsh Hro) as [HL HC]. pose proof Hro as [HP _].
  unfold size. rewrite (shaped_count _ Hsh).
  split; [lia|]. split; [|lia].
  apply roomy_below_last; [done..|]. by apply (reachable_tabulated T_new).
Qed.

(** *** Calls other than [erase] return *)

Lemma insert_returns st x n :
  pristine st → sound st n → n < 2 ^ 60 →
  ∃ fuel st', insert fuel st x = Ret st'.
Proof.
  intros Hpr [Hwf Hsh Hro Hli Hlen] Hn.
  set (b := (length (positions_ st) + 2)%nat).
  destruct (Find_returns b st x.1 Hpr Hsh Hro ltac:(lia)) as [p Hf].
  destruct (Insert_returns (2 ^ 60) (Z.to_nat (4 * 2 ^ 60)) ltac:(lia)
              st x Hpr Hsh Hro Hli ltac:(lia)) as (fi & r & Hi).
  { destruct Hro. lia. }
  assert (b ≤ b `max` fi)%nat as Hb by lia.
  assert (fi ≤ b `max` fi)%nat as Hfi by lia.
  exists (b `max` fi)%nat. unfold insert.
  rewrite (roomy_bucket _ _ Hro), Ret_bind.
  rewrite (Find_fuel_mono _ _ _ _ _ _ Hb Hf), Ret_bind.
  destruct (p =? NONE); [|by eauto].
  rewrite (Insert_fuel_mono _ _ Hfi _ _ _ _ Hi). by eauto.
Qed.

Lemma find_returns st key :
  pristine st → shaped st → roomy st →
  ∃ it, find (length (positions_ st) + 2) st key = Ret it.
Proof.
  intros Hpr Hsh Hro.
  destruct (pristine_find_returns (length (positions_ st) + 2) st key Hpr Hsh Hro
              ltac:(lia)) as (it & Hf & _).
  by exists it.
Qed.

Lemma subscript_returns st key n :
  pristine st → sound st n → n < 2 ^ 60 →
  ∃ fuel r, subscript T_new fuel st key = Ret r.
Proof.
  intros Hpr [Hwf Hsh Hro Hli Hlen] Hn.
  set (b := (length (positions_ st) + 2)%nat).
  destruct (Find_returns b st key Hpr Hsh Hro ltac:(lia)) as [p Hf].
  destruct (Insert_returns (2 ^ 60) (Z.to_nat (4 * 2 ^ 60)) ltac:(lia)
              st (key, T_new) Hpr Hsh Hro Hli ltac:(lia)) as (fi & [st' pos'] & Hi).
  { destruct Hro. lia. }
  assert (b ≤ b `max` fi)%nat as Hb by lia.
  assert (fi ≤ b `max` fi)%nat as Hfi by lia.
  apply (Insert_fuel_mono _ _ Hfi) in Hi. simpl in Hi.
  exists (b `max` fi)%nat. unfold subscript.
  rewrite (roomy_bucket _ _ Hro), Ret_bind.
  rewrite (Find_fuel_mono _ _ _ _ _ _ Hb Hf), Ret_bind.
  destruct (Z.eqb_spec p NONE) as [->|Hp]; simpl.
  - rewrite Hi, Ret_bind. simpl.
    destruct (Insert_ok _ st (key, T_new) _ _ _ Hwf (roomy_bucket _ _ Hro) Hi)
      as (Hwf' & vs & h & s & Hvs & Hs & Hu & Hv).
    rewrite Hs, Ret_bind.
    destruct (wf_deref _ _ _ Hwf' Hs Hu) as (h' & y & _ & _ & Hy).
    rewrite Hy, Ret_bind. by eauto.
  - destruct (Find_found _ _ _ _ _ Hf Hp) as (s & y & Hs & _ & Hy & _).
    rewrite Hs, Ret_bind, Hy, Ret_bind. by eauto.
Qed.

Lemma step_returns st o n :
  pristine st → sound st n → n < 2 ^ 60 → is_erase o = false →
  ∃ fuel st', step T_new fuel st o = Ret st' ∧ pristine st'.
Proof.
  intros Hpr Hso Hn Ho. pose proof Hso as [Hwf Hsh Hro Hli Hlen].
  destruct o as [x|key|key|key|]; simpl in *; [|done|..].
  - destruct (insert_returns st x n Hpr Hso Hn) as (fuel & st' & Hi).
    exists fuel, st'. split; [done|].
    apply insert_inv in Hi as (_ & p & _ & [[_ (pos' & Hi)]|[_ ->]]); [|done].
    eapply Insert_pristine; [done|by apply roomy_bucket|done].
  - destruct (find_returns st key Hpr Hsh Hro) as [it Hf].
    eexists _, st. by rewrite Hf.
  - destruct (subscript_returns st key n Hpr Hso Hn) as (fuel & [[st' it] v] & Hs).
    exists fuel, st'. rewrite Hs. split; [done|].
    apply subscript_inv in Hs
      as (_ & p & _ & [(_ & -> & _)|(_ & pos' & s & y & Hi & _)]); [done|].
    apply (Insert_pristine fuel st (key, T_new) _ st' pos' Hpr
             (roomy_bucket st key Hro) Hi).
  - destruct (reset_slots_returns (positions_ st) (data_ st)) as [d Hd].
    { intros p [k Hk]%list_elem_of_lookup.
      destruct (wf_positions _ Hwf _ _ Hk) as (s & Hs & _).
      by eapply vec_get_range. }
    exists O. eexists. unfold clear at 1. rewrite Hd, Ret_bind.
    split; [done|]. eapply clear_pristine; [done|]. unfold clear. by rewrite Hd.
Qed.

Lemma run_returns ops st n :
  pristine st → sound st n → n + Z.of_nat (length ops) ≤ 2 ^ 60 →
  forallb (λ o, negb (is_erase o)) ops = true →
  ∃ fuel st', run T_new fuel ops st = Ret st'.
Proof.
  revert st n. induction ops as [|o ops IH]; intros st n Hpr Hso Hn Hops.
  - by exists O, st.
  - simpl in Hn, Hops. apply andb_true_iff in Hops as [Ho%negb_true_iff Hops].
    destruct (step_returns st o n Hpr Hso ltac:(lia) Ho) as (f1 & st1 & H1 & Hpr1).
    pose proof (step_sound _ _ _ _ _ Hso ltac:(lia) H1) as Hso1.
    destruct (IH st1 (n + 1) Hpr1 Hso1 ltac:(lia) Hops) as (f2 & st' & Hr).
    assert (f1 ≤ f1 `max` f2)%nat as Hf1 by lia.
    assert (f2 ≤ f1 `max` f2)%nat as Hf2 by lia.
    exists (f1 `max` f2)%nat, st'. simpl.
    rewrite (step_fuel_mono T_new _ _ _ _ _ Hf1 H1), Ret_bind.
    by apply (run_fuel_mono T_new f2).
Qed.

(** X21: every sequence of fewer than 2^60 calls of [insert], [find],
    [operator[]] and [clear] on a default-constructed map returns once the
    fuel suffices, without an exception and without undefined behaviour; the
    entries are then those of the reference map, in its order, and [find]
    returns for every key what the reference map holds for it. *)
Theorem calls_without_erase_return (hf : Key → Z) ops :
  forallb (λ o, negb (is_erase o)) ops = true →
  Z.of_nat (length ops) < 2 ^ 60 →
  ∃ fuel0 st, ∀ fuel, (fuel0 ≤ fuel)%nat →
    (st0 ← HashMap_new fuel hf; run T_new fuel ops st0) = Ret st ∧
    elements st = ref_run T_new ops ∧
    ∀ key, ∃ it,
      find (length (elements st) + 2) st key = Ret it ∧
      match ref_find (ref_run T_new ops) key with
      | None => it = list_end
      | Some v => deref (values_ st) it = Ret (key, v)
      end.
Proof.
  intros Hops Hn.
  destruct (run_returns ops (fresh_table [] 3 1 hf) 0
              (fresh_table_pristine 3 1 hf) (new_sound hf) ltac:(lia) Hops)
    as (fuel0 & st & Hr).
  exists fuel0, st. intros fuel Hfuel.
  assert ((st0 ← HashMap_new fuel hf; run T_new fuel ops st0) = Ret st) as Hrun.
  { rewrite HashMap_new_eq. simpl. by apply (run_fuel_mono T_new fuel0). }
  split; [done|].
  destruct (run_from_new _ _ _ _ _ Hrun) as (Hwf & Hnd & He).
  split; [done|]. intros key.
  assert (pristine st) as Hpr.
  { apply (erase_free_pristine T_new).
    eapply run_erase_free; [done| |exact Hr].
    eapply erase_free_new. apply (HashMap_new_eq O). }
  assert (0 + Z.of_nat (length ops) ≤ 2 ^ 60) as Hn0 by lia.
  pose proof (run_sound _ _ _ _ 0 (new_sound hf) Hn0 Hr) as [_ Hsh Hro _ _].
  destruct (find_returns st key Hpr Hsh Hro) as [it Hf].
  rewrite (shaped_positions _ Hsh) in Hf.
  unfold elements at 1. rewrite length_fmap.
  exists it. split; [done|].
  pose proof (find_correct _ _ _ _ Hwf Hnd Hf) as Hc. rewrite He in Hc.
  destruct (ref_find _ _); [|done]. by destruct Hc as (h & _ & Hd).
Qed.

End Runs.

(** ** Growth of the table and validity of iterators *)

Section Growth.

Context {Key T : Type} `{EqDecision Key} `{EqDecision T}.

Variable T_new : T.

Local Abbreviation ValueType := (@ValueType Key T).
Local Abbreviation HashMap := (HashMap Key T).

Implicit Types (st : HashMap) (x : ValueType) (pos : Z) (key : Key).

Lemma Insert_grows fuel st x st' pos' n :
  sound st n → n < 2 ^ 60 →
  Insert fuel st x (home st x.1) = Ret (st', pos') →
  primary_size_ st ≤ primary_size_ st'.
Proof.
  intros [Hwf Hsh Hro Hli Hlen] Hn Hi.
  pose proof (roomy_bucket st x.1 Hro) as Hb.
  by destruct (Insert_light _ _ _ _ _ _ Hwf Hsh Hro Hli ltac:(lia) Hb Hi).
Qed.

Lemma step_grows fuel st o st' n :
  sound st n → n < 2 ^ 60 → step T_new fuel st o = Ret st' →
  primary_size_ st ≤ primary_size_ st'.
Proof.
  intros Hso Hn. destruct o as [x|key|key|key|]; simpl; intros Hs.
  - apply insert_inv in Hs as (_ & p & _ & [[_ (pos' & Hi)]|[_ ->]]); [|done].
    by eapply Insert_grows.
  - apply erase_inv in Hs as (_ & p & Hf & [[_ ->]|[Hp He]]); [done|].
    destruct (Find_found _ _ _ _ _ Hf Hp) as (s & y & Hs & Hu & _).
    destruct (erase_at_inv _ _ _ _ (sound_wf _ _ Hso) Hs Hu He)
      as (h' & back & b & d1 & d2 & _ & _ & _ & _ & _ & ->).
    done.
  - bind_inv Hs as it Hf. by ret_inv Hs.
  - bind_inv Hs as r Hr. ret_inv Hs. destruct r as [[st' it] v]. simpl.
    apply subscript_inv in Hr
      as (_ & p & _ & [(_ & -> & _)|(_ & pos' & s & y & Hi & _)]); [done|].
    by eapply (Insert_grows fuel st (key, T_new)).
  - by apply clear_inv in Hs as (d & _ & ->).
Qed.

Lemma run_grows fuel ops st st' n :
  sound st n → n + Z.of_nat (length ops) ≤ 2 ^ 60 →
  run T_new fuel ops st = Ret st' →
  primary_size_ st ≤ primary_size_ st'.
Proof.
  revert st n. induction ops as [|o ops IH]; intros st n Hso Hn Hr; simpl in *.
  - by ret_inv Hr.
  - bind_inv Hr as st1 H1.
    pose proof (step_sound T_new _ _ _ _ _ Hso ltac:(lia) H1) as Hso1.
    pose proof (step_grows _ _ _ _ _ Hso ltac:(lia) H1) as HP1.
    apply (IH _ (n + 1)) in Hr; [lia|done|lia].
Qed.

(** X22: on a map built from the default constructor, further calls of
    [insert], [erase], [find], [operator[]] and [clear] never make the
    primary size smaller, as long as fewer than 2^60 calls are made in all. *)
Theorem table_never_shrinks fuel (hf : Key → Z) ops ops' st st' :
  (st0 ← HashMap_new fuel hf; run T_new fuel ops st0) = Ret st →
  run T_new fuel ops' st = Ret st' →
  Z.of_nat (length ops) + Z.of_nat (length ops') < 2 ^ 60 →
  3 ≤ primary_size_ st ∧ primary_size_ st ≤ primary_size_ st'.
Proof.
  intros Hr Hr' Hn. rewrite HashMap_new_eq in Hr. simpl in Hr.
  assert (0 + Z.of_nat (length ops) ≤ 2 ^ 60) as Hn0 by lia.
  pose proof (run_sound T_new _ _ _ _ 0 (new_sound hf) Hn0 Hr) as Hso.
  pose proof (run_grows _ _ _ _ 0 (new_sound hf) Hn0 Hr) as HP. simpl in HP.
  split; [done|].
  eapply (run_grows _ _ _ _ _ Hso); [|done]. lia.
Qed.

(** *** Iterators *)

Lemma node_at_app_l (vs ws : list (nat * ValueType)) h y :
  node_at vs h = Some y → node_at (vs ++ ws) h = Some y.
Proof.
  induction vs as [|[h0 z] vs IH]; simpl; [done|].
  destruct (decide (h0 = h)); [done|]. apply IH.
Qed.

Lemma node_at_filter_ne (vs : list (nat * ValueType)) h h0 :
  h0 ≠ h → node_at (filter (λ e, e.1 ≠ h) vs) h0 = node_at vs h0.
Proof.
  intros Hne. induction vs as [|[h1 z] vs IH]; [done|].
  destruct (decide (h1 = h)) as [->|Hne1].
  - rewrite filter_cons_False by (simpl; intros ?; done). simpl.
    by rewrite decide_False by done.
  - rewrite filter_cons_True by done. simpl. by rewrite IH.
Qed.

Lemma Insert_without_rehash fuel st x st' pos' :
  shaped st → Z.of_nat (length (values_ st)) < 2 ^ 60 →
  4 * Z.of_nat (length (values_ st)) ≤ primary_size_ st →
  Insert fuel st x (home st x.1) = Ret (st', pos') →
  values_ st' = values_ st ++ [(new_node (values_ st), x)] ∧
  primary_size_ st' = primary_size_ st ∧
  cellar_size_ st' = cellar_size_ st ∧
  length (data_ st') = length (data_ st).
Proof.
  intros Hsh Hlen Hload Hi. destruct fuel as [|fuel]; [done|].
  rewrite Insert_S in Hi. unfold rehash_if_loaded in Hi.
  pose proof (shaped_count _ Hsh) as Hc.
  destruct (Z.ltb_spec (primary_size_ st) (shl (element_count_ st) 1)) as [Hl|_].
  { rewrite Hc, shl_small in Hl by lia. lia. }
  rewrite Ret_bind in Hi. simpl in Hi.
  bind_inv Hi as head Hhead. destruct (used head).
  2: { apply store_inv in Hi as (s & d & _ & Hd & _ & ->). simpl.
       by rewrite (vec_set_length _ _ _ _ Hd). }
  bind_inv Hi as w Hw. destruct w as [last distance].
  bind_inv Hi as last_slot Hl. destruct (used last_slot).
  2: { apply store_inv in Hi as (s & d & _ & Hd & _ & ->). simpl.
       by rewrite (vec_set_length _ _ _ _ Hd). }
  bind_inv Hi as f Hf. destruct f as [next_free|].
  - bind_inv Hi as d Hd.
    apply store_inv in Hi as (s & d' & _ & Hd' & _ & ->). simpl in *.
    by rewrite (vec_set_length _ _ _ _ Hd'), (vec_set_length _ _ _ _ Hd).
  - apply free_scan_None in Hf. rewrite Hc, shl_small in Hf by lia. lia.
Qed.

(** X23: on a map that the public interface produces with fewer than 2^60
    entries and a load factor of at most one quarter, [insert] does not
    rehash: the table keeps its sizes, the entries that were there stay in
    their list nodes, and every iterator that designated an entry before
    the call designates the same entry afterwards. *)
Theorem insert_without_rehash fuel st x st' :
  reachable T_new st →
  Z.of_nat (length (elements st)) < 2 ^ 60 →
  4 * size st ≤ primary_size_ st →
  insert fuel st x = Ret st' →
  primary_size_ st' = primary_size_ st ∧
  cellar_size_ st' = cellar_size_ st ∧
  length (data_ st') = length (data_ st) ∧
  (∃ vs, values_ st' = values_ st ++ vs) ∧
  ∀ it y, deref (values_ st) it = Ret y → deref (values_ st') it = Ret y.
Proof.
  intros Hre Hlen Hload Hi.
  pose proof (reachable_shaped T_new _ Hre) as Hsh.
  unfold elements in Hlen. rewrite length_fmap in Hlen.
  unfold size in Hload. rewrite (shaped_count _ Hsh) in Hload.
  apply insert_inv in Hi as (_ & p & _ & [[_ (pos' & Hi)]|[_ ->]]).
  - destruct (Insert_without_rehash _ _ _ _ _ Hsh Hlen Hload Hi)
      as (Hvs & HP & HC & HL).
    do 3 (split; [done|]). split; [by eauto|].
    intros it y (h & -> & Hn)%deref_Ret. rewrite Hvs. simpl.
    by rewrite (node_at_app_l _ _ _ _ Hn).
  - do 3 (split; [done|]). split; [|done]. exists []. by rewrite app_nil_r.
Qed.

(** X24: when [erase] returns on a map that the public interface produces,
    every iterator that designated an entry of another key designates the
    same entry afterwards: only the node of the erased entry is gone. *)
Theorem erase_keeps_other_iterators fuel st key st' :
  reachable T_new st →
  erase fuel st key = Ret st' →
  ∀ it y, deref (values_ st) it = Ret y → y.1 ≠ key →
    deref (values_ st') it = Ret y.
Proof.
  intros Hre He it y Hd Hk. pose proof (reachable_wf T_new _ Hre) as Hwf.
  apply erase_inv in He as (_ & p & Hf & [[_ ->]|[Hp He]]); [done|].
  destruct (Find_found _ _ _ _ _ Hf Hp) as (s & x & Hs & Hu & Hx & Hkx).
  destruct (erase_at_wf _ _ _ _ Hwf Hs Hu He) as (_ & h & Hv & ->).
  apply deref_Ret in Hd as (h0 & -> & Hn). simpl.
  rewrite node_at_filter_ne; [by rewrite Hn|].
  intros ->. rewrite Hv in Hx. simpl in Hx. rewrite Hn in Hx. simpl in Hx.
  by simplify_eq.
Qed.

(** *** The constructors return *)

Lemma push_back_all_length (vs : list (nat * ValueType)) xs :
  length (push_back_all vs xs) = (length vs + length xs)%nat.
Proof.
  rewrite <- (length_fmap snd), push_back_all_elements, length_app, length_fmap.
  done.
Qed.

(** X25: the constructor from a range and the constructor from an
    initializer list return on every input of fewer than 2^60 elements once
    the fuel suffices, without an exception and without undefined
    behaviour, and both yield the same map. *)
Theorem range_constructor_returns (xs : list ValueType) (hf : Key → Z) :
  Z.of_nat (length xs) < 2 ^ 60 →
  ∃ fuel0 st, ∀ fuel, (fuel0 ≤ fuel)%nat →
    HashMap_range fuel xs hf = Ret st ∧
    HashMap_init_list fuel xs hf = Ret st.
Proof.
  intros Hlen.
  set (st0 := with_values (fresh_table (T:=T) [] 3 1 hf) (push_back_all [] xs)).
  assert (Z.of_nat (length (values_ st0)) = Z.of_nat (length xs)) as Hl.
  { simpl. by rewrite push_back_all_length. }
  assert (shl (vec_size (values_ st0)) 1 = Z.of_nat (length xs) * 2) as E.
  { unfold vec_size. rewrite Hl, wrap_small, shl_small; lia. }
  pose proof (NextPrime_ge_3 (Z.of_nat (length xs) * 2)) as H3.
  assert (2 ^ 60 ≤ 2 ^ 60) as Hb by lia.
  pose proof (Insert_returns (Key:=Key) (T:=T) (2 ^ 60) (Z.to_nat (4 * 2 ^ 60)) Hb)
    as Hins.
  destruct (Rehash_returns (2 ^ 60) (Z.to_nat (4 * 2 ^ 60)) st0
              (Z.of_nat (length xs) * 2) Hb Hins) as (fuel0 & st & Hre);
    [lia..|].
  exists fuel0, st. intros fuel Hfuel.
  assert (HashMap_range fuel xs hf = Ret st) as Hr.
  { unfold HashMap_range. rewrite HashMap_new_eq, Ret_bind.
    fold st0. change (push_back_all _ xs) with (values_ st0). rewrite E.
    by apply (Rehash_with_extends _ _ _ _ _ (Insert_fuel_mono fuel0 fuel Hfuel)). }
  split; [done|]. exact Hr.
Qed.

(** X26: the copy constructor returns on every map that the public
    interface produces with fewer than 2^60 entries and a primary size other
    than the last entry of [PRIMES], once the fuel suffices, also when the
    walks in the original do not end; the copy assignment returns the same
    map when the entries of the two maps differ. *)
Theorem copy_constructor_returns (other : HashMap) :
  reachable T_new other →
  primary_size_ other < 18446744073709551557 →
  Z.of_nat (length (elements other)) < 2 ^ 60 →
  ∃ fuel0 st, ∀ fuel, (fuel0 ≤ fuel)%nat →
    HashMap_copy fuel other = Ret st ∧
    ∀ this, elements this ≠ elements other → assign fuel this other = Ret st.
Proof.
  intros Hre Hlt Hlen.
  pose proof (reachable_shaped T_new _ Hre) as Hsh.
  pose proof (reachable_is_roomy T_new _ Hre Hlt) as Hro.
  unfold elements in Hlen. rewrite length_fmap in Hlen.
  assert (2 ^ 60 ≤ 2 ^ 60) as Hb by lia.
  pose proof (Insert_returns (Key:=Key) (T:=T) (2 ^ 60) (Z.to_nat (4 * 2 ^ 60)) Hb)
    as Hins.
  destruct (insert_all_returns (2 ^ 60) (Z.to_nat (4 * 2 ^ 60)) (elements other)
              (fresh_table [] (primary_size_ other) (cellar_size_ other)
                 (hasher_ other)) Hb Hins) as (fuel0 & st & Hrun).
  - apply fresh_table_pristine.
  - rewrite (shaped_cellar _ Hsh). apply fresh_table_shaped.
  - exact Hro.
  - unfold light. simpl. destruct Hro. lia.
  - unfold elements. simpl. rewrite length_fmap. lia.
  - simpl. destruct Hro. lia.
  - exists fuel0, st. intros fuel Hfuel.
    assert (rebuild_from fuel other = Ret st) as Hc.
    { rewrite rebuild_from_unfold.
      by apply (insert_all_extends _ _ _ _ _ (Insert_fuel_mono fuel0 fuel Hfuel)). }
    split; [done|]. intros this Hne. unfold assign.
    by rewrite decide_True.
Qed.

(** *** Calls on a key that is present *)

(** X27: on every map that the public interface produces, also one with
    deleted slots or with links that form a cycle, the calls on a key that
    some entry has return once the fuel suffices: [find] and [at] yield an
    entry of the key, [insert] and [operator[]] leave the object as it is,
    and [erase] returns a map. *)
Theorem calls_on_present_key_return st key v :
  reachable T_new st → (key, v) ∈ elements st →
  ∃ fuel0, ∀ fuel, (fuel0 ≤ fuel)%nat →
    (∃ it w, find fuel st key = Ret it ∧
             deref (values_ st) it = Ret (key, w) ∧
             at_ fuel st key = Ret w) ∧
    (∀ w, insert fuel st (key, w) = Ret st) ∧
    (∃ it w, subscript T_new fuel st key = Ret (st, it, w) ∧
             deref (values_ st) it = Ret (key, w)) ∧
    (∃ st', erase fuel st key = Ret st').
Proof.
  intros Hre Hin. pose proof (reachable_wf T_new _ Hre) as Hwf.
  destruct (reachable_tabulated T_new _ Hre) as [_ HP].
  apply list_elem_of_fmap in Hin as ([h y] & E & Hin). simpl in E. subst y.
  destruct (Find_present_returns _ _ _ Hwf Hin) as (fuel0 & p & Hf0 & Hp).
  simpl in Hf0.
  destruct (Find_found _ _ _ _ _ Hf0 Hp) as (s & [k w] & Hs & Hu & Hx & Hk).
  simpl in Hk. subst k.
  assert (bucket st key = Ret (home st key)) as Hb
    by (apply bucket_Ret; split; [lia|done]).
  exists fuel0. intros fuel Hle.
  pose proof (Find_fuel_mono _ _ _ _ _ _ Hle Hf0) as Hf.
  assert ((p =? NONE) = false) as Hpb by (by apply Z.eqb_neq).
  assert (find fuel st key = Ret (value s)) as Hfind.
  { unfold find. by rewrite Hb, Ret_bind, Hf, Ret_bind, Hpb, Hs. }
  split; [|split; [|split]].
  - exists (value s), w. split; [done|]. split; [done|]. by eapply at_of_find.
  - intros w'. unfold insert. simpl. by rewrite Hb, Ret_bind, Hf, Ret_bind, Hpb.
  - exists (value s), w. split; [|done]. unfold subscript.
    by rewrite Hb, Ret_bind, Hf, Ret_bind, Hpb; simpl; rewrite Hs, Ret_bind, Hx.
  - rewrite erase_unfold, Hb, Ret_bind, Hf, Ret_bind, Hpb. simpl.
    by eapply erase_at_returns.
Qed.

End Growth.

(** ** The statements at concrete maps *)

Lemma mixed_map_reachable : reachable 0 mixed_map.
Proof. exact (run_new_reachable _ _ mixed_map_reached). Qed.

Lemma crowded_map_reachable : reachable 0 crowded_map.
Proof. exact (run_new_reachable _ _ crowded_map_reached). Qed.

Lemma coalesced_map_reachable : reachable 0 coalesced_map.
Proof. exact (run_new_reachable _ _ coalesced_map_reached). Qed.

Lemma mixed_map_keys : NoDup (elements mixed_map).*1.
Proof.
  destruct (run_from_new 0 64 id_hash mixed_ops mixed_map) as (_ & Hnd & _);
    [vm_compute; reflexivity|exact Hnd].
Qed.

Lemma size_counts_entries_witness :
  reachable 0 mixed_map ∧
  (size mixed_map = Z.of_nat (length (elements mixed_map)) ∧
   (empty mixed_map = true ↔ elements mixed_map = []) ∧
   (begin mixed_map = end_ mixed_map ↔ elements mixed_map = [])).
Proof.
  split; [exact mixed_map_reachable|].
  apply (size_counts_entries 0 mixed_map). exact mixed_map_reachable.
Defined.

Lemma table_dimensions_witness :
  reachable 0 mixed_map ∧
  (cellar_size_ mixed_map = cellar_of (primary_size_ mixed_map) ∧
   Z.of_nat (length (data_ mixed_map))
     = wrap (primary_size_ mixed_map + cellar_size_ mixed_map) ∧
   (∀ i s, vec_get (data_ mixed_map) i = Ret s → next s ≠ NONE →
      ∃ s', vec_get (data_ mixed_map) (next s) = Ret s') ∧
   (primary_size_ mixed_map < 18446744073709551557 →
      Z.of_nat (length (data_ mixed_map))
        = primary_size_ mixed_map + cellar_size_ mixed_map ∧
      (∃ s, vec_get (data_ mixed_map) (start_pos_ mixed_map) = Ret s) ∧
      ∀ key, 0 ≤ home mixed_map key < primary_size_ mixed_map ∧
             ∃ s, vec_get (data_ mixed_map) (home mixed_map key) = Ret s)).
Proof.
  split; [exact mixed_map_reachable|].
  apply (table_dimensions 0 mixed_map). exact mixed_map_reachable.
Defined.

Lemma positions_list_used_slots_witness :
  reachable 0 mixed_map ∧
  (NoDup (positions_ mixed_map) ∧
   length (positions_ mixed_map) = length (elements mixed_map) ∧
   (∀ i, i ∈ positions_ mixed_map ↔
         ∃ s, vec_get (data_ mixed_map) i = Ret s ∧ used s = true) ∧
   (∀ i s, vec_get (data_ mixed_map) i = Ret s → used s = true →
      deleted s = false ∧
      vec_get (positions_ mixed_map) (rev_pos s) = Ret i ∧
      ∃ h x, value s = node h ∧ (h, x) ∈ values_ mixed_map ∧
             deref (values_ mixed_map) (value s) = Ret x)).
Proof.
  split; [exact mixed_map_reachable|].
  apply (positions_list_used_slots 0 mixed_map). exact mixed_map_reachable.
Defined.

Lemma Find_sound_witness :
  reachable 0 mixed_map ∧
  Find 64 mixed_map 7 (home mixed_map 7) = Ret 7 ∧
  ((7 = NONE → 7 ∉ (elements mixed_map).*1) ∧
   (7 ≠ NONE →
      ∃ s v, vec_get (data_ mixed_map) 7 = Ret s ∧ used s = true ∧
             deref (values_ mixed_map) (value s) = Ret (7, v))).
Proof.
  split; [exact mixed_map_reachable|]. split; [vm_compute; reflexivity|].
  apply (Find_sound 0 64 mixed_map 7 7); [exact mixed_map_reachable|].
  vm_compute. reflexivity.
Defined.

Lemma Insert_stores_entry_witness :
  reachable 0 mixed_map ∧
  Insert 64 mixed_map (20, 200) (home mixed_map 20) = Ret (mixed_inserted, 19) ∧
  (elements mixed_inserted = elements mixed_map ++ [(20, 200)] ∧
   hash_function mixed_inserted = hash_function mixed_map ∧
   size mixed_inserted = size mixed_map + 1 ∧
   chain (data_ mixed_inserted) (home mixed_inserted 20) 19 ∧
   ∃ s, vec_get (data_ mixed_inserted) 19 = Ret s ∧
        used s = true ∧ deleted s = false ∧
        deref (values_ mixed_inserted) (value s) = Ret (20, 200) ∧
        vec_get (positions_ mixed_inserted) (rev_pos s) = Ret 19).
Proof.
  split; [exact mixed_map_reachable|]. split; [vm_compute; reflexivity|].
  apply (Insert_stores_entry 0 64 mixed_map (20, 200) mixed_inserted 19);
    [exact mixed_map_reachable|].
  vm_compute. reflexivity.
Defined.

Lemma insert_then_find_witness :
  reachable 0 mixed_map ∧
  NoDup (elements mixed_map).*1 ∧
  insert 64 mixed_map (20, 200) = Ret mixed_inserted ∧
  ((20 ∈ (elements mixed_map).*1 → mixed_inserted = mixed_map) ∧
   (20 ∉ (elements mixed_map).*1 →
      elements mixed_inserted = elements mixed_map ++ [(20, 200)]) ∧
   NoDup (elements mixed_inserted).*1 ∧
   ∃ v fuel0 it,
     (20 ∉ (elements mixed_map).*1 → v = 200) ∧
     (∀ v0, (20, v0) ∈ elements mixed_map → v = v0) ∧
     deref (values_ mixed_inserted) it = Ret (20, v) ∧
     ∀ fuel', (fuel0 ≤ fuel')%nat →
       find fuel' mixed_inserted 20 = Ret it ∧
       at_ fuel' mixed_inserted 20 = Ret v).
Proof.
  split; [exact mixed_map_reachable|]. split; [exact mixed_map_keys|].
  split; [vm_compute; reflexivity|].
  apply (insert_then_find 0 64 mixed_map (20, 200) mixed_inserted);
    [exact mixed_map_reachable|exact mixed_map_keys|].
  vm_compute. reflexivity.
Defined.

Lemma erase_then_find_witness :
  reachable 0 mixed_map ∧
  NoDup (elements mixed_map).*1 ∧
  erase 64 mixed_map 7 = Ret mixed_erased ∧
  (elements mixed_erased = filter (λ y, y.1 ≠ 7) (elements mixed_map) ∧
   (7 ∉ (elements mixed_map).*1 → mixed_erased = mixed_map) ∧
   (7 ∈ (elements mixed_map).*1 → size mixed_erased = size mixed_map - 1) ∧
   primary_size_ mixed_erased = primary_size_ mixed_map ∧
   cellar_size_ mixed_erased = cellar_size_ mixed_map ∧
   length (data_ mixed_erased) = length (data_ mixed_map) ∧
   ∀ fuel',
     (∀ it, find fuel' mixed_erased 7 = Ret it → it = list_end) ∧
     (∀ v, at_ fuel' mixed_erased 7 ≠ Ret v)).
Proof.
  split; [exact mixed_map_reachable|]. split; [exact mixed_map_keys|].
  split; [vm_compute; reflexivity|].
  apply (erase_then_find 0 64 mixed_map 7 mixed_erased);
    [exact mixed_map_reachable|exact mixed_map_keys|].
  vm_compute. reflexivity.
Defined.

Lemma subscript_then_find_witness :
  reachable 0 mixed_map ∧
  NoDup (elements mixed_map).*1 ∧
  subscript 0 64 mixed_map 20 = Ret (mixed_subscripted, node 6, 0) ∧
  (deref (values_ mixed_subscripted) (node 6) = Ret (20, 0) ∧
   (20 ∈ (elements mixed_map).*1 → mixed_subscripted = mixed_map) ∧
   (20 ∉ (elements mixed_map).*1 →
      elements mixed_subscripted = elements mixed_map ++ [(20, 0)] ∧ 0 = 0) ∧
   NoDup (elements mixed_subscripted).*1 ∧
   ∃ fuel0, ∀ fuel', (fuel0 ≤ fuel')%nat →
     find fuel' mixed_subscripted 20 = Ret (node 6) ∧
     at_ fuel' mixed_subscripted 20 = Ret 0).
Proof.
  split; [exact mixed_map_reachable|]. split; [exact mixed_map_keys|].
  split; [vm_compute; reflexivity|].
  apply (subscript_then_find 0 64 mixed_map 20 mixed_subscripted (node 6) 0);
    [exact mixed_map_reachable|exact mixed_map_keys|].
  vm_compute. reflexivity.
Defined.

Lemma clear_empties_witness :
  reachable 0 mixed_map ∧
  ∃ st', clear mixed_map = Ret st' ∧
    elements st' = [] ∧ positions_ st' = [] ∧
    size st' = 0 ∧ empty st' = true ∧
    primary_size_ st' = primary_size_ mixed_map ∧
    cellar_size_ st' = cellar_size_ mixed_map ∧
    hash_function st' = hash_function mixed_map ∧
    start_pos_ st'
      = wrap (primary_size_ mixed_map + cellar_size_ mixed_map - 1) ∧
    length (data_ st') = length (data_ mixed_map) ∧
    (∀ i s, vec_get (data_ mixed_map) i = Ret s → used s = true →
       vec_get (data_ st') i = Ret Data_new) ∧
    (∀ i s, vec_get (data_ mixed_map) i = Ret s → used s = false →
       vec_get (data_ st') i = Ret s) ∧
    (∀ i s', vec_get (data_ st') i = Ret s' → used s' = false) ∧
    ∀ fuel key it, find fuel st' key = Ret it → it = list_end.
Proof.
  split; [exact mixed_map_reachable|].
  apply (clear_empties 0 mixed_map). exact mixed_map_reachable.
Defined.

Lemma lookups_stay_in_bounds_witness :
  reachable 0 mixed_map ∧
  primary_size_ mixed_map < 18446744073709551557 ∧
  (find 64 mixed_map 7 ≠ Undefined ∧
   at_ 64 mixed_map 7 ≠ Undefined ∧
   erase 64 mixed_map 7 ≠ Undefined ∧
   ∀ it, find 64 mixed_map 7 = Ret it →
     it = list_end ∨ ∃ v, deref (values_ mixed_map) it = Ret (7, v)).
Proof.
  split; [exact mixed_map_reachable|]. split; [vm_compute; reflexivity|].
  apply (lookups_stay_in_bounds 0 64 mixed_map 7);
    [exact mixed_map_reachable|].
  vm_compute. reflexivity.
Defined.

Lemma insertion_stays_in_bounds_witness :
  reachable 0 mixed_map ∧
  primary_size_ mixed_map < 18446744073709551557 ∧
  Z.of_nat (length (elements mixed_map)) < 2 ^ 60 ∧
  (insert 64 mixed_map (20, 200) ≠ Undefined ∧
   subscript 0 64 mixed_map 20 ≠ Undefined ∧
   (∀ st', insert 64 mixed_map (20, 200) = Ret st' →
      primary_size_ st' < 18446744073709551557) ∧
   (∀ st' it v, subscript 0 64 mixed_map 20 = Ret (st', it, v) →
      primary_size_ st' < 18446744073709551557)).
Proof.
  split; [exact mixed_map_reachable|]. split; [vm_compute; reflexivity|].
  split; [vm_compute; reflexivity|].
  apply (insertion_stays_in_bounds 0 64 mixed_map (20, 200));
    [exact mixed_map_reachable|vm_compute; reflexivity..].
Defined.

Lemma hash_function_fixed_witness :
  run 0 64 mixed_ops new_map = Ret mixed_map ∧
  hash_function mixed_map = hash_function new_map.
Proof.
  split; [vm_compute; reflexivity|].
  apply (hash_function_fixed 0 64 mixed_ops new_map mixed_map).
  vm_compute. reflexivity.
Defined.

Lemma find_returns_without_erase_witness :
  reachable 0 coalesced_map ∧
  erase_free 0 coalesced_map ∧
  primary_size_ coalesced_map < 18446744073709551557 ∧
  (length (elements coalesced_map) + 2 ≤ 64)%nat ∧
  ∃ it, find 64 coalesced_map 16 = Ret it ∧
    (16 ∉ (elements coalesced_map).*1 → it = list_end) ∧
    (16 ∈ (elements coalesced_map).*1 →
       ∃ v, deref (values_ coalesced_map) it = Ret (16, v)).
Proof.
  split; [exact coalesced_map_reachable|].
  split; [exact coalesced_map_erase_free|].
  split; [vm_compute; reflexivity|]. split; [vm_compute; lia|].
  apply (find_returns_without_erase 0 64 coalesced_map 16);
    [exact coalesced_map_reachable|exact coalesced_map_erase_free
    |vm_compute; reflexivity|vm_compute; lia].
Defined.

Lemma copy_constructor_witness :
  reachable 0 crowded_map ∧
  HashMap_copy 64 crowded_map = Ret crowded_copy ∧
  (elements crowded_copy = elements crowded_map ∧
   hash_function crowded_copy = hash_function crowded_map ∧
   size crowded_copy = size crowded_map ∧
   (∀ i s, vec_get (data_ crowded_copy) i = Ret s → deleted s = false) ∧
   never_revisits crowded_copy ∧
   (primary_size_ crowded_copy < 18446744073709551557 →
    ∀ key fuel', (length (elements crowded_copy) + 2 ≤ fuel')%nat →
      ∃ it, find fuel' crowded_copy key = Ret it ∧
        (key ∉ (elements crowded_copy).*1 → it = list_end) ∧
        (key ∈ (elements crowded_copy).*1 →
           ∃ v, deref (values_ crowded_copy) it = Ret (key, v)))).
Proof.
  split; [exact crowded_map_reachable|]. split; [vm_compute; reflexivity|].
  apply (copy_constructor 0 64 crowded_map crowded_copy);
    [exact crowded_map_reachable|].
  vm_compute. reflexivity.
Defined.

Lemma Rehash_rebuilds_witness :
  reachable 0 mixed_map ∧
  Rehash 64 mixed_map 40 = Ret mixed_rehashed ∧
  (elements mixed_rehashed = elements mixed_map ∧
   hash_function mixed_rehashed = hash_function mixed_map ∧
   size mixed_rehashed = size mixed_map ∧
   primary_size_ mixed_rehashed ∈ PRIMES ∧
   cellar_size_ mixed_rehashed = cellar_of (primary_size_ mixed_rehashed) ∧
   (∀ i s, vec_get (data_ mixed_rehashed) i = Ret s → deleted s = false) ∧
   never_revisits mixed_rehashed ∧
   (elements mixed_map = [] →
      primary_size_ mixed_rehashed = NextPrime 40 ∧
      Z.of_nat (length (data_ mixed_rehashed))
        = wrap (NextPrime 40 + cellar_of (NextPrime 40)) ∧
      ∀ i s, vec_get (data_ mixed_rehashed) i = Ret s → s = Data_new)).
Proof.
  split; [exact mixed_map_reachable|]. split; [vm_compute; reflexivity|].
  apply (Rehash_rebuilds 0 64 mixed_map 40 mixed_rehashed);
    [exact mixed_map_reachable|].
  vm_compute. reflexivity.
Defined.

Lemma range_constructor_witness :
  HashMap_range 64 short_range id_hash = Ret short_range_map ∧
  (elements short_range_map = short_range ∧
   hash_function short_range_map = id_hash ∧
   size short_range_map = Z.of_nat (length short_range) ∧
   (∀ i s, vec_get (data_ short_range_map) i = Ret s → deleted s = false) ∧
   (NoDup short_range.*1 → ∀ key v, (key, v) ∈ short_range →
      ∃ fuel0 it, deref (values_ short_range_map) it = Ret (key, v) ∧
        ∀ fuel', (fuel0 ≤ fuel')%nat →
          find fuel' short_range_map key = Ret it ∧
          at_ fuel' short_range_map key = Ret v)).
Proof.
  split; [vm_compute; reflexivity|].
  apply (range_constructor 0 64 short_range id_hash short_range_map).
  vm_compute. reflexivity.
Defined.

Lemma sparse_map_reachable : reachable 0 sparse_map.
Proof. apply (run_new_reachable sparse_ops). vm_compute. reflexivity. Qed.

Lemma cyclic_map_reachable : reachable 0 cyclic_map.
Proof. exact (run_new_reachable _ _ cyclic_map_reached). Qed.

Lemma load_factor_bounded_witness :
  (st0 ← HashMap_new 64 id_hash; run 0 64 mixed_ops st0) = Ret mixed_map ∧
  Z.of_nat (length mixed_ops) < 2 ^ 60 ∧
  (2 * (size mixed_map - 1) ≤ primary_size_ mixed_map ∧
   primary_size_ mixed_map < 18446744073709551557 ∧
   size mixed_map < Z.of_nat (length (data_ mixed_map)) ∧
   size mixed_map ≤ Z.of_nat (length mixed_ops)).
Proof.
  split; [vm_compute; reflexivity|]. split; [vm_compute; reflexivity|].
  apply (load_factor_bounded 0 64 id_hash mixed_ops mixed_map);
    vm_compute; reflexivity.
Defined.

Lemma calls_without_erase_return_witness :
  forallb (λ o, negb (is_erase o)) coalesced_ops = true ∧
  Z.of_nat (length coalesced_ops) < 2 ^ 60 ∧
  ∃ fuel0 st, ∀ fuel, (fuel0 ≤ fuel)%nat →
    (st0 ← HashMap_new fuel id_hash; run 0 fuel coalesced_ops st0) = Ret st ∧
    elements st = ref_run 0 coalesced_ops ∧
    ∀ key, ∃ it,
      find (length (elements st) + 2) st key = Ret it ∧
      match ref_find (ref_run 0 coalesced_ops) key with
      | None => it = list_end
      | Some v => deref (values_ st) it = Ret (key, v)
      end.
Proof.
  split; [vm_compute; reflexivity|]. split; [vm_compute; reflexivity|].
  apply (calls_without_erase_return 0 id_hash coalesced_ops);
    vm_compute; reflexivity.
Defined.

Lemma table_never_shrinks_witness :
  (st0 ← HashMap_new 64 id_hash; run 0 64 [] st0) = Ret new_map ∧
  run 0 64 mixed_ops new_map = Ret mixed_map ∧
  Z.of_nat (length (@nil (@op Z Z))) + Z.of_nat (length mixed_ops) < 2 ^ 60 ∧
  (3 ≤ primary_size_ new_map ∧
   primary_size_ new_map ≤ primary_size_ mixed_map).
Proof.
  split; [vm_compute; reflexivity|]. split; [vm_compute; reflexivity|].
  split; [vm_compute; reflexivity|].
  apply (table_never_shrinks 0 64 id_hash [] mixed_ops new_map mixed_map);
    vm_compute; reflexivity.
Defined.

Lemma insert_without_rehash_witness :
  reachable 0 sparse_map ∧
  elements sparse_map = [(1, 10)] ∧
  deref (values_ sparse_map) (node 1) = Ret (1, 10) ∧
  Z.of_nat (length (elements sparse_map)) < 2 ^ 60 ∧
  4 * size sparse_map ≤ primary_size_ sparse_map ∧
  insert 64 sparse_map (8, 80) = Ret sparse_inserted ∧
  elements sparse_inserted = [(1, 10); (8, 80)] ∧
  (primary_size_ sparse_inserted = primary_size_ sparse_map ∧
   cellar_size_ sparse_inserted = cellar_size_ sparse_map ∧
   length (data_ sparse_inserted) = length (data_ sparse_map) ∧
   (∃ vs, values_ sparse_inserted = values_ sparse_map ++ vs) ∧
   ∀ it y, deref (values_ sparse_map) it = Ret y →
     deref (values_ sparse_inserted) it = Ret y).
Proof.
  split; [exact sparse_map_reachable|].
  do 2 (split; [vm_compute; reflexivity|]). split; [vm_compute; reflexivity|].
  split; [vm_compute; discriminate|].
  do 2 (split; [vm_compute; reflexivity|]).
  apply (insert_without_rehash 0 64 sparse_map (8, 80) sparse_inserted);
    [exact sparse_map_reachable|vm_compute; reflexivity
    |vm_compute; discriminate|vm_compute; reflexivity].
Defined.

Lemma erase_keeps_other_iterators_witness :
  reachable 0 mixed_map ∧
  erase 64 mixed_map 7 = Ret mixed_erased ∧
  ∀ it y, deref (values_ mixed_map) it = Ret y → y.1 ≠ 7 →
    deref (values_ mixed_erased) it = Ret y.
Proof.
  split; [exact mixed_map_reachable|]. split; [vm_compute; reflexivity|].
  apply (erase_keeps_other_iterators 0 64 mixed_map 7 mixed_erased);
    [exact mixed_map_reachable|vm_compute; reflexivity].
Defined.

Lemma range_constructor_returns_witness :
  Z.of_nat (length short_range) < 2 ^ 60 ∧
  ∃ fuel0 st, ∀ fuel, (fuel0 ≤ fuel)%nat →
    HashMap_range fuel short_range id_hash = Ret st ∧
    HashMap_init_list fuel short_range id_hash = Ret st.
Proof.
  split; [vm_compute; reflexivity|].
  apply (range_constructor_returns short_range id_hash).
  vm_compute. reflexivity.
Defined.

Lemma copy_constructor_returns_witness :
  reachable 0 cyclic_map ∧
  primary_size_ cyclic_map < 18446744073709551557 ∧
  Z.of_nat (length (elements cyclic_map)) < 2 ^ 60 ∧
  ∃ fuel0 st, ∀ fuel, (fuel0 ≤ fuel)%nat →
    HashMap_copy fuel cyclic_map = Ret st ∧
    ∀ this, elements this ≠ elements cyclic_map →
      assign fuel this cyclic_map = Ret st.
Proof.
  split; [exact cyclic_map_reachable|]. split; [vm_compute; reflexivity|].
  split; [vm_compute; reflexivity|].
  apply (copy_constructor_returns 0 cyclic_map);
    [exact cyclic_map_reachable|vm_compute; reflexivity..].
Defined.

Lemma calls_on_present_key_return_witness :
  reachable 0 cyclic_map ∧
  (12, 120) ∈ elements cyclic_map ∧
  ∃ fuel0, ∀ fuel, (fuel0 ≤ fuel)%nat →
    (∃ it w, find fuel cyclic_map 12 = Ret it ∧
             deref (values_ cyclic_map) it = Ret (12, w) ∧
             at_ fuel cyclic_map 12 = Ret w) ∧
    (∀ w, insert fuel cyclic_map (12, w) = Ret cyclic_map) ∧
    (∃ it w, subscript 0 fuel cyclic_map 12 = Ret (cyclic_map, it, w) ∧
             deref (values_ cyclic_map) it = Ret (12, w)) ∧
    (∃ st', erase fuel cyclic_map 12 = Ret st').
Proof.
  assert ((12, 120) ∈ elements cyclic_map) as Hin.
  { vm_compute. apply elem_of_cons. right. left. }
  split; [exact cyclic_map_reachable|]. split; [exact Hin|].
  apply (calls_on_present_key_return 0 cyclic_map 12 120);
    [exact cyclic_map_reachable|exact Hin].
Defined.

(** ** [at] and the presence of the key *)

Section AtPresence.

Context {Key T : Type} `{EqDecision Key} `{EqDecision T}.

Variable T_new : T.

Local Abbreviation ValueType := (@ValueType Key T).
Local Abbreviation HashMap := (HashMap Key T).

Implicit Types (st : HashMap) (x : ValueType) (pos : Z) (key : Key).

(** A key that some entry has is found, whatever the other entries are. *)
Lemma find_some_entry st key :
  wf st → primary_size_ st ≠ 0 → key ∈ (elements st).*1 →
  ∃ fuel0 it v, (key, v) ∈ elements st ∧
    it ≠ list_end ∧ deref (values_ st) it = Ret (key, v) ∧
    ∀ fuel, (fuel0 ≤ fuel)%nat →
      find fuel st key = Ret it ∧ at_ fuel st key = Ret v.
Proof.
  intros Hwf HP ([k w] & Hk & Hin)%list_elem_of_fmap. simpl in Hk. subst k.
  apply list_elem_of_fmap in Hin as ([h y] & E & Hin). simpl in E. subst y.
  destruct (Find_present_returns _ _ _ Hwf Hin) as (fuel0 & p & Hf & Hp).
  simpl in Hf.
  destruct (Find_found _ _ _ _ _ Hf Hp) as (s & [k v] & Hs & Hu & Hy & Hk).
  simpl in Hk. subst k.
  destruct (deref_elem _ _ _ Hy) as (h' & Hit & Hin').
  exists fuel0, (value s), v. split.
  { apply list_elem_of_fmap. by exists (h', (key, v)). }
  split; [by rewrite Hit|]. split; [done|]. intros fuel Hle.
  assert (find fuel st key = Ret (value s)) as Hfind.
  { unfold find.
    assert (bucket st key = Ret (home st key)) as -> by (by apply bucket_Ret).
    rewrite Ret_bind, (Find_fuel_mono _ _ _ _ _ _ Hle Hf), Ret_bind.
    destruct (Z.eqb_spec p NONE) as [?|_]; [done|]. by rewrite Hs. }
  split; [done|]. by eapply at_of_find.
Qed.

(** A key that no entry has is not found. *)
Lemma find_no_entry fuel st key :
  key ∉ (elements st).*1 →
  (∀ it, find fuel st key = Ret it → it = list_end) ∧
  (∀ v, at_ fuel st key ≠ Ret v).
Proof.
  intros Hk.
  assert (∀ it, find fuel st key = Ret it → it = list_end) as Hfind.
  { intros it (_ & p & Hf & [[_ ->]|(Hp & _)])%find_inv; [done|].
    destruct Hk. by eapply Find_Some_present. }
  split; [done|]. intros v Ha. rewrite at_unfold in Ha.
  bind_inv Ha as it Hf. apply Hfind in Hf as ->.
  by rewrite decide_True in Ha.
Qed.

(** C2: [at] throws [out_of_range] exactly when [find] returns [end()], and
    returns the mapped value of the entry that [find] designates otherwise;
    no other public member function throws.  On a map that the public
    interface produces, moreover, a key that is present is found by [find]
    and [at] returns the value of the entry found, which is the value of the
    key in the reference map when the keys are unique; for a key that is
    absent, [find] can only return [end()] and [at] returns no value, and as
    long as [erase] has not been called since the table was built, [find]
    does return [end()] and [at] does throw [out_of_range]. *)
Theorem at_throws_iff_find_end fuel st key :
  (at_ fuel st key = Throw out_of_range ↔ find fuel st key = Ret list_end) ∧
  (∀ v, at_ fuel st key = Ret v ↔
     ∃ it x, find fuel st key = Ret it ∧ it ≠ list_end ∧
             deref (values_ st) it = Ret x ∧ v = x.2) ∧
  (∀ (hf : Key → Z) (xs : list ValueType) (other : HashMap) x key',
     no_throw (HashMap_new (T:=T) fuel hf) ∧
     no_throw (HashMap_range fuel xs hf) ∧
     no_throw (HashMap_init_list fuel xs hf) ∧
     no_throw (HashMap_copy fuel other) ∧
     no_throw (assign fuel st other) ∧
     no_throw (clear st) ∧
     no_throw (insert fuel st x) ∧
     no_throw (erase fuel st key') ∧
     no_throw (find fuel st key') ∧
     no_throw (subscript T_new fuel st key')) ∧
  (reachable T_new st →
     (key ∈ (elements st).*1 →
        ∃ fuel0 it v,
          (key, v) ∈ elements st ∧
          it ≠ list_end ∧ deref (values_ st) it = Ret (key, v) ∧
          (NoDup (elements st).*1 → ref_find (elements st) key = Some v) ∧
          ∀ fuel', (fuel0 ≤ fuel')%nat →
            find fuel' st key = Ret it ∧ at_ fuel' st key = Ret v) ∧
     (key ∉ (elements st).*1 →
        (∀ it, find fuel st key = Ret it → it = list_end) ∧
        (∀ v, at_ fuel st key ≠ Ret v) ∧
        (erase_free T_new st →
         primary_size_ st < 18446744073709551557 →
         (length (elements st) + 2 ≤ fuel)%nat →
         find fuel st key = Ret list_end ∧
         at_ fuel st key = Throw out_of_range))).
Proof.
  split; [apply at_Throw_iff|]. split; [intros v; apply at_Ret_iff|].
  split; [intros hf xs other x key'; apply others_do_not_throw|].
  intros Hre. pose proof (reachable_wf _ _ Hre) as Hwf.
  destruct (reachable_tabulated _ _ Hre) as [_ HP]. split.
  - intros Hin.
    destruct (find_some_entry st key Hwf ltac:(lia) Hin)
      as (fuel0 & it & v & Hv & Hne & Hd & Hfind).
    exists fuel0, it, v. do 3 (split; [done|]). split; [|done].
    intros Hnd. by apply (ref_find_elem _ (key, v)).
  - intros Hout. destruct (find_no_entry fuel st key Hout) as [Hf Ha].
    do 2 (split; [done|]). intros Hef Hlt Hfuel.
    pose proof (reachable_shaped _ _ Hre) as Hsh.
    destruct (pristine_find_returns fuel st key) as (it & Hit & Hend & _);
      [by eapply erase_free_pristine|done|by apply (reachable_is_roomy T_new)| |].
    { rewrite (shaped_positions _ Hsh). unfold elements in Hfuel.
      by rewrite length_fmap in Hfuel. }
    rewrite (Hend Hout) in Hit. split; [done|]. by apply at_Throw_iff.
Qed.

End AtPresence.

(** *** [at] on a key of the cycle and on a key that is absent *)

Lemma at_throws_iff_find_end_witness :
  (reachable 0 cyclic_map ∧
   12 ∈ (elements cyclic_map).*1 ∧
   NoDup (elements cyclic_map).*1 ∧
   ∃ fuel0 it v,
     (12, v) ∈ elements cyclic_map ∧
     it ≠ list_end ∧ deref (values_ cyclic_map) it = Ret (12, v) ∧
     ref_find (elements cyclic_map) 12 = Some v ∧
     ∀ fuel', (fuel0 ≤ fuel')%nat →
       find fuel' cyclic_map 12 = Ret it ∧ at_ fuel' cyclic_map 12 = Ret v) ∧
  (reachable 0 coalesced_map ∧
   (99 ∉ (elements coalesced_map).*1) ∧
   erase_free 0 coalesced_map ∧
   primary_size_ coalesced_map < 18446744073709551557 ∧
   (length (elements coalesced_map) + 2 ≤ 64)%nat ∧
   find 64 coalesced_map 99 = Ret list_end ∧
   at_ 64 coalesced_map 99 = Throw out_of_range).
Proof.
  assert (12 ∈ (elements cyclic_map).*1) as Hin.
  { vm_compute. apply elem_of_cons. right. left. }
  assert (NoDup (elements cyclic_map).*1) as Hnd.
  { destruct (run_from_new 0 64 id_hash cyclic_ops cyclic_map) as (_ & Hnd & _);
      [vm_compute; reflexivity|exact Hnd]. }
  assert (99 ∉ (elements coalesced_map).*1) as Hout.
  { vm_compute. intros H. repeat (apply elem_of_cons in H as [H|H]; [done|]).
    by apply elem_of_nil in H. }
  split.
  - split; [exact cyclic_map_reachable|]. split; [exact Hin|].
    split; [exact Hnd|].
    destruct (at_throws_iff_find_end 0 0 cyclic_map 12) as (_ & _ & _ & H).
    destruct (H cyclic_map_reachable) as [Hpresent _].
    destruct (Hpresent Hin) as (fuel0 & it & v & H1 & H2 & H3 & H4 & H5).
    exists fuel0, it, v. repeat (split; [done|]). split; [exact (H4 Hnd)|done].
  - split; [exact coalesced_map_reachable|]. split; [exact Hout|].
    split; [exact coalesced_map_erase_free|].
    split; [vm_compute; reflexivity|]. split; [vm_compute; lia|].
    destruct (at_throws_iff_find_end 0 64 coalesced_map 99) as (_ & _ & _ & H).
    destruct (H coalesced_map_reachable) as [_ Habsent].
    destruct (Habsent Hout) as (_ & _ & Htotal).
    apply Htotal;
      [exact coalesced_map_erase_free|vm_compute; reflexivity|vm_compute; lia].
Defined.
